(** * Series iterators of the query layer (pkg/query/iter.go)

    A shallow embedding of the sample cursors of [iter.go] and of the
    series sets that build them, followed by the properties that the
    specification states about them.

    Conventions of the embedding.
    - [int64] values are integers of [Z]; every arithmetic operation of the
      source is written with its two's complement wrap-around ([add64],
      [sub64], [mul64]).
    - A Go method that mutates its receiver becomes a function that returns
      the new receiver next to the result.
    - A [for] loop without a bound takes a fuel argument; [OutOfFuel] is
      the answer of a loop that has not finished within it, [Panic] the
      answer of an index out of range.
    - [float64] sample values are only carried around by this file; they are
      represented by their IEEE-754 bit pattern, so that [0] is the value
      [0.0]. *)

From Stdlib Require Import ZArith Lia Bool List.
From stdpp Require Import base option list gmap strings pretty sorting.

Local Open Scope Z_scope.

(** ** Machine integers *)

Definition MinInt64 : Z := - 2 ^ 63.
Definition MaxInt64 : Z := 2 ^ 63 - 1.

Definition wrap64 (z : Z) : Z := (z + 2 ^ 63) mod 2 ^ 64 - 2 ^ 63.
Definition add64 (x y : Z) : Z := wrap64 (x + y).
Definition sub64 (x y : Z) : Z := wrap64 (x - y).
Definition mul64 (x y : Z) : Z := wrap64 (x * y).

Definition int64_range (z : Z) : Prop := MinInt64 <= z <= MaxInt64.

(** ** Results of calls that may panic or loop *)

Inductive res (A : Type) : Type :=
| Ok (x : A)
| Panic
| OutOfFuel.
Arguments Ok {A} x.
Arguments Panic {A}.
Arguments OutOfFuel {A}.

#[global] Instance res_ret : MRet res := @Ok.
#[global] Instance res_bind : MBind res := fun A B f m =>
  match m with
  | Ok x => f x
  | Panic => Panic
  | OutOfFuel => OutOfFuel
  end.

(** ** Samples and errors *)

Definition float64 : Type := Z.
Definition sample : Type := (Z * float64)%type.

(** A Go [error]; [nil] is [None]. *)
Definition error : Type := option string.

(** ** The two cursor interfaces *)

(** [chunkenc.Iterator]: the cursor over one decoded chunk.  Its
    implementations live outside this file (the XOR decoder, the average
    cursor of the downsampling package) except [errSeriesIterator]; their
    methods always return. *)
Module chunkenc.
Class Iterator (C : Type) : Type := {
  Next : C -> bool * C;
  At : C -> sample;
  Err : C -> error
}.
End chunkenc.

(** [storage.SeriesIterator]: the cursor over one series. *)
Module storage.
Class SeriesIterator (S : Type) : Type := {
  Seek : nat -> Z -> S -> res (bool * S);
  Next : nat -> S -> res (bool * S);
  At : S -> res sample;
  Err : S -> res error
}.
End storage.

(** Go interfaces hold values of several concrete types; a sum of two
    implementations is again an implementation. *)
#[global] Instance sum_chunk_iterator {C D : Type}
  `{chunkenc.Iterator C} `{chunkenc.Iterator D} : chunkenc.Iterator (C + D) := {|
  chunkenc.Next x :=
    match x with
    | inl c => let '(ok, c') := chunkenc.Next c in (ok, inl c')
    | inr d => let '(ok, d') := chunkenc.Next d in (ok, inr d')
    end;
  chunkenc.At x :=
    match x with inl c => chunkenc.At c | inr d => chunkenc.At d end;
  chunkenc.Err x :=
    match x with inl c => chunkenc.Err c | inr d => chunkenc.Err d end
|}.

#[global] Instance sum_series_iterator {S T : Type}
  `{storage.SeriesIterator S} `{storage.SeriesIterator T} :
  storage.SeriesIterator (S + T) := {|
  storage.Seek fuel t x :=
    match x with
    | inl s => '(ok, s') ← storage.Seek fuel t s; Ok (ok, inl s')
    | inr s => '(ok, s') ← storage.Seek fuel t s; Ok (ok, inr s')
    end;
  storage.Next fuel x :=
    match x with
    | inl s => '(ok, s') ← storage.Next fuel s; Ok (ok, inl s')
    | inr s => '(ok, s') ← storage.Next fuel s; Ok (ok, inr s')
    end;
  storage.At x :=
    match x with inl s => storage.At s | inr s => storage.At s end;
  storage.Err x :=
    match x with inl s => storage.Err s | inr s => storage.Err s end
|}.

(** ** errSeriesIterator *)

Module errSeriesIterator.
Record t : Type := mk { err : error }.

Definition Seek (_ : Z) (it : t) : bool * t := (false, it).
Definition Next (it : t) : bool * t := (false, it).
Definition At (_ : t) : sample := (0, 0).
Definition Err (it : t) : error := err it.
End errSeriesIterator.

#[global] Instance errSeriesIterator_chunk : chunkenc.Iterator errSeriesIterator.t := {|
  chunkenc.Next := errSeriesIterator.Next;
  chunkenc.At := errSeriesIterator.At;
  chunkenc.Err := errSeriesIterator.Err
|}.

#[global] Instance errSeriesIterator_series : storage.SeriesIterator errSeriesIterator.t := {|
  storage.Seek _ t it := Ok (errSeriesIterator.Seek t it);
  storage.Next _ it := Ok (errSeriesIterator.Next it);
  storage.At it := Ok (errSeriesIterator.At it);
  storage.Err it := Ok (errSeriesIterator.Err it)
|}.

(** ** A decoded chunk

    The XOR decoder is outside this file.  Seen through [chunkenc.Iterator]
    it is a cursor over the samples of the chunk: [At] gives the sample read
    last, which before the first [Next] is the zero sample (the zero values
    of the fields that hold it; the test [ts > 0] of
    [dedupSeriesIterator.Seek] is there to step over it); [Next] reads the
    next sample and fails once the samples are used up or a read has
    failed; a failed read leaves its error in [Err]. *)
Module xorIterator.
Record t : Type := mk {
  cur : sample;            (* the fields t and val: the sample read last *)
  rest : list sample;      (* the samples still to be read *)
  broken : error;          (* the error of the read that follows [rest] *)
  err : error              (* the field err *)
}.

Definition Next (it : t) : bool * t :=
  match err it with
  | Some _ => (false, it)
  | None =>
    match rest it with
    | s :: r => (true, mk s r (broken it) None)
    | [] =>
      match broken it with
      | Some e => (false, mk (cur it) [] (broken it) (Some e))
      | None => (false, it)
      end
    end
  end.
Definition At (it : t) : sample := cur it.
Definition Err (it : t) : error := err it.

(** The cursor of a chunk that decodes to [samples]. *)
Definition of_samples (samples : list sample) : t := mk (0, 0) samples None None.
End xorIterator.

#[global] Instance xorIterator_chunk : chunkenc.Iterator xorIterator.t := {|
  chunkenc.Next := xorIterator.Next;
  chunkenc.At := xorIterator.At;
  chunkenc.Err := xorIterator.Err
|}.

(** ** boundedSeriesIterator *)

Module boundedSeriesIterator.
Record t (S : Type) : Type := mk { it : S; mint : Z; maxt : Z }.
Arguments mk {S} it mint maxt.
Arguments it {S} _.
Arguments mint {S} _.
Arguments maxt {S} _.

Section methods.
Context {S : Type} `{storage.SeriesIterator S}.

Definition Seek (fuel : nat) (t0 : Z) (b : t S) : res (bool * t S) :=
  if t0 >? maxt b then Ok (false, b)
  else
    let t1 := if t0 <? mint b then mint b else t0 in
    '(ok, w) ← storage.Seek fuel t1 (it b);
    Ok (ok, mk w (mint b) (maxt b)).

Definition At (b : t S) : res sample := storage.At (it b).

Definition Next (fuel : nat) (b : t S) : res (bool * t S) :=
  '(ok, w) ← storage.Next fuel (it b);
  let b1 := mk w (mint b) (maxt b) in
  if negb ok then Ok (false, b1)
  else
    '(t0, _) ← storage.At w;
    if t0 <? mint b1 then
      '(ok2, b2) ← Seek fuel (mint b1) b1;
      if negb ok2 then Ok (false, b2)
      else
        '(t1, _) ← storage.At (it b2);
        Ok (t1 <=? maxt b2, b2)
    else Ok (t0 <=? maxt b1, b1).

Definition Err (b : t S) : res error := storage.Err (it b).
End methods.
End boundedSeriesIterator.

Definition newBoundedSeriesIterator {S : Type} (it : S) (mint maxt : Z) :
  boundedSeriesIterator.t S :=
  boundedSeriesIterator.mk it mint maxt.

#[global] Instance boundedSeriesIterator_series {S : Type} `{storage.SeriesIterator S} :
  storage.SeriesIterator (boundedSeriesIterator.t S) := {|
  storage.Seek := boundedSeriesIterator.Seek;
  storage.Next := boundedSeriesIterator.Next;
  storage.At := boundedSeriesIterator.At;
  storage.Err := boundedSeriesIterator.Err
|}.

(** ** chunkSeriesIterator *)

Module chunkSeriesIterator.
Record t (C : Type) : Type := mk { chunks : list C; i : nat }.
Arguments mk {C} chunks i.
Arguments chunks {C} _.
Arguments i {C} _.

Section methods.
Context {C : Type} `{chunkenc.Iterator C}.

Definition At (it : t C) : res sample :=
  match chunks it !! i it with
  | Some c => Ok (chunkenc.At c)
  | None => Panic
  end.

Definition Err (it : t C) : res error :=
  match chunks it !! i it with
  | Some c => Ok (chunkenc.Err c)
  | None => Panic
  end.

(** [Next] and [Seek] call each other. *)
Fixpoint Next (fuel : nat) (it : t C) : res (bool * t C) :=
  match fuel with
  | O => OutOfFuel
  | S n =>
    '(lastT, _) ← At it;
    match chunks it !! i it with
    | None => Panic
    | Some c =>
      let '(ok, c') := chunkenc.Next c in
      let it1 := mk (<[i it := c']> (chunks it)) (i it) in
      if ok then Ok (true, it1)
      else
        e ← Err it1;
        if bool_decide (e ≠ None) then Ok (false, it1)
        else if Z.of_nat (i it1) >=? Z.of_nat (length (chunks it1)) - 1
        then Ok (false, it1)
        else Seek n (add64 lastT 1) (mk (chunks it1) (S (i it1)))
    end
  end
with Seek (fuel : nat) (t0 : Z) (it : t C) : res (bool * t C) :=
  match fuel with
  | O => OutOfFuel
  | S n =>
    '(ct, _) ← At it;
    if ct >=? t0 then Ok (true, it)
    else
      '(ok, it') ← Next n it;
      if negb ok then Ok (false, it') else Seek n t0 it'
  end.
End methods.
End chunkSeriesIterator.

#[global] Instance chunkSeriesIterator_series {C : Type} `{chunkenc.Iterator C} :
  storage.SeriesIterator (chunkSeriesIterator.t C) := {|
  storage.Seek := chunkSeriesIterator.Seek;
  storage.Next := chunkSeriesIterator.Next;
  storage.At := chunkSeriesIterator.At;
  storage.Err := chunkSeriesIterator.Err
|}.

(** The constructor answers with one of two implementations. *)
Definition newChunkSeriesIterator {C : Type} (cs : list C) :
  errSeriesIterator.t + chunkSeriesIterator.t C :=
  if bool_decide (length cs = 0%nat) then
    (* This should not happen. StoreAPI implementations should not send empty results. *)
    inl (errSeriesIterator.mk None)
  else inr (chunkSeriesIterator.mk cs 0).

(** ** dedupSeriesIterator *)

Module dedupSeriesIterator.
Record t (A B : Type) : Type := mk {
  a : A;
  b : B;
  aok : bool;
  bok : bool;
  lastT : Z;
  penA : Z;
  penB : Z;
  useA : bool
}.
Arguments mk {A B} a b aok bok lastT penA penB useA.
Arguments a {A B} _.
Arguments b {A B} _.
Arguments aok {A B} _.
Arguments bok {A B} _.
Arguments lastT {A B} _.
Arguments penA {A B} _.
Arguments penB {A B} _.
Arguments useA {A B} _.

Definition initialPenality : Z := 5000.

Section methods.
Context {A B : Type} `{storage.SeriesIterator A} `{storage.SeriesIterator B}.

Definition At (it : t A B) : res sample :=
  if useA it then storage.At (a it) else storage.At (b it).

Definition Next (fuel : nat) (it : t A B) : res (bool * t A B) :=
  (* Advance both iterators to at least the next highest timestamp plus the
     potential penalty. *)
  '(aok1, a1) ←
    (if aok it then storage.Seek fuel (add64 (add64 (lastT it) 1) (penA it)) (a it)
     else Ok (false, a it));
  '(bok1, b1) ←
    (if bok it then storage.Seek fuel (add64 (add64 (lastT it) 1) (penB it)) (b it)
     else Ok (false, b it));
  (* Handle basic cases where one iterator is exhausted before the other. *)
  if negb aok1 then
    if (bok1 : bool) then
      '(tb, _) ← storage.At b1;
      Ok (true, mk a1 b1 aok1 bok1 tb (penA it) 0 false)
    else Ok (false, mk a1 b1 aok1 bok1 (lastT it) (penA it) (penB it) false)
  else if negb bok1 then
    '(ta, _) ← storage.At a1;
    Ok (true, mk a1 b1 aok1 bok1 ta 0 (penB it) true)
  else
    (* General case where both iterators still have data. *)
    '(ta, _) ← storage.At a1;
    '(tb, _) ← storage.At b1;
    if ta <=? tb then
      let pen := if bool_decide (lastT it ≠ MinInt64)
                 then mul64 2 (sub64 ta (lastT it)) else initialPenality in
      Ok (true, mk a1 b1 aok1 bok1 ta 0 pen true)
    else
      let pen := if bool_decide (lastT it ≠ MinInt64)
                 then mul64 2 (sub64 tb (lastT it)) else initialPenality in
      Ok (true, mk a1 b1 aok1 bok1 tb pen 0 false).

(** The loop of [Seek], for at most [n] rounds. *)
Fixpoint Seek_loop (n fuel : nat) (t0 : Z) (it : t A B) : res (bool * t A B) :=
  match n with
  | O => OutOfFuel
  | S n' =>
    '(ts, _) ← At it;
    if (ts >? 0) && (ts >=? t0) then Ok (true, it)
    else
      '(ok, it') ← Next fuel it;
      if negb ok then Ok (false, it') else Seek_loop n' fuel t0 it'
  end.

Definition Seek (fuel : nat) (t0 : Z) (it : t A B) : res (bool * t A B) :=
  Seek_loop fuel fuel t0 it.

Definition Err (it : t A B) : res error :=
  ea ← storage.Err (a it);
  if bool_decide ((ea : error) ≠ None) then storage.Err (a it) else storage.Err (b it).
End methods.
End dedupSeriesIterator.

Definition newDedupSeriesIterator {A B : Type} (a : A) (b : B) :
  dedupSeriesIterator.t A B :=
  dedupSeriesIterator.mk a b true true MinInt64 0 0 false.

#[global] Instance dedupSeriesIterator_series {A B : Type}
  `{storage.SeriesIterator A} `{storage.SeriesIterator B} :
  storage.SeriesIterator (dedupSeriesIterator.t A B) := {|
  storage.Seek := dedupSeriesIterator.Seek;
  storage.Next := dedupSeriesIterator.Next;
  storage.At := dedupSeriesIterator.At;
  storage.Err := dedupSeriesIterator.Err
|}.

(** ** Reading a cursor to its end

    The samples that a consumer sees: [for it.Next() { t, v := it.At() }],
    as in [expandSeries2] without its substitution of NaN; at most [n]
    rounds. *)
Fixpoint samples_loop {S : Type} `{storage.SeriesIterator S} (n fuel : nat) (it : S) :
  res (list sample) :=
  match n with
  | O => OutOfFuel
  | S n' =>
    '(ok, it') ← storage.Next fuel it;
    if negb ok then Ok []
    else
      s ← storage.At it';
      l ← samples_loop n' fuel it';
      Ok (s :: l)
  end.

Definition samples {S : Type} `{storage.SeriesIterator S} (fuel : nat) (it : S) :
  res (list sample) :=
  samples_loop fuel fuel it.

(** The cursor over the chunks that decode to the sample lists [cs], as
    [newChunkSeriesIterator] builds it for a list that is not empty. *)
Definition ofChunks (cs : list (list sample)) : chunkSeriesIterator.t xorIterator.t :=
  chunkSeriesIterator.mk (map xorIterator.of_samples cs) 0.

(** ** Messages of the store API (package storepb) *)

Module storepb.
Inductive Chunk_Encoding : Type :=
| Chunk_XOR
| Chunk_unknown (code : Z).

Record Chunk : Type := mkChunk { Type_ : Chunk_Encoding; Data : list Byte.byte }.

(** A payload pointer is [None] when it is [nil]. *)
Record AggrChunk : Type := mkAggrChunk {
  MinTime : Z;
  MaxTime : Z;
  Raw : option Chunk;
  Count : option Chunk;
  Sum : option Chunk;
  Min : option Chunk;
  Max : option Chunk;
  Counter : option Chunk
}.

Inductive Aggr : Type :=
| Aggr_RAW
| Aggr_COUNT
| Aggr_SUM
| Aggr_MIN
| Aggr_MAX
| Aggr_COUNTER
| Aggr_unknown (code : Z).

Record Label : Type := mkLabel { Name : string; Value : string }.

Inductive LabelMatcher_Type : Type :=
| LabelMatcher_EQ
| LabelMatcher_NEQ
| LabelMatcher_RE
| LabelMatcher_NRE.

Record LabelMatcher : Type := mkLabelMatcher {
  LabelMatcher_Type_ : LabelMatcher_Type;
  LabelMatcher_Name : string;
  LabelMatcher_Value : string
}.
End storepb.

#[global] Instance Aggr_eq_dec : EqDecision storepb.Aggr.
Proof. solve_decision. Defined.

#[global] Instance Label_eq_dec : EqDecision storepb.Label.
Proof. solve_decision. Defined.

(** ** removeExactDuplicates

    [String] is the text rendering of a chunk message, produced by generated
    code outside this file. *)
Section removeExactDuplicates.
Context (String : storepb.AggrChunk -> string).

(** The loop over [chks[1:]]; [ret] is kept in reverse, so that its head is
    [ret[len(ret)-1]]. *)
Fixpoint removeExactDuplicates_loop (ret : list storepb.AggrChunk)
  (chks : list storepb.AggrChunk) : list storepb.AggrChunk :=
  match chks with
  | [] => rev ret
  | c :: chks' =>
    match ret with
    | last :: _ =>
      if bool_decide (String last = String c)
      then removeExactDuplicates_loop ret chks'
      else removeExactDuplicates_loop (c :: ret) chks'
    | [] => removeExactDuplicates_loop (c :: ret) chks'
    end
  end.

Definition removeExactDuplicates (chks : list storepb.AggrChunk) :
  list storepb.AggrChunk :=
  if bool_decide (length chks <= 1)%nat then chks
  else
    match chks with
    | c0 :: chks' => removeExactDuplicates_loop [c0] chks'
    | [] => chks
    end.

(** What is kept of [chks] when [last] is the chunk kept before them. *)
Fixpoint kept (last : storepb.AggrChunk) (chks : list storepb.AggrChunk) :
  list storepb.AggrChunk :=
  match chks with
  | [] => []
  | c :: chks' =>
    if bool_decide (String last = String c) then kept last chks'
    else c :: kept c chks'
  end.
End removeExactDuplicates.

(** ** What the file takes from other packages *)

(** The chunk decoder: [chunkenc.FromData] and the [Iterator] method of the
    chunk it returns. *)
Class Decoder : Type := {
  DecodedChunk : Type;
  ChunkCursor : Type;
  ChunkCursor_iterator :: chunkenc.Iterator ChunkCursor;
  FromData : Z -> list Byte.byte -> DecodedChunk + string;
  Iterator_of : DecodedChunk -> ChunkCursor
}.

Definition EncXOR : Z := 1.

Definition chunkEncoding (e : storepb.Chunk_Encoding) : Z :=
  match e with
  | storepb.Chunk_XOR => EncXOR
  | _ => 255 (* Invalid. *)
  end.

(** The cursor that [getFirstIterator] answers with. *)
Definition firstIterator `{Decoder} : Type := (ChunkCursor + errSeriesIterator.t)%type.

Fixpoint getFirstIterator `{Decoder} (cs : list (option storepb.Chunk)) : firstIterator :=
  match cs with
  | [] => inr (errSeriesIterator.mk (Some "no valid chunk found"%string))
  | None :: cs' => getFirstIterator cs'
  | Some c :: _ =>
    match FromData (chunkEncoding (storepb.Type_ c)) (storepb.Data c) with
    | inr err => inr (errSeriesIterator.mk (Some err))
    | inl chk => inl (Iterator_of chk)
    end
  end.

(** The two cursors of the downsampling package. *)
Class Downsample `{Decoder} : Type := {
  AverageChunkIterator : Type;
  AverageChunkIterator_iterator :: chunkenc.Iterator AverageChunkIterator;
  NewAverageChunkIterator : firstIterator -> firstIterator -> AverageChunkIterator;
  CounterSeriesIterator : Type;
  CounterSeriesIterator_iterator :: storage.SeriesIterator CounterSeriesIterator;
  NewCounterSeriesIterator :
    list (firstIterator + AverageChunkIterator) -> CounterSeriesIterator
}.

(** ** chunkSeries *)

Abbreviation Labels := (list storepb.Label).

Module chunkSeries.
Record t : Type := mk {
  lset : Labels;
  chunks : list storepb.AggrChunk;
  mint : Z;
  maxt : Z;
  aggrs : list storepb.Aggr
}.

Definition Labels (s : t) : Labels := lset s.

Definition Aggr_String (a : storepb.Aggr) : string :=
  match a with
  | storepb.Aggr_RAW => "RAW"
  | storepb.Aggr_COUNT => "COUNT"
  | storepb.Aggr_SUM => "SUM"
  | storepb.Aggr_MIN => "MIN"
  | storepb.Aggr_MAX => "MAX"
  | storepb.Aggr_COUNTER => "COUNTER"
  | storepb.Aggr_unknown _ => "?"
  end.

Definition unexpected (aggrs : list storepb.Aggr) : errSeriesIterator.t :=
  errSeriesIterator.mk
    (Some ("unexpected result aggregate type [" ++
           String.concat " " (map Aggr_String aggrs) ++ "]")%string).

Section Iterator.
Context `{Downsample}.

(** An element of [its]. *)
Definition chunkIterator : Type := (firstIterator + AverageChunkIterator)%type.

(** What [sit] can be. *)
Definition seriesIterator : Type :=
  ((errSeriesIterator.t + chunkSeriesIterator.t chunkIterator)
   + CounterSeriesIterator)%type.

Definition Iterator (s : t) :
  errSeriesIterator.t + boundedSeriesIterator.t seriesIterator :=
  let first (sel : storepb.AggrChunk -> option storepb.Chunk) : list chunkIterator :=
    map (fun c => inl (getFirstIterator [sel c; storepb.Raw c])) (chunks s) in
  let bounded (sit : seriesIterator) :=
    inr (newBoundedSeriesIterator sit (mint s) (maxt s)) in
  match aggrs s with
  | [aggr] =>
    match aggr with
    | storepb.Aggr_COUNT =>
      bounded (inl (newChunkSeriesIterator (first storepb.Count)))
    | storepb.Aggr_SUM =>
      bounded (inl (newChunkSeriesIterator (first storepb.Sum)))
    | storepb.Aggr_MIN =>
      bounded (inl (newChunkSeriesIterator (first storepb.Min)))
    | storepb.Aggr_MAX =>
      bounded (inl (newChunkSeriesIterator (first storepb.Max)))
    | storepb.Aggr_COUNTER =>
      bounded (inr (NewCounterSeriesIterator (first storepb.Counter)))
    | _ => inl (unexpected (aggrs s))
    end
  | [a0; a1] =>
    if bool_decide (a0 = storepb.Aggr_SUM /\ a1 = storepb.Aggr_COUNT
                    \/ a0 = storepb.Aggr_COUNT /\ a1 = storepb.Aggr_SUM)
    then
      let its : list chunkIterator :=
        map (fun c =>
               match storepb.Raw c with
               | Some _ => inl (getFirstIterator [storepb.Raw c])
               | None =>
                 let sum := getFirstIterator [storepb.Sum c] in
                 let cnt := getFirstIterator [storepb.Count c] in
                 inr (NewAverageChunkIterator cnt sum)
               end) (chunks s) in
      bounded (inl (newChunkSeriesIterator its))
    else inl (unexpected (aggrs s))
  | _ => inl (unexpected (aggrs s))
  end.
End Iterator.
End chunkSeries.

#[global] Typeclasses Transparent firstIterator chunkSeries.chunkIterator
  chunkSeries.seriesIterator.

(** [storepb.LabelsToPromLabels] copies names and values from one label type
    to the other; this file has one label type. *)
Definition LabelsToPromLabels (lset : list storepb.Label) : Labels := lset.

Definition newChunkSeries (lset : list storepb.Label) (chunks : list storepb.AggrChunk)
  (mint maxt : Z) (aggrs : list storepb.Aggr) : chunkSeries.t :=
  chunkSeries.mk (LabelsToPromLabels lset) chunks mint maxt aggrs.

(** ** promSeriesSet *)

(** [storepb.SeriesSet]: the stream of partial series. *)
Class SeriesSet (T : Type) : Type := {
  SeriesSet_Next : T -> bool * T;
  SeriesSet_At : T -> res (list storepb.Label * list storepb.AggrChunk);
  SeriesSet_Err : T -> error
}.

Module storeSeriesSet.
Record Series : Type := mkSeries {
  Labels : list storepb.Label;
  Chunks : list storepb.AggrChunk
}.
Record t : Type := mk { series : list Series; i : Z }.

Definition Next (s : t) : bool * t :=
  if i s >=? Z.of_nat (length (series s)) - 1 then (false, s)
  else (true, mk (series s) (i s + 1)).

Definition Err (_ : t) : error := None.

Definition At (s : t) : res (list storepb.Label * list storepb.AggrChunk) :=
  if i s <? 0 then Panic
  else
    match series s !! Z.to_nat (i s) with
    | Some x => Ok (Labels x, Chunks x)
    | None => Panic
    end.
End storeSeriesSet.

Definition newStoreSeriesSet (s : list storeSeriesSet.Series) : storeSeriesSet.t :=
  storeSeriesSet.mk s (-1).

#[global] Instance storeSeriesSet_set : SeriesSet storeSeriesSet.t := {|
  SeriesSet_Next := storeSeriesSet.Next;
  SeriesSet_At := storeSeriesSet.At;
  SeriesSet_Err := storeSeriesSet.Err
|}.

Module promSeriesSet.
Record t (T : Type) : Type := mk {
  set : T;
  done : bool;
  mint : Z;
  maxt : Z;
  aggrs : list storepb.Aggr;
  initiated : bool;
  currLset : list storepb.Label;
  currChunks : list storepb.AggrChunk
}.
Arguments mk {T} set done mint maxt aggrs initiated currLset currChunks.
Arguments set {T} _.
Arguments done {T} _.
Arguments mint {T} _.
Arguments maxt {T} _.
Arguments aggrs {T} _.
Arguments initiated {T} _.
Arguments currLset {T} _.
Arguments currChunks {T} _.

(** [None] is the [nil] series. *)
Definition At {T : Type} `{SeriesSet T} (s : t T) : option chunkSeries.t :=
  if negb (initiated s) || bool_decide (SeriesSet_Err (set s) ≠ None) then None
  else Some (newChunkSeries (currLset s) (currChunks s) (mint s) (maxt s) (aggrs s)).

Definition Err {T : Type} `{SeriesSet T} (s : t T) : error := SeriesSet_Err (set s).

Section Next.
Context {T : Type} `{SeriesSet T}.
(** [storepb.CompareLabels], [sort.Slice] and the text rendering of a chunk
    come from other packages.  [append] and [sort.Slice] work in place on a
    slice that begins as the chunks of a partial series of the input; the
    embedding keeps the chunks as values, which is what [Next] and [At]
    show as long as the partial series of the input do not share their
    arrays. *)
Context (CompareLabels : list storepb.Label -> list storepb.Label -> Z).
Context (sort_Slice : (storepb.AggrChunk -> storepb.AggrChunk -> bool) ->
                      list storepb.AggrChunk -> list storepb.AggrChunk).
Context (String : storepb.AggrChunk -> string).

(** The loop that gathers the chunks of the partial series with the labels
    [currLset], for at most [n] rounds; it answers with the input set, with
    [done] and with the chunks. *)
Fixpoint Next_loop (n : nat) (set0 : T) (currLset : list storepb.Label)
  (currChunks : list storepb.AggrChunk) : res (T * bool * list storepb.AggrChunk) :=
  match n with
  | O => OutOfFuel
  | S n' =>
    let '(done1, set1) := SeriesSet_Next set0 in
    if negb done1 then Ok (set1, done1, currChunks)
    else
      '(nextLset, nextChunks) ← SeriesSet_At set1;
      if negb (CompareLabels currLset nextLset =? 0) then Ok (set1, done1, currChunks)
      else Next_loop n' set1 currLset (currChunks ++ nextChunks)
  end.

Definition Next (fuel : nat) (s : t T) : res (bool * t T) :=
  let s1 :=
    if negb (initiated s) then
      let '(done1, set1) := SeriesSet_Next (set s) in
      mk set1 done1 (mint s) (maxt s) (aggrs s) true (currLset s) (currChunks s)
    else s in
  if negb (done s1) then Ok (false, s1)
  else
    (* storage.Series are more strict then SeriesSet:
       it requires storage.Series to iterate over full series. *)
    '(lset, chks) ← SeriesSet_At (set s1);
    '(set2, done2, chks2) ← Next_loop fuel (set s1) lset chks;
    (* Samples (so chunks as well) have to be sorted by time. *)
    let sorted :=
      sort_Slice (fun a b => storepb.MinTime a <? storepb.MinTime b) chks2 in
    Ok (true, mk set2 done2 (mint s1) (maxt s1) (aggrs s1) true lset
                (removeExactDuplicates String sorted)).
End Next.
End promSeriesSet.

(** ** Series and series sets of the Prometheus storage package

    [storage.Series] and [storage.SeriesSet].  [At] of a set answers with a
    series, which is an interface value: [None] is [nil]. *)
Module storage_set.
Class Series (X : Type) : Type := {
  Labels : X -> Labels
}.

Class SeriesSet (T X : Type) : Type := {
  Next : nat -> T -> res (bool * T);
  At : T -> res (option X);
  Err : T -> res error
}.
End storage_set.

(** ** seriesWithLabels and dedupSeries *)

Module seriesWithLabels.
Record t (X : Type) : Type := mk { Series : option X; lset : Labels }.
Arguments mk {X} Series lset.
Arguments Series {X} _.
Arguments lset {X} _.

Definition Labels {X : Type} (s : t X) : Labels := lset s.
End seriesWithLabels.

Module dedupSeries.
Record t (X : Type) : Type := mk { lset : Labels; replicas : list (option X) }.
Arguments mk {X} lset replicas.
Arguments lset {X} _.
Arguments replicas {X} _.

Definition Labels {X : Type} (s : t X) : Labels := lset s.
End dedupSeries.

Definition newDedupSeries {X : Type} (lset : Labels) (replicas : list (option X)) :
  dedupSeries.t X :=
  dedupSeries.mk lset replicas.

(** ** dedupSeriesSet *)

Module dedupSeriesSet.
(** The fields that [peekLset] reads; [peek] is given by its label set. *)
Record t : Type := mk {
  replicaLabels : gset string;
  peek : Labels
}.

(** [lset[k]] for a Go [int] index. *)
Definition index (lset : Labels) (k : Z) : res storepb.Label :=
  if k <? 0 then Panic
  else match lset !! Z.to_nat k with
       | Some l => Ok l
       | None => Panic
       end.

(** [n] more rounds of the loop that counts the replica labels. *)
Fixpoint peekLset_loop (s : t) (lset : Labels) (n : nat) (idx totalToRemove : Z) : res Z :=
  match n with
  | O => Ok totalToRemove
  | S n' =>
    l ← index lset (Z.of_nat (length lset) - idx - 1);
    peekLset_loop s lset n' (idx + 1)
      (if bool_decide (storepb.Name l ∈ replicaLabels s)
       then totalToRemove + 1 else totalToRemove)
  end.

Definition peekLset (s : t) : res Labels :=
  let lset := peek s in
  if bool_decide (size (replicaLabels s) = 0%nat) then Ok lset
  else
    totalToRemove ← peekLset_loop s lset (size (replicaLabels s)) 0 0;
    (* Strip all present replica labels. *)
    let hi := Z.of_nat (length lset) - totalToRemove in
    if (hi <? 0) || (hi >? Z.of_nat (length lset)) then Panic
    else Ok (take (Z.to_nat hi) lset).

(** The whole state of the set.  The series of [replicas] and [peek] are
    interface values. *)
Module state.
Record t (T X : Type) : Type := mk {
  set : T;
  replicaLabels : gset string;
  replicas : list (option X);
  lset : Labels;
  peek : option X;
  ok : bool
}.
Arguments mk {T X} set replicaLabels replicas lset peek ok.
Arguments set {T X} _.
Arguments replicaLabels {T X} _.
Arguments replicas {T X} _.
Arguments lset {T X} _.
Arguments peek {T X} _.
Arguments ok {T X} _.
End state.

Section methods.
Context {T X : Type} `{storage_set.SeriesSet T X} `{storage_set.Series X}.

(** [s.peekLset()] on the whole state: [s.peek.Labels()] panics when [peek]
    is nil. *)
Definition peekLset_of (s : state.t T X) : res Labels :=
  match state.peek s with
  | None => Panic
  | Some x => peekLset (mk (state.replicaLabels s) (storage_set.Labels x))
  end.

(** [next] calls itself at its end; [n] bounds these calls. *)
Fixpoint next (n fuel : nat) (s : state.t T X) : res (bool * state.t T X) :=
  match n with
  | O => OutOfFuel
  | S n' =>
    (* Peek the next series to see whether it's a replica for the current
       series. *)
    '(ok1, set1) ← storage_set.Next fuel (state.set s);
    if negb ok1 then
      (* There's no next series, the current replicas are the last element. *)
      Ok (Z.of_nat (length (state.replicas s)) >? 0,
          state.mk set1 (state.replicaLabels s) (state.replicas s) (state.lset s)
            (state.peek s) ok1)
    else
      x ← storage_set.At set1;
      let s2 := state.mk set1 (state.replicaLabels s) (state.replicas s) (state.lset s)
                  x ok1 in
      nextLset ← peekLset_of s2;
      (* If the label set modulo the replica label is equal to the current
         label set look for more replicas, otherwise a series is complete. *)
      if negb (bool_decide (state.lset s2 = nextLset)) then Ok (true, s2)
      else
        next n' fuel
          (state.mk set1 (state.replicaLabels s) (state.replicas s ++ [x]) (state.lset s)
             x ok1)
  end.

Definition Next (fuel : nat) (s : state.t T X) : res (bool * state.t T X) :=
  if negb (state.ok s) then Ok (false, s)
  else
    (* Set the label set we are currently gathering to the peek element
       without the replica label if it exists. *)
    lset ← peekLset_of s;
    next fuel fuel
      (state.mk (state.set s) (state.replicaLabels s) [state.peek s] lset
         (state.peek s) (state.ok s)).

Definition At (s : state.t T X) : seriesWithLabels.t X + dedupSeries.t X :=
  match state.replicas s with
  | [x] => inl (seriesWithLabels.mk x (state.lset s))
  | repl =>
    (* Clients may store the series, so we must make a copy of the slice
       before advancing. *)
    inr (newDedupSeries (state.lset s) repl)
  end.

Definition Err (s : state.t T X) : res error := storage_set.Err (state.set s).
End methods.
End dedupSeriesSet.

Definition newDedupSeriesSet {T X : Type} `{storage_set.SeriesSet T X} (fuel : nat)
  (set : T) (replicaLabels : gset string) : res (dedupSeriesSet.state.t T X) :=
  '(ok, set1) ← storage_set.Next fuel set;
  if (ok : bool) then
    x ← storage_set.At set1;
    Ok (dedupSeriesSet.state.mk set1 replicaLabels [] [] x ok)
  else Ok (dedupSeriesSet.state.mk set1 replicaLabels [] [] None ok).

#[global] Instance dedupSeriesSet_set {T X : Type} `{storage_set.SeriesSet T X}
  `{storage_set.Series X} :
  storage_set.SeriesSet (dedupSeriesSet.state.t T X)
    (seriesWithLabels.t X + dedupSeries.t X) := {|
  storage_set.Next := dedupSeriesSet.Next;
  storage_set.At s := Ok (Some (dedupSeriesSet.At s));
  storage_set.Err := dedupSeriesSet.Err
|}.

#[global] Instance dedupSeriesSet_series {X : Type} :
  storage_set.Series (seriesWithLabels.t X + dedupSeries.t X) := {|
  storage_set.Labels s :=
    match s with
    | inl w => seriesWithLabels.Labels w
    | inr d => dedupSeries.Labels d
    end
|}.

#[global] Instance chunkSeries_series : storage_set.Series chunkSeries.t := {|
  storage_set.Labels := chunkSeries.Labels
|}.

(** [promSeriesSet] as a [storage.SeriesSet]. *)
Definition promSeriesSet_set {T : Type} `{SeriesSet T}
  (CompareLabels : list storepb.Label -> list storepb.Label -> Z)
  (sort_Slice : (storepb.AggrChunk -> storepb.AggrChunk -> bool) ->
                list storepb.AggrChunk -> list storepb.AggrChunk)
  (String : storepb.AggrChunk -> string) :
  storage_set.SeriesSet (promSeriesSet.t T) chunkSeries.t := {|
  storage_set.Next := promSeriesSet.Next CompareLabels sort_Slice String;
  storage_set.At s := Ok (promSeriesSet.At s);
  storage_set.Err s := Ok (promSeriesSet.Err s)
|}.

(** ** translateMatchers *)

(** Matchers of the Prometheus package [labels]; [MatchType] is an [int], of
    which the package names four values. *)
Module labels.
Inductive MatchType : Type :=
| MatchEqual
| MatchNotEqual
| MatchRegexp
| MatchNotRegexp
| MatchType_unknown (code : Z).

Record Matcher : Type := mkMatcher {
  Type_ : MatchType;
  Name : string;
  Value : string
}.
End labels.

(** [m] is a pointer: [None] is [nil], and reading [m.Type] panics then.
    The error is [None] when it is [nil]; [%d] prints the number of the
    type. *)
Definition translateMatcher (m : option labels.Matcher) :
  res (storepb.LabelMatcher * error) :=
  match m with
  | None => Panic
  | Some m =>
    match labels.Type_ m with
    | labels.MatchEqual =>
      Ok (storepb.mkLabelMatcher storepb.LabelMatcher_EQ (labels.Name m) (labels.Value m),
          None)
    | labels.MatchNotEqual =>
      Ok (storepb.mkLabelMatcher storepb.LabelMatcher_NEQ (labels.Name m) (labels.Value m),
          None)
    | labels.MatchRegexp =>
      Ok (storepb.mkLabelMatcher storepb.LabelMatcher_RE (labels.Name m) (labels.Value m),
          None)
    | labels.MatchNotRegexp =>
      Ok (storepb.mkLabelMatcher storepb.LabelMatcher_NRE (labels.Name m) (labels.Value m),
          None)
    | labels.MatchType_unknown code =>
      Ok (storepb.mkLabelMatcher storepb.LabelMatcher_EQ "" "",
          Some ("unrecognized matcher type " ++ pretty code)%string)
    end
  end.

(** The loop over [ms]; [ret] is [res] of the source.  The [nil] slice of
    the failing case is the empty list. *)
Fixpoint translateMatchers_loop (ret : list storepb.LabelMatcher)
  (ms : list (option labels.Matcher)) : res (list storepb.LabelMatcher * error) :=
  match ms with
  | [] => Ok (ret, None)
  | m :: ms' =>
    '(r, err) ← translateMatcher m;
    if bool_decide ((err : error) ≠ None) then Ok ([], err)
    else translateMatchers_loop (ret ++ [r]) ms'
  end.

Definition translateMatchers (ms : list (option labels.Matcher)) :
  res (list storepb.LabelMatcher * error) :=
  translateMatchers_loop [] ms.

(** ** expandSeries2 *)

(** [math.IsNaN] on the bit pattern of a [float64]: all the exponent bits
    are set and the fraction is not zero. *)
Definition IsNaN (v : float64) : bool :=
  (Z.land (Z.shiftr v 52) 2047 =? 2047) && negb (Z.land v (2 ^ 52 - 1) =? 0).

(** [float64(-99999999)]. *)
Definition hackyStaleMarker2 : float64 := 0xC197D783FC000000.

Fixpoint expandSeries2_loop {C : Type} `{chunkenc.Iterator C} (n : nat) (it : C)
  (ret : list sample) : res (list sample) :=
  match n with
  | O => OutOfFuel
  | S n' =>
    let '(ok, it') := chunkenc.Next it in
    if negb ok then Ok ret
    else
      let '(t0, v) := chunkenc.At it' in
      (* Nan != Nan, so substitute for another value. *)
      let v := if IsNaN v then hackyStaleMarker2 else v in
      expandSeries2_loop n' it' (ret ++ [(t0, v)])
  end.

Definition expandSeries2 {C : Type} `{chunkenc.Iterator C} (fuel : nat) (it : C) :
  res (list sample) :=
  expandSeries2_loop fuel it [].

(** * Notions used by the statements *)

(** The penalty of the side that was not selected. *)
Definition penalty_after (lastT t_selected : Z) : Z :=
  if bool_decide (lastT = MinInt64) then 5000
  else wrap64 (2 * (t_selected - lastT)).

(** What a cursor promises about [Seek]: on success the current sample is at
    or after the target. *)
Definition seek_reaches (S : Type) `{storage.SeriesIterator S} : Prop :=
  forall fuel t0 s s', storage.Seek fuel t0 s = Ok (true, s') ->
    exists ts v, storage.At s' = Ok (ts, v) /\ t0 <= ts.

(** The pre-aggregated payload of a chunk that matches an aggregate kind. *)
Definition matching (aggr : storepb.Aggr) (c : storepb.AggrChunk) : option storepb.Chunk :=
  match aggr with
  | storepb.Aggr_COUNT => storepb.Count c
  | storepb.Aggr_SUM => storepb.Sum c
  | storepb.Aggr_MIN => storepb.Min c
  | storepb.Aggr_MAX => storepb.Max c
  | storepb.Aggr_COUNTER => storepb.Counter c
  | _ => None
  end.

Definition single_kinds : list storepb.Aggr :=
  [storepb.Aggr_COUNT; storepb.Aggr_SUM; storepb.Aggr_MIN; storepb.Aggr_MAX;
   storepb.Aggr_COUNTER].

(** The requests that the specification knows: one of the five kinds, or
    sum and count together. *)
Definition resolvable (aggrs : list storepb.Aggr) : Prop :=
  (exists aggr, aggr ∈ single_kinds /\ aggrs = [aggr])
  \/ aggrs = [storepb.Aggr_SUM; storepb.Aggr_COUNT]
  \/ aggrs = [storepb.Aggr_COUNT; storepb.Aggr_SUM].

(** The cursor that is built from one payload alone. *)
Definition payload_cursor `{Decoder} (p : storepb.Chunk) : firstIterator :=
  getFirstIterator [Some p].

(** [advances fuel it path it']: advancing [it] again and again succeeds
    [length path] times, goes through the states of [path], of which [it] is
    the first, and arrives at [it']. *)
Inductive advances {S : Type} `{storage.SeriesIterator S} (fuel : nat) :
  S -> list S -> S -> Prop :=
| advances_nil (it : S) : advances fuel it [] it
| advances_cons (it it1 it' : S) (path : list S) :
    storage.Next fuel it = Ok (true, it1) ->
    advances fuel it1 path it' ->
    advances fuel it (it :: path) it'.

(** The test of [dedupSeriesIterator.Seek] on the current sample. *)
Definition seek_accepts {A B : Type} `{storage.SeriesIterator A} `{storage.SeriesIterator B}
  (t0 : Z) (it : dedupSeriesIterator.t A B) : Prop :=
  exists ts v, dedupSeriesIterator.At it = Ok (ts, v) /\ 0 < ts /\ t0 <= ts.

Definition seek_rejects {A B : Type} `{storage.SeriesIterator A} `{storage.SeriesIterator B}
  (t0 : Z) (it : dedupSeriesIterator.t A B) : Prop :=
  exists ts v, dedupSeriesIterator.At it = Ok (ts, v) /\ ~ (0 < ts /\ t0 <= ts).

(** Both sides are live and on the same timestamp. *)
Definition tied {A B : Type} `{storage.SeriesIterator A} `{storage.SeriesIterator B}
  (it : dedupSeriesIterator.t A B) : res bool :=
  if dedupSeriesIterator.aok it && dedupSeriesIterator.bok it then
    '(ta, _) ← storage.At (dedupSeriesIterator.a it);
    '(tb, _) ← storage.At (dedupSeriesIterator.b it);
    Ok (ta =? tb)
  else Ok false.

(** Whether reading the cursor to its end meets a tie. *)
Fixpoint ties {A B : Type} `{storage.SeriesIterator A} `{storage.SeriesIterator B}
  (n fuel : nat) (it : dedupSeriesIterator.t A B) : res bool :=
  match n with
  | O => OutOfFuel
  | S n' =>
    '(ok, it') ← dedupSeriesIterator.Next fuel it;
    if negb ok then Ok false
    else
      x ← tied it';
      if (x : bool) then Ok true else ties n' fuel it'
  end.

(** The same pairwise cursor with its sides exchanged. *)
Definition mirror {A B : Type}
  (it : dedupSeriesIterator.t A B) (jt : dedupSeriesIterator.t B A) : Prop :=
  dedupSeriesIterator.a jt = dedupSeriesIterator.b it
  /\ dedupSeriesIterator.b jt = dedupSeriesIterator.a it
  /\ dedupSeriesIterator.aok jt = dedupSeriesIterator.bok it
  /\ dedupSeriesIterator.bok jt = dedupSeriesIterator.aok it
  /\ dedupSeriesIterator.lastT jt = dedupSeriesIterator.lastT it
  /\ dedupSeriesIterator.penA jt = dedupSeriesIterator.penB it
  /\ dedupSeriesIterator.penB jt = dedupSeriesIterator.penA it.

(** The cursor of one grouped series: its chunks, cut to [[mint, maxt]]. *)
Definition seriesCursor (mint maxt : Z) (cs : list (list sample)) :
  boundedSeriesIterator.t (chunkSeriesIterator.t xorIterator.t) :=
  newBoundedSeriesIterator (ofChunks cs) mint maxt.


(** How many labels of [l] have the name of a replica label. *)
Definition replica_count (replicaLabels : gset string) (l : Labels) : nat :=
  length (filter (fun x => storepb.Name x ∈ replicaLabels) l).

(** Timestamps that increase strictly, above [lo] and below the largest
    timestamp. *)
Fixpoint increasing_from (lo : Z) (l : list sample) : Prop :=
  match l with
  | [] => True
  | s :: l' => lo < fst s /\ fst s < MaxInt64 /\ increasing_from (fst s) l'
  end.

(** A chunk cursor that is on or before samples with increasing timestamps
    above zero. *)
Definition ordered_cursor (c : xorIterator.t) : Prop :=
  0 <= fst (xorIterator.cur c) < MaxInt64
  /\ increasing_from (fst (xorIterator.cur c)) (xorIterator.rest c).

(** A chunk cursor that has not been read yet. *)
Definition fresh_cursor (c : xorIterator.t) : Prop :=
  fst (xorIterator.cur c) = 0 /\ increasing_from 0 (xorIterator.rest c).

(** The states of a [chunkSeriesIterator] over such chunks: the chunks after
    the current one have not been read. *)
Definition ordered_chunks (it : chunkSeriesIterator.t xorIterator.t) : Prop :=
  exists before c after,
    chunkSeriesIterator.chunks it = before ++ c :: after
    /\ chunkSeriesIterator.i it = length before
    /\ ordered_cursor c
    /\ Forall fresh_cursor after.

(** The timestamp of the current sample. *)
Definition current (it : chunkSeriesIterator.t xorIterator.t) : Z :=
  match chunkSeriesIterator.chunks it !! chunkSeriesIterator.i it with
  | Some c => fst (xorIterator.cur c)
  | None => 0
  end.

(** A bound on the calls that reading the chunks [cs] to their end takes. *)
Fixpoint work (cs : list xorIterator.t) : nat :=
  match cs with
  | [] => 0
  | c :: cs' => S (S (length (xorIterator.rest c))) + work cs'
  end.

Definition remaining (it : chunkSeriesIterator.t xorIterator.t) : nat :=
  work (drop (chunkSeriesIterator.i it) (chunkSeriesIterator.chunks it)).

(** * Implementations to run on

    The statements about [chunkSeries.Iterator] hold for every decoder and
    for every implementation of the two cursors of the downsampling package.
    To have concrete inputs, this section fixes simple ones: a chunk of one
    byte per sample, an average cursor that reads its two cursors side by
    side, and a counter cursor that reads the chunks one after the other. *)

Definition byteSamples (d : list Byte.byte) : list sample :=
  imap (fun k b => (Z.of_nat k, Z.of_N (Byte.to_N b))) d.

Definition bytesDecoder : Decoder := {|
  DecodedChunk := list sample;
  ChunkCursor := xorIterator.t;
  ChunkCursor_iterator := xorIterator_chunk;
  FromData e d :=
    if e =? EncXOR then inl (byteSamples d) else inr "unknown chunk encoding"%string;
  Iterator_of := xorIterator.of_samples
|}.

Definition pairIterator : chunkenc.Iterator
  (@firstIterator bytesDecoder * @firstIterator bytesDecoder) := {|
  chunkenc.Next it :=
    let '(cok, cnt) := chunkenc.Next (fst it) in
    let '(sok, sum) := chunkenc.Next (snd it) in
    (cok && sok, (cnt, sum));
  chunkenc.At it :=
    (fst (chunkenc.At (fst it)), snd (chunkenc.At (snd it)) / snd (chunkenc.At (fst it)));
  chunkenc.Err it :=
    match chunkenc.Err (fst it) with
    | Some e => Some e
    | None => chunkenc.Err (snd it)
    end
|}.

Definition plainDownsample : @Downsample bytesDecoder := {|
  AverageChunkIterator := (@firstIterator bytesDecoder * @firstIterator bytesDecoder)%type;
  AverageChunkIterator_iterator := pairIterator;
  NewAverageChunkIterator cnt sum := (cnt, sum);
  CounterSeriesIterator :=
    chunkSeriesIterator.t
      (@firstIterator bytesDecoder
       + (@firstIterator bytesDecoder * @firstIterator bytesDecoder));
  CounterSeriesIterator_iterator :=
    @chunkSeriesIterator_series _
      (@sum_chunk_iterator _ _ (@sum_chunk_iterator _ _ _ _) pairIterator);
  NewCounterSeriesIterator its := chunkSeriesIterator.mk its 0
|}.

(** A grouped series of two chunks: the first has a sum payload in an
    encoding that is not known, the second a raw payload. *)
Definition twoChunks : list storepb.AggrChunk :=
  [storepb.mkAggrChunk 0 1 None None
     (Some (storepb.mkChunk (storepb.Chunk_unknown 7) [Byte.x01; Byte.x02]))
     None None None;
   storepb.mkAggrChunk 2 4
     (Some (storepb.mkChunk storepb.Chunk_XOR [Byte.x05; Byte.x06; Byte.x07]))
     None None None None None].

Definition upLabels : list storepb.Label :=
  [storepb.mkLabel "__name__" "up"; storepb.mkLabel "replica" "a"].



(** * Further notions *)

(** A chunk cursor that has not been read yet and has no error to come. *)
Definition unread_cursor (c : xorIterator.t) : Prop :=
  fst (xorIterator.cur c) = 0
  /\ xorIterator.broken c = None /\ xorIterator.err c = None.

(** [on_sample it cu l]: the cursor is on the sample [cu] of its current
    chunk and [l] are the samples after it, those of the current chunk and
    then those of the chunks that follow, which have not been read. *)
Definition on_sample (it : chunkSeriesIterator.t xorIterator.t) (cu : sample)
  (l : list sample) : Prop :=
  exists before c after,
    it = chunkSeriesIterator.mk (before ++ c :: after) (length before)
    /\ xorIterator.cur c = cu
    /\ xorIterator.broken c = None /\ xorIterator.err c = None
    /\ Forall unread_cursor after
    /\ xorIterator.rest c ++ concat (map xorIterator.rest after) = l.

(** The samples of [l] from the first one at or after [t0] on. *)
Fixpoint skip_before (t0 : Z) (l : list sample) : list sample :=
  match l with
  | [] => []
  | s :: l' => if fst s <? t0 then skip_before t0 l' else l
  end.

(** The samples whose timestamp lies in [[mint, maxt]]. *)
Definition in_window (mint maxt : Z) (s : sample) : bool :=
  (mint <=? fst s) && (fst s <=? maxt).

(** The type of the matcher that a store matcher of a type stands for. *)
Definition matchType_of (t0 : storepb.LabelMatcher_Type) : labels.MatchType :=
  match t0 with
  | storepb.LabelMatcher_EQ => labels.MatchEqual
  | storepb.LabelMatcher_NEQ => labels.MatchNotEqual
  | storepb.LabelMatcher_RE => labels.MatchRegexp
  | storepb.LabelMatcher_NRE => labels.MatchNotRegexp
  end.

(** The store matcher [r] says what the matcher behind the pointer [m]
    says. *)
Definition translates (m : option labels.Matcher) (r : storepb.LabelMatcher) : Prop :=
  m = Some (labels.mkMatcher (matchType_of (storepb.LabelMatcher_Type_ r))
              (storepb.LabelMatcher_Name r) (storepb.LabelMatcher_Value r)).

(** A pointer to a matcher of one of the four named types. *)
Definition named_type (m : option labels.Matcher) : Prop :=
  exists m0, m = Some m0 /\ forall code, labels.Type_ m0 <> labels.MatchType_unknown code.

(** What a consumer of a store series set sees:
    [for set.Next() { lset, chks := set.At() }], for at most [n] rounds. *)
Fixpoint SeriesSet_all {T : Type} `{SeriesSet T} (n : nat) (s : T) :
  res (list (list storepb.Label * list storepb.AggrChunk)) :=
  match n with
  | O => OutOfFuel
  | S n' =>
    let '(ok, s') := SeriesSet_Next s in
    if negb ok then Ok []
    else
      x ← SeriesSet_At s';
      l ← SeriesSet_all n' s';
      Ok (x :: l)
  end.

(** The sample that [expandSeries2] records for a sample. *)
Definition without_NaN (s : sample) : sample :=
  (fst s, if IsNaN (snd s) then hackyStaleMarker2 else snd s).

(** The partial series at the head of [l] that belong to the series with
    the labels [lset]: those that compare equal to it, up to the first one
    that does not. *)
Fixpoint same_series (CompareLabels : list storepb.Label -> list storepb.Label -> Z)
  (lset : list storepb.Label) (l : list storeSeriesSet.Series) :
  list storeSeriesSet.Series :=
  match l with
  | [] => []
  | x :: l' =>
    if CompareLabels lset (storeSeriesSet.Labels x) =? 0
    then x :: same_series CompareLabels lset l'
    else []
  end.

(** The comparison that [promSeriesSet.Next] sorts the chunks with. *)
Definition less_MinTime (a b : storepb.AggrChunk) : bool :=
  storepb.MinTime a <? storepb.MinTime b.

(** What [sort.Slice] promises for this comparison: the same chunks, each as
    often as before, with start times that do not decrease. *)
Definition sorts (sort_Slice : (storepb.AggrChunk -> storepb.AggrChunk -> bool) ->
                               list storepb.AggrChunk -> list storepb.AggrChunk) : Prop :=
  forall l, sort_Slice less_MinTime l ≡ₚ l
    /\ StronglySorted (fun a b => storepb.MinTime a <= storepb.MinTime b)
         (sort_Slice less_MinTime l).

(** [lists fuel s xs]: the series set [s] gives the series [xs], in this
    order, and then ends. *)
Inductive lists {T X : Type} `{storage_set.SeriesSet T X} (fuel : nat) :
  T -> list X -> Prop :=
| lists_end (s s' : T) :
    storage_set.Next fuel s = Ok (false, s') -> lists fuel s []
| lists_next (s s' : T) (x : X) (xs : list X) :
    storage_set.Next fuel s = Ok (true, s') ->
    storage_set.At s' = Ok (Some x) ->
    lists fuel s' xs ->
    lists fuel s (x :: xs).

(** What a consumer of a series set sees:
    [for set.Next() { series := set.At() }], for at most [n] rounds. *)
Fixpoint series_all {T X : Type} `{storage_set.SeriesSet T X} (n fuel : nat) (s : T) :
  res (list (option X)) :=
  match n with
  | O => OutOfFuel
  | S n' =>
    '(ok, s') ← storage_set.Next fuel s;
    if negb ok then Ok []
    else
      x ← storage_set.At s';
      l ← series_all n' fuel s';
      Ok (x :: l)
  end.

(** The replicas that a series of a [dedupSeriesSet] stands for. *)
Definition members {X : Type} (g : seriesWithLabels.t X + dedupSeries.t X) :
  list (option X) :=
  match g with
  | inl w => [seriesWithLabels.Series w]
  | inr d => dedupSeries.replicas d
  end.

(** The label set of a series without its replica labels, as [peekLset]
    computes it. *)
Definition stripped {X : Type} `{storage_set.Series X} (replicaLabels : gset string)
  (x : X) : res Labels :=
  dedupSeriesSet.peekLset (dedupSeriesSet.mk replicaLabels (storage_set.Labels x)).

(** The series that a list of partial series stands for, read in one pass:
    a partial series whose labels compare equal to the labels of the series
    that is being gathered adds its chunks to it, another one begins the
    next series. *)
Fixpoint gather_from (CompareLabels : list storepb.Label -> list storepb.Label -> Z)
  (lset : list storepb.Label) (chks : list storepb.AggrChunk)
  (l : list storeSeriesSet.Series) :
  list (list storepb.Label * list storepb.AggrChunk) :=
  match l with
  | [] => [(lset, chks)]
  | x :: l' =>
    if CompareLabels lset (storeSeriesSet.Labels x) =? 0
    then gather_from CompareLabels lset (chks ++ storeSeriesSet.Chunks x) l'
    else (lset, chks)
         :: gather_from CompareLabels (storeSeriesSet.Labels x) (storeSeriesSet.Chunks x) l'
  end.

Definition gather (CompareLabels : list storepb.Label -> list storepb.Label -> Z)
  (l : list storeSeriesSet.Series) :
  list (list storepb.Label * list storepb.AggrChunk) :=
  match l with
  | [] => []
  | x :: l' =>
    gather_from CompareLabels (storeSeriesSet.Labels x) (storeSeriesSet.Chunks x) l'
  end.

(** The series that [promSeriesSet.Next] makes of a gathered series. *)
Definition finished
  (sort_Slice : (storepb.AggrChunk -> storepb.AggrChunk -> bool) ->
                list storepb.AggrChunk -> list storepb.AggrChunk)
  (String : storepb.AggrChunk -> string) (mint maxt : Z) (aggrs : list storepb.Aggr)
  (g : list storepb.Label * list storepb.AggrChunk) : chunkSeries.t :=
  newChunkSeries (fst g) (removeExactDuplicates String (sort_Slice less_MinTime (snd g)))
    mint maxt aggrs.

(** The samples of [l] up to the first one at or after [maxt], with it. *)
Fixpoint through (maxt : Z) (l : list sample) : list sample :=
  match l with
  | [] => []
  | s :: l' => s :: (if fst s <? maxt then through maxt l' else [])
  end.

(** * Further implementations to run on

    Simple stand-ins for what [promSeriesSet.Next] takes from other
    packages: a comparison of label sets that only tells equal from
    different, a merge sort, the start time as the rendering of a chunk,
    and a store series set that reports an error. *)

Definition plainCompare (a b : list storepb.Label) : Z :=
  if bool_decide (a = b) then 0 else 1.

Definition mergeSlice (less : storepb.AggrChunk -> storepb.AggrChunk -> bool)
  (l : list storepb.AggrChunk) : list storepb.AggrChunk :=
  merge_sort (fun a b => Is_true (negb (less b a))) l.

Definition startString (c : storepb.AggrChunk) : string := pretty (storepb.MinTime c).

Definition brokenStoreSet : SeriesSet storeSeriesSet.t := {|
  SeriesSet_Next := storeSeriesSet.Next;
  SeriesSet_At := storeSeriesSet.At;
  SeriesSet_Err := fun _ => Some "stream broken"%string
|}.

(** Raw chunks by their start, and four partial series: two of one series,
    one of the same series from another replica, and one of another
    series. *)
Definition rawChunk (start : Z) : storepb.AggrChunk :=
  storepb.mkAggrChunk start (start + 4)
    (Some (storepb.mkChunk storepb.Chunk_XOR [Byte.x01])) None None None None None.

Definition downLabels : list storepb.Label :=
  [storepb.mkLabel "__name__" "down"; storepb.mkLabel "replica" "a"].

Definition upLabelsB : list storepb.Label :=
  [storepb.mkLabel "__name__" "up"; storepb.mkLabel "replica" "b"].

Definition partialSeries : list storeSeriesSet.Series :=
  [storeSeriesSet.mkSeries upLabels [rawChunk 10];
   storeSeriesSet.mkSeries upLabels [rawChunk 5; rawChunk 10];
   storeSeriesSet.mkSeries upLabelsB [rawChunk 7];
   storeSeriesSet.mkSeries downLabels [rawChunk 7]].

(** The sets over them, not read yet. *)
Definition partialSet : promSeriesSet.t storeSeriesSet.t :=
  promSeriesSet.mk (newStoreSeriesSet partialSeries) false 0 100 [storepb.Aggr_COUNT]
    false [] [].

(** * A chunk whose payload does not decode *)






(** * Properties *)

(** ** Machine integers *)

Lemma wrap64_range (z : Z) : int64_range z -> wrap64 z = z.
Proof.
  unfold int64_range, MinInt64, MaxInt64, wrap64. intros Hz.
  rewrite Z.mod_small; lia.
Qed.

Lemma wrap64_in_range (z : Z) : int64_range (wrap64 z).
Proof.
  unfold int64_range, MinInt64, MaxInt64, wrap64.
  pose proof (Z.mod_pos_bound (z + 2 ^ 63) (2 ^ 64)). lia.
Qed.

Lemma wrap64_congr (y z : Z) (k : Z) : y = z + k * 2 ^ 64 -> wrap64 y = wrap64 z.
Proof.
  intros ->. unfold wrap64.
  replace (z + k * 2 ^ 64 + 2 ^ 63) with (z + 2 ^ 63 + k * 2 ^ 64) by lia.
  now rewrite Z.mod_add by lia.
Qed.

Lemma wrap64_spec (z : Z) : exists k, wrap64 z = z + k * 2 ^ 64.
Proof.
  exists (- ((z + 2 ^ 63) / 2 ^ 64)). unfold wrap64.
  rewrite Z.mod_eq by lia. lia.
Qed.

Lemma mul64_sub64 (x y : Z) : mul64 2 (sub64 x y) = wrap64 (2 * (x - y)).
Proof.
  unfold mul64, sub64. destruct (wrap64_spec (x - y)) as [k Hk].
  apply wrap64_congr with (k := 2 * k). lia.
Qed.

(** ** The cursors on small inputs *)

(** The scenario of the specification: samples at 100 and 200, window
    [[150, 250]]. *)
Example window_cuts_first_sample :
  samples 20 (seriesCursor 150 250 [[(100, 5); (200, 7)]]) = Ok [(200, 7)].
Proof. vm_compute. reflexivity. Qed.

(** Two chunks that overlap: the sample of the second chunk that is not
    after the last sample of the first is skipped. *)
Example overlap_is_skipped :
  samples 20 (ofChunks [[(10, 1); (20, 2)]; [(15, 3); (30, 4)]])
  = Ok [(10, 1); (20, 2); (30, 4)].
Proof. vm_compute. reflexivity. Qed.

(** Two replicas that are scraped five seconds apart: the first one leads
    and the samples of the second fall under the penalty. *)
Example replicas_five_seconds_apart :
  samples 40
    (newDedupSeriesIterator
       (seriesCursor 1 1000000 [[(10000, 1); (20000, 2); (30000, 3)]])
       (seriesCursor 1 1000000 [[(15000, 11); (25000, 12); (35000, 13)]]))
  = Ok [(10000, 1); (20000, 2); (30000, 3)].
Proof. vm_compute. reflexivity. Qed.

(** ** removeExactDuplicates *)

Section removeExactDuplicates_facts.
Context (String : storepb.AggrChunk -> string).

Lemma removeExactDuplicates_loop_kept last ret chks :
  removeExactDuplicates_loop String (last :: ret) chks
  = rev ret ++ last :: kept String last chks.
Proof.
  revert last ret. induction chks as [|c chks IH]; intros last ret; simpl.
  - reflexivity.
  - case_bool_decide.
    + apply IH.
    + rewrite IH. simpl. now rewrite <- app_assoc.
Qed.

Lemma removeExactDuplicates_cons c chks :
  removeExactDuplicates String (c :: chks) = c :: kept String c chks.
Proof.
  unfold removeExactDuplicates. case_bool_decide as Hlen.
  - destruct chks; [reflexivity | simpl in Hlen; lia].
  - apply (removeExactDuplicates_loop_kept c []).
Qed.

Lemma kept_kept last chks : kept String last (kept String last chks) = kept String last chks.
Proof.
  revert last. induction chks as [|c chks IH]; intros last; simpl.
  - reflexivity.
  - case_bool_decide as Heq.
    + apply IH.
    + simpl. rewrite bool_decide_false by exact Heq. now rewrite IH.
Qed.

(** C10. Removing exact duplicates twice gives what removing them once
    gives, for every chunk list (sorted by minTime or not) and whatever the
    text rendering that compares the chunks. *)
Theorem removeExactDuplicates_idempotent (chks : list storepb.AggrChunk) :
  removeExactDuplicates String (removeExactDuplicates String chks)
  = removeExactDuplicates String chks.
Proof.
  destruct chks as [|c chks]; [reflexivity|].
  rewrite !removeExactDuplicates_cons. now rewrite kept_kept.
Qed.

(** No two neighbours of the result have the same rendering. *)
Lemma kept_no_neighbours last chks :
  forall j x y, (last :: kept String last chks) !! j = Some x ->
    (last :: kept String last chks) !! S j = Some y -> String x <> String y.
Proof.
  revert last. induction chks as [|c chks IH]; intros last j x y; simpl.
  - destruct j; simpl; intros; discriminate.
  - case_bool_decide as Heq.
    + apply IH.
    + destruct j as [|j]; simpl.
      * intros [= <-] [= <-]. exact Heq.
      * apply IH.
Qed.
End removeExactDuplicates_facts.

(** ** newChunkSeriesIterator *)

(** C4. For an empty list of chunk cursors the constructor answers with an
    [errSeriesIterator] whose error is nil: [Next] and [Seek] end the
    iteration, but [Err] reports no error, before and after them. *)
Theorem newChunkSeriesIterator_empty_nil_error (C : Type) `{chunkenc.Iterator C}
  (fuel : nat) (t0 : Z) :
  let it := newChunkSeriesIterator (@nil C) in
  it = inl (errSeriesIterator.mk None)
  /\ storage.Err it = Ok None
  /\ storage.Next fuel it = Ok (false, it)
  /\ storage.Seek fuel t0 it = Ok (false, it)
  /\ storage.At it = Ok (0, 0).
Proof. repeat split. Qed.

(** ** dedupSeriesIterator.Next *)

Section dedup_Next.
Context {A B : Type} `{storage.SeriesIterator A} `{storage.SeriesIterator B}.

(** C1. One advance of the pairwise cursor.  Each side that is still live
    is first sought to [lastT + 1 + penalty] of that side (in 64-bit
    arithmetic); [a1], [b1] are the sides after that and [aok1], [bok1]
    tell whether they are live.  Then:
    - both live: the side with the smaller timestamp is selected, side A on
      a tie; the penalty of the other side becomes [2 * (t - lastT)] (in
      64-bit arithmetic), or 5000 when [lastT] still has its initial value
      [MinInt64], which is how the cursor records that nothing was emitted;
      the penalty of the selected side becomes 0; the sample of the selected
      side is the current sample and [lastT] its timestamp;
    - one side live: it is selected, its penalty becomes 0, its sample is
      the current sample and [lastT] its timestamp;
    - no side live: the advance fails. *)
Theorem dedup_Next_selects (fuel : nat) (it : dedupSeriesIterator.t A B)
  (aok1 bok1 : bool) (a1 : A) (b1 : B) :
  (if dedupSeriesIterator.aok it
   then storage.Seek fuel
          (add64 (add64 (dedupSeriesIterator.lastT it) 1) (dedupSeriesIterator.penA it))
          (dedupSeriesIterator.a it)
   else Ok (false, dedupSeriesIterator.a it)) = Ok (aok1, a1) ->
  (if dedupSeriesIterator.bok it
   then storage.Seek fuel
          (add64 (add64 (dedupSeriesIterator.lastT it) 1) (dedupSeriesIterator.penB it))
          (dedupSeriesIterator.b it)
   else Ok (false, dedupSeriesIterator.b it)) = Ok (bok1, b1) ->
  let lastT := dedupSeriesIterator.lastT it in
  (* both sides live *)
  (aok1 = true -> bok1 = true ->
   forall ta va tb vb, storage.At a1 = Ok (ta, va) -> storage.At b1 = Ok (tb, vb) ->
   exists it', dedupSeriesIterator.Next fuel it = Ok (true, it')
     /\ dedupSeriesIterator.a it' = a1 /\ dedupSeriesIterator.b it' = b1
     /\ dedupSeriesIterator.aok it' = true /\ dedupSeriesIterator.bok it' = true
     /\ (ta <= tb ->
         dedupSeriesIterator.useA it' = true
         /\ dedupSeriesIterator.At it' = Ok (ta, va)
         /\ dedupSeriesIterator.lastT it' = ta
         /\ dedupSeriesIterator.penA it' = 0
         /\ dedupSeriesIterator.penB it' = penalty_after lastT ta)
     /\ (tb < ta ->
         dedupSeriesIterator.useA it' = false
         /\ dedupSeriesIterator.At it' = Ok (tb, vb)
         /\ dedupSeriesIterator.lastT it' = tb
         /\ dedupSeriesIterator.penB it' = 0
         /\ dedupSeriesIterator.penA it' = penalty_after lastT tb))
  (* only side A live *)
  /\ (aok1 = true -> bok1 = false ->
      forall ta va, storage.At a1 = Ok (ta, va) ->
      exists it', dedupSeriesIterator.Next fuel it = Ok (true, it')
        /\ dedupSeriesIterator.a it' = a1 /\ dedupSeriesIterator.b it' = b1
        /\ dedupSeriesIterator.aok it' = true /\ dedupSeriesIterator.bok it' = false
        /\ dedupSeriesIterator.useA it' = true
        /\ dedupSeriesIterator.At it' = Ok (ta, va)
        /\ dedupSeriesIterator.lastT it' = ta
        /\ dedupSeriesIterator.penA it' = 0
        /\ dedupSeriesIterator.penB it' = dedupSeriesIterator.penB it)
  (* only side B live *)
  /\ (aok1 = false -> bok1 = true ->
      forall tb vb, storage.At b1 = Ok (tb, vb) ->
      exists it', dedupSeriesIterator.Next fuel it = Ok (true, it')
        /\ dedupSeriesIterator.a it' = a1 /\ dedupSeriesIterator.b it' = b1
        /\ dedupSeriesIterator.aok it' = false /\ dedupSeriesIterator.bok it' = true
        /\ dedupSeriesIterator.useA it' = false
        /\ dedupSeriesIterator.At it' = Ok (tb, vb)
        /\ dedupSeriesIterator.lastT it' = tb
        /\ dedupSeriesIterator.penB it' = 0
        /\ dedupSeriesIterator.penA it' = dedupSeriesIterator.penA it)
  (* no side live *)
  /\ (aok1 = false -> bok1 = false ->
      exists it', dedupSeriesIterator.Next fuel it = Ok (false, it')
        /\ dedupSeriesIterator.a it' = a1 /\ dedupSeriesIterator.b it' = b1
        /\ dedupSeriesIterator.aok it' = false /\ dedupSeriesIterator.bok it' = false
        /\ dedupSeriesIterator.lastT it' = lastT).
Proof.
  intros HA HB lastT. unfold dedupSeriesIterator.Next.
  rewrite HA, HB. cbn [mbind res_bind].
  split; [|split; [|split]].
  - intros -> -> ta va tb vb Ha Hb. rewrite Ha, Hb. cbn.
    destruct (Z.leb_spec ta tb) as [Hle|Hlt].
    + eexists; split; [reflexivity|]. unfold dedupSeriesIterator.At; cbn.
      do 4 (split; [reflexivity|]). split; [|lia].
      intros _. do 4 (split; [first [reflexivity|assumption]|]).
      unfold penalty_after, dedupSeriesIterator.initialPenality. fold lastT.
      rewrite mul64_sub64.
      repeat case_bool_decide; first [reflexivity | contradiction].
    + eexists; split; [reflexivity|]. unfold dedupSeriesIterator.At; cbn.
      do 4 (split; [reflexivity|]). split; [lia|].
      intros _. do 4 (split; [first [reflexivity|assumption]|]).
      unfold penalty_after, dedupSeriesIterator.initialPenality. fold lastT.
      rewrite mul64_sub64.
      repeat case_bool_decide; first [reflexivity | contradiction].
  - intros -> -> ta va Ha. rewrite Ha. cbn.
    eexists; split; [reflexivity|]. unfold dedupSeriesIterator.At; cbn.
    repeat split; assumption.
  - intros -> -> tb vb Hb. rewrite Hb. cbn.
    eexists; split; [reflexivity|]. unfold dedupSeriesIterator.At; cbn.
    repeat split; assumption.
  - intros -> ->. cbn. eexists; split; [reflexivity|]. repeat split.
Qed.
End dedup_Next.

(** ** boundedSeriesIterator *)

Section bounded.
Context {S : Type} `{storage.SeriesIterator S}.

Lemma bounded_Seek_above_maxt (fuel : nat) (t0 : Z) (b : boundedSeriesIterator.t S) :
  boundedSeriesIterator.maxt b < t0 ->
  boundedSeriesIterator.Seek fuel t0 b = Ok (false, b).
Proof.
  intros Hgt. unfold boundedSeriesIterator.Seek.
  destruct (Z.gtb_spec t0 (boundedSeriesIterator.maxt b)); [reflexivity | lia].
Qed.

Lemma bounded_Seek_below_mint (fuel : nat) (t0 : Z) (b : boundedSeriesIterator.t S) :
  t0 <= boundedSeriesIterator.maxt b ->
  t0 < boundedSeriesIterator.mint b ->
  boundedSeriesIterator.Seek fuel t0 b
  = '(ok, w) ← storage.Seek fuel (boundedSeriesIterator.mint b) (boundedSeriesIterator.it b);
    Ok (ok, boundedSeriesIterator.mk w (boundedSeriesIterator.mint b)
              (boundedSeriesIterator.maxt b)).
Proof.
  intros Hle Hlt. unfold boundedSeriesIterator.Seek.
  destruct (Z.gtb_spec t0 (boundedSeriesIterator.maxt b)); [lia|].
  destruct (Z.ltb_spec t0 (boundedSeriesIterator.mint b)); [reflexivity | lia].
Qed.

Lemma bounded_Seek_reaches : seek_reaches S -> seek_reaches (boundedSeriesIterator.t S).
Proof.
  intros HS fuel t0 b b'. cbn. unfold boundedSeriesIterator.Seek.
  destruct (t0 >? boundedSeriesIterator.maxt b); [discriminate|].
  destruct (storage.Seek fuel _ (boundedSeriesIterator.it b)) as [[ok w]| |] eqn:Hw;
    cbn; try discriminate.
  intros [= -> <-]. apply HS in Hw as (ts & v & Hat & Hts).
  exists ts, v. split; [exact Hat|].
  destruct (Z.ltb_spec t0 (boundedSeriesIterator.mint b)); lia.
Qed.

(** A successful [Seek] is at or after [mint] too. *)
Lemma bounded_Seek_from_mint (fuel : nat) (t0 : Z) (b b' : boundedSeriesIterator.t S) :
  seek_reaches S ->
  boundedSeriesIterator.Seek fuel t0 b = Ok (true, b') ->
  exists ts v, boundedSeriesIterator.At b' = Ok (ts, v)
    /\ boundedSeriesIterator.mint b <= ts /\ t0 <= ts
    /\ boundedSeriesIterator.mint b' = boundedSeriesIterator.mint b
    /\ boundedSeriesIterator.maxt b' = boundedSeriesIterator.maxt b.
Proof.
  intros HS. unfold boundedSeriesIterator.Seek.
  destruct (t0 >? boundedSeriesIterator.maxt b); [discriminate|].
  destruct (storage.Seek fuel _ (boundedSeriesIterator.it b)) as [[ok w]| |] eqn:Hw;
    cbn; try discriminate.
  intros [= -> <-]. apply HS in Hw as (ts & v & Hat & Hts).
  exists ts, v. split; [exact Hat|]. cbn.
  destruct (Z.ltb_spec t0 (boundedSeriesIterator.mint b)); repeat split; lia.
Qed.

(** X6. Over any cursor that keeps the contract of a seek, a successful
    [Next] of the bounded cursor leaves it on a sample of [[mint, maxt]]. *)
Lemma bounded_Next_within (fuel : nat) (b b' : boundedSeriesIterator.t S) :
  seek_reaches S ->
  boundedSeriesIterator.Next fuel b = Ok (true, b') ->
  exists ts v, boundedSeriesIterator.At b' = Ok (ts, v)
    /\ boundedSeriesIterator.mint b <= ts <= boundedSeriesIterator.maxt b.
Proof.
  intros HS. unfold boundedSeriesIterator.Next.
  destruct (storage.Next fuel (boundedSeriesIterator.it b)) as [[ok w]| |];
    cbn; try discriminate.
  destruct ok; cbn; [|discriminate].
  destruct (storage.At w) as [[t0 v0]| |] eqn:Hat; cbn; try discriminate.
  destruct (Z.ltb_spec t0 (boundedSeriesIterator.mint b)) as [Hlt|Hge].
  - destruct (boundedSeriesIterator.Seek fuel _ _) as [[ok2 b2]| |] eqn:Hseek;
      cbn; try discriminate.
    destruct ok2; cbn; [|discriminate].
    apply bounded_Seek_from_mint in Hseek as (ts & v & Hat2 & Hmin & _ & _ & Hmax);
      [|exact HS].
    unfold boundedSeriesIterator.At in Hat2. rewrite Hat2. cbn.
    intros [= Hle <-]. exists ts, v. cbn in *. split; [exact Hat2|].
    apply Z.leb_le in Hle. lia.
  - intros [= Hle <-]. exists t0, v0. split; [exact Hat|].
    apply Z.leb_le in Hle. cbn in Hle. lia.
Qed.
End bounded.

(** C3. [Seek] does not look at [maxt] once the target has passed its test:
    over the samples (100, 5), (300, 7) and with the bounds [[150, 250]],
    [Seek 200] succeeds and leaves the cursor on the sample at 300. *)
Theorem bounded_Seek_beyond_maxt :
  let b := newBoundedSeriesIterator (ofChunks [[(100, 5); (300, 7)]]) 150 250 in
  exists b', storage.Seek 10 200 b = Ok (true, b')
    /\ storage.At b' = Ok (300, 7)
    /\ boundedSeriesIterator.maxt b' = 250.
Proof. eexists. repeat split. Qed.

(** ** chunkSeriesIterator *)

(** *** Chunks with timestamps between zero and the largest timestamp

    Over chunks whose timestamps are above 0 and below [MaxInt64], each
    chunk in increasing order, the cursor emits strictly increasing
    timestamps, whatever the overlaps of the chunks are. *)

Lemma xorIterator_Next_true (c c' : xorIterator.t) :
  xorIterator.Next c = (true, c') ->
  exists s r, xorIterator.rest c = s :: r
    /\ c' = xorIterator.mk s r (xorIterator.broken c) None.
Proof.
  unfold xorIterator.Next. destruct (xorIterator.err c); [discriminate|].
  destruct (xorIterator.rest c) as [|s r].
  - destruct (xorIterator.broken c); discriminate.
  - intros [= <-]. eauto.
Qed.

Lemma xorIterator_Next_false (c c' : xorIterator.t) :
  xorIterator.Next c = (false, c') ->
  xorIterator.cur c' = xorIterator.cur c
  /\ xorIterator.rest c' = xorIterator.rest c
  /\ (xorIterator.err c' = None -> xorIterator.rest c = []).
Proof.
  unfold xorIterator.Next. destruct (xorIterator.err c) eqn:He.
  - intros [= <-]. split; [reflexivity|]. split; [reflexivity|].
    rewrite He. discriminate.
  - destruct (xorIterator.rest c) as [|s r] eqn:Hr; [|discriminate].
    destruct (xorIterator.broken c); intros [= <-]; cbn.
    + split; [reflexivity|]. split; [reflexivity|]. discriminate.
    + split; [reflexivity|]. split; [assumption|]. reflexivity.
Qed.

Lemma ordered_chunks_intro before c after :
  ordered_cursor c -> Forall fresh_cursor after ->
  ordered_chunks (chunkSeriesIterator.mk (before ++ c :: after) (length before)).
Proof. intros Hc Hafter. exists before, c, after. auto. Qed.

Lemma ordered_chunks_remaining before c after :
  remaining (chunkSeriesIterator.mk (before ++ c :: after) (length before))
  = (S (S (length (xorIterator.rest c))) + work after)%nat.
Proof. unfold remaining. cbn. now rewrite drop_app_length. Qed.

Lemma ordered_chunks_current before c after :
  current (chunkSeriesIterator.mk (before ++ c :: after) (length before))
  = fst (xorIterator.cur c).
Proof. unfold current. cbn. now rewrite list_lookup_middle. Qed.

Lemma add64_succ (z : Z) : 0 <= z < MaxInt64 -> add64 z 1 = z + 1.
Proof.
  intros Hz. unfold add64. apply wrap64_range.
  unfold int64_range, MinInt64, MaxInt64 in *. lia.
Qed.

Lemma chunkSeriesIterator_Next_S {C : Type} `{chunkenc.Iterator C}
  (n : nat) (it : chunkSeriesIterator.t C) :
  chunkSeriesIterator.Next (S n) it
  = '(lastT, _) ← chunkSeriesIterator.At it;
    match chunkSeriesIterator.chunks it !! chunkSeriesIterator.i it with
    | None => Panic
    | Some c =>
      let '(ok, c') := chunkenc.Next c in
      let it1 := chunkSeriesIterator.mk
                   (<[chunkSeriesIterator.i it := c']> (chunkSeriesIterator.chunks it))
                   (chunkSeriesIterator.i it) in
      if ok then Ok (true, it1)
      else
        e ← chunkSeriesIterator.Err it1;
        if bool_decide (e ≠ None) then Ok (false, it1)
        else if Z.of_nat (chunkSeriesIterator.i it1)
                >=? Z.of_nat (length (chunkSeriesIterator.chunks it1)) - 1
        then Ok (false, it1)
        else chunkSeriesIterator.Seek n (add64 lastT 1)
               (chunkSeriesIterator.mk (chunkSeriesIterator.chunks it1)
                  (S (chunkSeriesIterator.i it1)))
    end.
Proof. reflexivity. Qed.

Lemma chunkSeriesIterator_Seek_S {C : Type} `{chunkenc.Iterator C}
  (n : nat) (t0 : Z) (it : chunkSeriesIterator.t C) :
  chunkSeriesIterator.Seek (S n) t0 it
  = '(ct, _) ← chunkSeriesIterator.At it;
    if ct >=? t0 then Ok (true, it)
    else
      '(ok, it') ← chunkSeriesIterator.Next n it;
      if negb ok then Ok (false, it') else chunkSeriesIterator.Seek n t0 it'.
Proof. reflexivity. Qed.

(** [Next] and [Seek] return within [remaining] calls, keep the chunks
    ordered, and move forward in time. *)
Lemma chunkSeriesIterator_steps (fuel : nat) :
  (forall it, ordered_chunks it -> (remaining it <= S fuel)%nat ->
     exists ok it', chunkSeriesIterator.Next fuel it = Ok (ok, it')
       /\ ordered_chunks it'
       /\ (remaining it' <= remaining it)%nat
       /\ (ok = true -> current it < current it' /\ (remaining it' < remaining it)%nat))
  /\ (forall t0 it, ordered_chunks it -> (remaining it <= fuel)%nat ->
       exists ok it', chunkSeriesIterator.Seek fuel t0 it = Ok (ok, it')
         /\ ordered_chunks it'
         /\ (remaining it' <= remaining it)%nat
         /\ (ok = true -> t0 <= current it')).
Proof.
  induction fuel as [|n [IHnext IHseek]].
  - split.
    + intros it (before & c & after & Hc & Hi & _) Hrem. exfalso.
      destruct it as [chunks i]; cbn in Hc, Hi; subst.
      rewrite ordered_chunks_remaining in Hrem. lia.
    + intros t0 it (before & c & after & Hc & Hi & _) Hrem. exfalso.
      destruct it as [chunks i]; cbn in Hc, Hi; subst.
      rewrite ordered_chunks_remaining in Hrem. lia.
  - split.
    + intros it (before & c & after & Hc & Hi & Hord & Hfresh) Hrem.
      destruct it as [chunks i]; cbn in Hc, Hi; subst.
      rewrite ordered_chunks_remaining in Hrem |- *.
      rewrite ordered_chunks_current.
      rewrite chunkSeriesIterator_Next_S. unfold chunkSeriesIterator.At.
      cbn [chunkSeriesIterator.chunks chunkSeriesIterator.i].
      rewrite list_lookup_middle by reflexivity. cbn [mbind res_bind].
      destruct (chunkenc.At c) as [lastT v] eqn:Hat.
      assert (HlastT : lastT = fst (xorIterator.cur c)).
      { cbn in Hat. unfold xorIterator.At in Hat. now rewrite Hat. }
      destruct (chunkenc.Next c) as [ok c'] eqn:Hnext. cbn zeta.
      cbn [chunkSeriesIterator.chunks chunkSeriesIterator.i].
      assert (Hins : <[length before:=c']> (before ++ c :: after) = before ++ c' :: after).
      { rewrite insert_app_r_alt by lia. now rewrite Nat.sub_diag. }
      rewrite !Hins. clear Hins.
      destruct ok.
      * apply xorIterator_Next_true in Hnext as (s & r & Hrest & ->).
        destruct Hord as [Hcur Hinc]. rewrite Hrest in Hinc, Hrem |- *.
        destruct Hinc as (Hlo & Hhi & Hinc).
        eexists _, _. split; [reflexivity|].
        rewrite ordered_chunks_remaining, ordered_chunks_current. cbn.
        split; [|repeat split; lia].
        apply ordered_chunks_intro; [|assumption].
        split; cbn; [lia|assumption].
      * apply xorIterator_Next_false in Hnext as (Hcur' & Hrest' & Hdone).
        assert (Hord' : ordered_cursor c').
        { unfold ordered_cursor. now rewrite Hcur', Hrest'. }
        unfold chunkSeriesIterator.Err.
        cbn [chunkSeriesIterator.chunks chunkSeriesIterator.i].
        rewrite list_lookup_middle by reflexivity. cbn [mbind res_bind].
        assert (Hstop : exists it', it' = chunkSeriesIterator.mk (before ++ c' :: after)
                                           (length before)
                  /\ ordered_chunks it'
                  /\ (remaining it' <= S (S (length (xorIterator.rest c))) + work after)%nat).
        { eexists; split; [reflexivity|]. split.
          - now apply ordered_chunks_intro.
          - rewrite ordered_chunks_remaining, Hrest'. lia. }
        destruct Hstop as (it1 & Hit1 & Hord1 & Hrem1).
        case_bool_decide as Herr.
        { exists false, it1. subst it1.
          split; [reflexivity|]. split; [assumption|]. split; [assumption|]. intros [=]. }
        rewrite length_app. cbn [length].
        destruct (Z.geb_spec (Z.of_nat (length before))
                    (Z.of_nat (length before + S (length after)) - 1)) as [Hlast|Hmore].
        { exists false, it1. subst it1.
          split; [reflexivity|]. split; [assumption|]. split; [assumption|]. intros [=]. }
        destruct after as [|c2 after]; [cbn in Hmore; lia|].
        assert (Hdone' : xorIterator.rest c = []).
        { apply Hdone. cbn in Herr. unfold xorIterator.Err in Herr.
          destruct (xorIterator.err c'); [discriminate Herr|reflexivity]. }
        apply Forall_cons in Hfresh as [Hfresh2 Hfresh'].
        set (it2 := chunkSeriesIterator.mk (before ++ c' :: c2 :: after)
                      (S (length before))).
        assert (Hit2 : it2 = chunkSeriesIterator.mk ((before ++ [c']) ++ c2 :: after)
                               (length (before ++ [c']))).
        { unfold it2. rewrite <- app_assoc, length_app. cbn. f_equal. lia. }
        assert (Hord2 : ordered_chunks it2).
        { rewrite Hit2. apply ordered_chunks_intro; [|assumption].
          destruct Hfresh2 as [Hzero Hinc]. split; rewrite Hzero; [|exact Hinc].
          unfold MaxInt64. lia. }
        assert (Hrem2 : remaining it2 = (S (S (length (xorIterator.rest c2))) + work after)%nat).
        { rewrite Hit2. apply ordered_chunks_remaining. }
        destruct (IHseek (add64 lastT 1) it2 Hord2) as (ok & it' & Hseek & Hordn & Hrem' & Hok).
        { rewrite Hrem2. rewrite Hdone' in Hrem. cbn in Hrem |- *. lia. }
        exists ok, it'. split; [exact Hseek|]. split; [exact Hordn|].
        rewrite Hdone'. cbn [work length] in *. split; [lia|].
        intros ->. specialize (Hok eq_refl).
        rewrite add64_succ in Hok by (rewrite HlastT; apply Hord). split; lia.
    + intros t0 it Hord Hrem.
      rewrite chunkSeriesIterator_Seek_S.
      pose proof Hord as (before & c & after & Hc & Hi & Hordc & Hfresh).
      unfold chunkSeriesIterator.At. rewrite Hc, Hi.
      rewrite list_lookup_middle by reflexivity. cbn [mbind res_bind].
      destruct (chunkenc.At c) as [ct v] eqn:Hat.
      assert (Hct : ct = current it).
      { unfold current. rewrite Hc, Hi, list_lookup_middle by reflexivity.
        cbn in Hat. unfold xorIterator.At in Hat. now rewrite Hat. }
      destruct (Z.geb_spec ct t0) as [Hge|Hlt].
      * exists true, it.
        split; [reflexivity|]. split; [assumption|]. split; [lia|]. intros _. lia.
      * destruct (IHnext it Hord Hrem) as (ok1 & it1 & Hnext & Hord1 & Hrem1 & Hok1).
        rewrite Hnext. cbn [mbind res_bind].
        destruct ok1; cbn [negb].
        -- destruct (Hok1 eq_refl) as [_ Hless].
           destruct (IHseek t0 it1 Hord1) as (ok & it' & Hseek & Hord' & Hrem' & Hok);
             [lia|].
           exists ok, it'.
           split; [assumption|]. split; [assumption|]. split; [lia|assumption].
        -- exists false, it1.
           split; [reflexivity|]. split; [assumption|]. split; [assumption|]. intros [=].
Qed.

Lemma samples_loop_increasing (n fuel : nat) (it : chunkSeriesIterator.t xorIterator.t) :
  ordered_chunks it ->
  (remaining it <= S fuel)%nat ->
  (remaining it < n)%nat ->
  exists l, samples_loop n fuel it = Ok l /\ increasing_from (current it) l.
Proof.
  revert it. induction n as [|n IH]; intros it Hord Hfuel Hn; [lia|].
  cbn [samples_loop].
  destruct (proj1 (chunkSeriesIterator_steps fuel) it Hord Hfuel)
    as (ok & it' & Hnext & Hord' & Hrem' & Hok).
  change (storage.Next fuel it) with (chunkSeriesIterator.Next fuel it).
  rewrite Hnext. cbn [mbind res_bind]. destruct ok; cbn [negb].
  - destruct (Hok eq_refl) as [Hlt Hless].
    destruct (IH it' Hord') as (l & Hl & Hinc); [lia..|].
    rewrite Hl.
    pose proof Hord' as (before & c & after & Hc & Hi & Hordc & _).
    change (storage.At it') with (chunkSeriesIterator.At it').
    unfold chunkSeriesIterator.At. rewrite Hc, Hi, list_lookup_middle by reflexivity.
    cbn [mbind res_bind].
    assert (Hcur : current it' = fst (chunkenc.At c)).
    { unfold current. now rewrite Hc, Hi, list_lookup_middle by reflexivity. }
    eexists. split; [reflexivity|]. cbn [increasing_from].
    rewrite <- Hcur. repeat split; try assumption.
    rewrite Hcur. apply Hordc.
  - exists []. split; [reflexivity|exact I].
Qed.

(** X4. Over at least one chunk, every chunk with increasing timestamps
    between 0 and [MaxInt64], enough fuel gives the samples, and their
    timestamps increase strictly, whether the chunks overlap or not. *)
Lemma chunkSeriesIterator_increasing (cs : list (list sample)) (fuel : nat) :
  cs <> [] ->
  Forall (increasing_from 0) cs ->
  (work (map xorIterator.of_samples cs) < fuel)%nat ->
  exists l, samples fuel (ofChunks cs) = Ok l /\ increasing_from 0 l.
Proof.
  intros Hne Hall Hfuel. destruct cs as [|c0 cs]; [contradiction|].
  inversion Hall as [|? ? Hc0 Hcs]; subst.
  assert (Hord : ordered_chunks (ofChunks (c0 :: cs))).
  { apply (ordered_chunks_intro [] (xorIterator.of_samples c0)
             (map xorIterator.of_samples cs)).
    - split; cbn; [unfold MaxInt64; lia | exact Hc0].
    - apply Forall_fmap. eapply Forall_impl; [exact Hcs|].
      intros c Hc. split; [reflexivity|exact Hc]. }
  assert (Hrem : remaining (ofChunks (c0 :: cs))
                 = work (map xorIterator.of_samples (c0 :: cs))) by reflexivity.
  destruct (samples_loop_increasing fuel fuel (ofChunks (c0 :: cs)) Hord)
    as (l & Hl & Hinc); [lia..|].
  exists l. split; [exact Hl|exact Hinc].
Qed.

(** C2. Two runs in which the timestamps do not increase, over chunks that
    are sorted by their start, differ from each other and are increasing
    each.
    - Negative timestamps: when the first chunk ends at -20, the target of
      the seek into the second chunk is -19; the second cursor has not read
      anything yet, its current sample is the zero sample, and 0 >= -19 ends
      the seek at once.  The zero sample is emitted and after it the samples
      of the second chunk, also those of the overlap.
    - The largest timestamp: [lastT + 1] wraps around to [MinInt64], which
      ends the seek at once as well. *)
Theorem chunkSeriesIterator_not_increasing :
  samples 20 (ofChunks [[(-30, 1); (-20, 2)]; [(-25, 3); (-15, 4)]])
  = Ok [(-30, 1); (-20, 2); (0, 0); (-25, 3); (-15, 4)]
  /\ samples 20 (ofChunks [[(MaxInt64, 1)]; [(MaxInt64, 2)]])
     = Ok [(MaxInt64, 1); (0, 0); (MaxInt64, 2)].
Proof. split; vm_compute; reflexivity. Qed.

Lemma add64_MaxInt64 : add64 MaxInt64 1 = MinInt64.
Proof. vm_compute. reflexivity. Qed.

(** The second run does not depend on what an unread cursor gives as its
    current sample: whatever it is, it is emitted after the largest
    timestamp. *)
Lemma chunkSeriesIterator_wraps_at_MaxInt64 (s0 : sample) (n : nat) :
  MinInt64 <= fst s0 ->
  samples (4 + n)
    (chunkSeriesIterator.mk
       [xorIterator.of_samples [(MaxInt64, 1)];
        xorIterator.mk s0 [(MaxInt64, 2)] None None] 0)
  = Ok [(MaxInt64, 1); s0; (MaxInt64, 2)].
Proof.
  intros Hs0. destruct s0 as [t0 v0]. cbn in Hs0.
  unfold samples.
  change (4 + n)%nat with (S (S (S (S n)))).
  cbn [samples_loop].
  change (storage.Next (S (S (S (S n)))))
    with (@chunkSeriesIterator.Next xorIterator.t _ (S (S (S (S n))))).
  (* the sample of the first chunk *)
  rewrite chunkSeriesIterator_Next_S.
  cbn - [chunkSeriesIterator.Next chunkSeriesIterator.Seek add64 MaxInt64].
  (* the first chunk is used up: the seek into the second one *)
  rewrite chunkSeriesIterator_Next_S.
  cbn - [chunkSeriesIterator.Next chunkSeriesIterator.Seek add64 MaxInt64].
  rewrite chunkSeriesIterator_Seek_S.
  cbn - [chunkSeriesIterator.Next chunkSeriesIterator.Seek add64 MaxInt64 Z.geb].
  rewrite add64_MaxInt64.
  destruct (Z.geb_spec t0 MinInt64) as [_|Hlt]; [|lia].
  change (Z.of_nat 0 >=? Z.of_nat 2 - 1) with false.
  cbn - [chunkSeriesIterator.Next chunkSeriesIterator.Seek add64 MaxInt64].
  (* the sample of the second chunk *)
  rewrite chunkSeriesIterator_Next_S.
  cbn - [chunkSeriesIterator.Next chunkSeriesIterator.Seek add64 MaxInt64].
  (* the end *)
  rewrite chunkSeriesIterator_Next_S.
  cbn - [chunkSeriesIterator.Next chunkSeriesIterator.Seek add64 MaxInt64].
  reflexivity.
Qed.

(** ** dedupSeriesSet.peekLset *)

(** C6. With three replica label names and a label set of two labels, the
    loop reads [lset[-1]] in its third round. *)
Theorem peekLset_short_label_set_panics :
  dedupSeriesSet.peekLset
    (dedupSeriesSet.mk
       {["replica"%string; "rule_replica"%string; "receive_replica"%string]}
       [storepb.mkLabel "__name__" "up"; storepb.mkLabel "replica" "a"])
  = Panic.
Proof. vm_compute. reflexivity. Qed.

(** On a label set that is at least as long as the set of replica label
    names, [peekLset] strips the replica labels at the end. *)
Section peekLset_long.
Context (s : dedupSeriesSet.t).

Lemma index_reverse (lset : Labels) (k : nat) :
  (k < length lset)%nat ->
  dedupSeriesSet.index lset (Z.of_nat (length lset) - Z.of_nat k - 1)
  = match reverse lset !! k with Some l => Ok l | None => Panic end.
Proof.
  intros Hk. unfold dedupSeriesSet.index.
  destruct (Z.ltb_spec (Z.of_nat (length lset) - Z.of_nat k - 1) 0) as [|_]; [lia|].
  replace (Z.to_nat (Z.of_nat (length lset) - Z.of_nat k - 1))
    with (length lset - S k)%nat by lia.
  now rewrite reverse_lookup by lia.
Qed.

Lemma peekLset_loop_counts (lset : Labels) (n k : nat) (total : Z) :
  (k + n <= length lset)%nat ->
  dedupSeriesSet.peekLset_loop s lset n (Z.of_nat k) total
  = Ok (total + Z.of_nat (replica_count (dedupSeriesSet.replicaLabels s)
                            (take n (drop k (reverse lset))))).
Proof.
  revert k total. induction n as [|n IH]; intros k total Hlen; simpl.
  - unfold replica_count. simpl. f_equal. lia.
  - rewrite index_reverse by lia.
    destruct (reverse lset !! k) as [l|] eqn:Hl.
    2:{ apply lookup_ge_None in Hl. rewrite length_reverse in Hl. lia. }
    cbn. replace (Z.of_nat k + 1) with (Z.of_nat (S k)) by lia.
    rewrite IH by lia.
    rewrite (drop_S _ _ _ Hl), firstn_cons. unfold replica_count.
    rewrite filter_cons. f_equal.
    case_bool_decide; case_decide; try contradiction; simpl; lia.
Qed.

Lemma replica_count_all (suffix : Labels) :
  (forall l, l ∈ suffix -> storepb.Name l ∈ dedupSeriesSet.replicaLabels s) ->
  replica_count (dedupSeriesSet.replicaLabels s) suffix = length suffix.
Proof.
  intros Hall. unfold replica_count. induction suffix as [|l suffix IH]; [reflexivity|].
  rewrite filter_cons. rewrite decide_True by (apply Hall; left).
  simpl. f_equal. apply IH. intros l' Hl'. apply Hall. now right.
Qed.

Lemma replica_count_none (prefix : Labels) :
  (forall l, l ∈ prefix -> storepb.Name l ∉ dedupSeriesSet.replicaLabels s) ->
  replica_count (dedupSeriesSet.replicaLabels s) prefix = 0%nat.
Proof.
  intros Hnone. unfold replica_count. induction prefix as [|l prefix IH]; [reflexivity|].
  rewrite filter_cons. rewrite decide_False by (apply (Hnone l); left).
  apply IH. intros l' Hl'. apply Hnone. now right.
Qed.

Lemma replica_count_app (l1 l2 : Labels) :
  replica_count (dedupSeriesSet.replicaLabels s) (l1 ++ l2)
  = (replica_count (dedupSeriesSet.replicaLabels s) l1
     + replica_count (dedupSeriesSet.replicaLabels s) l2)%nat.
Proof. unfold replica_count. now rewrite filter_app, length_app. Qed.

(** Labels with distinct names, all of them replica label names, are not
    more than the replica label names. *)
Lemma replica_labels_bound (suffix : Labels) :
  NoDup (map storepb.Name suffix) ->
  (forall l, l ∈ suffix -> storepb.Name l ∈ dedupSeriesSet.replicaLabels s) ->
  (length suffix <= size (dedupSeriesSet.replicaLabels s))%nat.
Proof.
  intros Hnd Hall.
  rewrite <- (length_map storepb.Name suffix).
  rewrite <- (size_list_to_set (C := gset string) _ Hnd).
  apply subseteq_size. intros x Hx. apply elem_of_list_to_set in Hx.
  apply list_elem_of_fmap in Hx as (l & -> & Hl). now apply Hall.
Qed.

(** X13. When the label set ends with replica labels of different names,
    has no replica label before them, and is not shorter than the set of
    replica label names, [peekLset] gives the label set without these
    replica labels. *)
Lemma peekLset_strips_trailing_replicas (prefix suffix : Labels) :
  dedupSeriesSet.peek s = prefix ++ suffix ->
  (forall l, l ∈ prefix -> storepb.Name l ∉ dedupSeriesSet.replicaLabels s) ->
  (forall l, l ∈ suffix -> storepb.Name l ∈ dedupSeriesSet.replicaLabels s) ->
  NoDup (map storepb.Name suffix) ->
  (size (dedupSeriesSet.replicaLabels s) <= length (dedupSeriesSet.peek s))%nat ->
  dedupSeriesSet.peekLset s = Ok prefix.
Proof.
  intros Hpeek Hpre Hsuf Hnd Hlong.
  pose proof (replica_labels_bound suffix Hnd Hsuf) as Hbound.
  unfold dedupSeriesSet.peekLset. case_bool_decide as Hsize.
  - rewrite Hsize in Hbound. destruct suffix; [|simpl in Hbound; lia].
    rewrite Hpeek. now rewrite app_nil_r.
  - rewrite (peekLset_loop_counts _ _ 0%nat) by lia. cbn.
    rewrite drop_0, Hpeek, reverse_app.
    rewrite take_app_ge by (rewrite length_reverse; lia).
    rewrite replica_count_app, replica_count_all, replica_count_none.
    + rewrite length_reverse, length_app.
      destruct (Z.ltb_spec (Z.of_nat (length prefix + length suffix)
                            - (0 + Z.of_nat (length suffix + 0))) 0); [lia|].
      destruct (Z.gtb_spec (Z.of_nat (length prefix + length suffix)
                            - (0 + Z.of_nat (length suffix + 0)))
                  (Z.of_nat (length prefix + length suffix))); [lia|].
      cbn. f_equal.
      replace (Z.to_nat (Z.of_nat (length prefix + length suffix)
                         - (0 + Z.of_nat (length suffix + 0))))
        with (length prefix) by lia.
      now rewrite take_app_length.
    + intros l Hl. apply (Hpre l).
      apply elem_of_take in Hl as (j & Hj & _).
      apply elem_of_reverse, list_elem_of_lookup. eauto.
    + intros l Hl. apply Hsuf. apply elem_of_reverse. exact Hl.
Qed.
End peekLset_long.

(** ** chunkSeries.Iterator *)

Section chunkSeries_Iterator.
Context `{Downsample}.

Lemma getFirstIterator_matching sel raw (p : storepb.Chunk) :
  sel = Some p -> getFirstIterator [sel; raw] = payload_cursor p.
Proof. intros ->. reflexivity. Qed.

Lemma getFirstIterator_raw (r : storepb.Chunk) :
  getFirstIterator [None; Some r] = payload_cursor r.
Proof. reflexivity. Qed.

Lemma getFirstIterator_none :
  getFirstIterator [None; None]
  = inr (errSeriesIterator.mk (Some "no valid chunk found"%string)).
Proof. reflexivity. Qed.

(** C7. For a request of one kind among count, sum, min, max and counter,
    the series cursor is built over one cursor per chunk, in the order of
    the chunks: the cursor of the matching payload when the chunk has it,
    else the cursor of the raw payload when the chunk has that, else an
    error cursor.  (For count, sum, min and max the cursors go to a
    [chunkSeriesIterator]; for counter to the counter cursor of the
    downsampling package.) *)
Theorem Iterator_single_kind (s : chunkSeries.t) (aggr : storepb.Aggr) :
  aggr ∈ single_kinds ->
  chunkSeries.aggrs s = [aggr] ->
  exists its : list chunkSeries.chunkIterator,
    chunkSeries.Iterator s
    = inr (newBoundedSeriesIterator
             (if bool_decide (aggr = storepb.Aggr_COUNTER)
              then inr (NewCounterSeriesIterator its)
              else inl (newChunkSeriesIterator its))
             (chunkSeries.mint s) (chunkSeries.maxt s))
    /\ length its = length (chunkSeries.chunks s)
    /\ forall (j : nat) (c : storepb.AggrChunk),
         chunkSeries.chunks s !! j = Some c ->
         (forall p, matching aggr c = Some p -> its !! j = Some (inl (payload_cursor p)))
         /\ (forall r, matching aggr c = None -> storepb.Raw c = Some r ->
             its !! j = Some (inl (payload_cursor r)))
         /\ (matching aggr c = None -> storepb.Raw c = None ->
             exists msg, its !! j = Some (inl (inr (errSeriesIterator.mk (Some msg))))).
Proof.
  intros Hin Haggr.
  exists (map (fun c => inl (getFirstIterator [matching aggr c; storepb.Raw c]))
            (chunkSeries.chunks s)).
  split.
  - unfold chunkSeries.Iterator. rewrite Haggr.
    unfold single_kinds in Hin. rewrite !elem_of_cons, elem_of_nil in Hin.
    destruct Hin as [->|[->|[->|[->|[->|[]]]]]]; reflexivity.
  - split; [apply length_map|].
    intros j c Hc. rewrite list_lookup_fmap, Hc. simpl.
    split; [|split].
    + intros p Hp. rewrite Hp. reflexivity.
    + intros r Hm Hr. rewrite Hm, Hr. reflexivity.
    + intros Hm Hr. eexists. rewrite list_lookup_fmap, Hc. simpl.
      rewrite Hm, Hr. reflexivity.
Qed.
End chunkSeries_Iterator.

(** ** dedupSeriesIterator.Seek *)

Section dedup_Seek.
Context {A B : Type} `{storage.SeriesIterator A} `{storage.SeriesIterator B}.

Lemma seek_accepts_test (t0 : Z) (it : dedupSeriesIterator.t A B) ts v :
  dedupSeriesIterator.At it = Ok (ts, v) ->
  ((ts >? 0) && (ts >=? t0) = true <-> seek_accepts t0 it).
Proof.
  intros Hat. unfold seek_accepts. rewrite andb_true_iff, Z.gtb_lt, Z.geb_le. split.
  - intros [? ?]. exists ts, v. auto.
  - intros (ts' & v' & Hat' & ? & ?). rewrite Hat in Hat'. injection Hat' as -> ->. auto.
Qed.

Lemma seek_rejects_test (t0 : Z) (it : dedupSeriesIterator.t A B) ts v :
  dedupSeriesIterator.At it = Ok (ts, v) ->
  ((ts >? 0) && (ts >=? t0) = false <-> seek_rejects t0 it).
Proof.
  intros Hat. unfold seek_rejects.
  rewrite <- not_true_iff_false, andb_true_iff, Z.gtb_lt, Z.geb_le. split.
  - intros Hn. exists ts, v. auto.
  - intros (ts' & v' & Hat' & Hn). rewrite Hat in Hat'. injection Hat' as -> ->. auto.
Qed.

Lemma Seek_loop_sound (n fuel : nat) (t0 : Z) (it it' : dedupSeriesIterator.t A B) ok :
  dedupSeriesIterator.Seek_loop n fuel t0 it = Ok (ok, it') ->
  exists path last,
    (length path < n)%nat
    /\ advances fuel it path last
    /\ Forall (seek_rejects t0) path
    /\ (if ok then last = it' /\ seek_accepts t0 it'
        else seek_rejects t0 last /\ dedupSeriesIterator.Next fuel last = Ok (false, it')).
Proof.
  revert it. induction n as [|n IH]; intros it; simpl; [discriminate|].
  destruct (dedupSeriesIterator.At it) as [[ts v]| |] eqn:Hat; cbn; try discriminate.
  destruct ((ts >? 0) && (ts >=? t0)) eqn:Htest.
  - intros [= <- <-]. exists [], it. repeat split.
    + simpl. lia.
    + constructor.
    + constructor.
    + now apply (seek_accepts_test t0 it ts v).
  - apply (seek_rejects_test t0 it ts v Hat) in Htest.
    destruct (dedupSeriesIterator.Next fuel it) as [[ok1 it1]| |] eqn:Hnext;
      cbn; try discriminate.
    destruct ok1; cbn.
    + intros Hloop. apply IH in Hloop as (path & last & Hlen & Hadv & Hrej & Hend).
      exists (it :: path), last. repeat split.
      * simpl. lia.
      * econstructor; eassumption.
      * constructor; assumption.
      * exact Hend.
    + intros [= <- <-]. exists [], it. repeat split.
      * simpl. lia.
      * constructor.
      * constructor.
      * exact Htest.
      * exact Hnext.
Qed.

Lemma Seek_loop_complete (n fuel : nat) (t0 : Z) (it it' last : dedupSeriesIterator.t A B)
  (ok : bool) (path : list (dedupSeriesIterator.t A B)) :
  (length path < n)%nat ->
  advances fuel it path last ->
  Forall (seek_rejects t0) path ->
  (if ok then last = it' /\ seek_accepts t0 it'
   else seek_rejects t0 last /\ dedupSeriesIterator.Next fuel last = Ok (false, it')) ->
  dedupSeriesIterator.Seek_loop n fuel t0 it = Ok (ok, it').
Proof.
  intros Hlen Hadv. revert n Hlen.
  induction Hadv as [it|it it1 last path Hnext Hadv IH]; intros n Hlen Hrej Hend.
  - destruct n as [|n]; [simpl in Hlen; lia|]. simpl.
    destruct ok.
    + destruct Hend as [<- Hacc]. pose proof Hacc as (ts & v & Hat & Hts).
      rewrite Hat. cbn.
      apply (seek_accepts_test t0 it ts v Hat) in Hacc. now rewrite Hacc.
    + destruct Hend as [Hr Hnext]. pose proof Hr as (ts & v & Hat & Hts).
      rewrite Hat. cbn.
      apply (seek_rejects_test t0 it ts v Hat) in Hr. rewrite Hr.
      rewrite Hnext. reflexivity.
  - destruct n as [|n]; [simpl in Hlen; lia|]. simpl.
    inversion Hrej as [|? ? Hr Hrej']; subst.
    pose proof Hr as (ts & v & Hat & Hts). rewrite Hat. cbn.
    apply (seek_rejects_test t0 it ts v Hat) in Hr. rewrite Hr.
    change (dedupSeriesIterator.Next fuel it) with (storage.Next fuel it).
    rewrite Hnext. cbn. apply IH; [simpl in Hlen; lia | assumption..].
Qed.

(** C8, as the code has it. [Seek t] advances the cursor until its current
    timestamp is above 0 and at or after [t]: it succeeds on the first state
    with such a sample, without advancing once the cursor is on one, and it
    fails when the cursor is used up before.  A current sample at or before
    0 is never accepted, also when it is at or after [t]. *)
Theorem dedup_Seek_first_accepted (fuel : nat) (t0 : Z)
  (it it' : dedupSeriesIterator.t A B) (ok : bool) :
  dedupSeriesIterator.Seek fuel t0 it = Ok (ok, it')
  <-> exists path last,
        (length path < fuel)%nat
        /\ advances fuel it path last
        /\ Forall (seek_rejects t0) path
        /\ (if ok then last = it' /\ seek_accepts t0 it'
            else seek_rejects t0 last
                 /\ dedupSeriesIterator.Next fuel last = Ok (false, it')).
Proof.
  unfold dedupSeriesIterator.Seek. split.
  - apply Seek_loop_sound.
  - intros (path & last & Hlen & Hadv & Hrej & Hend).
    eapply Seek_loop_complete; eassumption.
Qed.
End dedup_Seek.

(** C8, as stated, fails.  After its first advance the pairwise cursor over
    the series (0, 1), (10, 2) and (20, 3) is on a sample with timestamp 0;
    [Seek 0] does not stay there but goes on to the sample at 10. *)
Lemma dedup_Seek_skips_timestamp_zero :
  let it0 := newDedupSeriesIterator (ofChunks [[(0, 1); (10, 2)]]) (ofChunks [[(20, 3)]]) in
  exists it1 it2 v,
    storage.Next 20 it0 = Ok (true, it1)
    /\ storage.At it1 = Ok (0, v)
    /\ storage.Seek 20 0 it1 = Ok (true, it2)
    /\ storage.At it2 = Ok (10, 2).
Proof. do 3 eexists. repeat split. Qed.

(** ** Exchanging the sides of the pairwise cursor *)

Section dedup_mirror.
Context {A B : Type} `{storage.SeriesIterator A} `{storage.SeriesIterator B}.

Lemma mirror_new (a : A) (b : B) :
  mirror (newDedupSeriesIterator a b) (newDedupSeriesIterator b a).
Proof. repeat split. Qed.

(** One advance of the two cursors, as long as the advance does not end in a
    tie. *)
Lemma Next_mirror (fuel : nat) (it it' : dedupSeriesIterator.t A B)
  (jt : dedupSeriesIterator.t B A) (ok : bool) :
  mirror it jt ->
  dedupSeriesIterator.Next fuel it = Ok (ok, it') ->
  (ok = true -> tied it' = Ok false) ->
  exists jt', dedupSeriesIterator.Next fuel jt = Ok (ok, jt')
    /\ mirror it' jt'
    /\ (ok = true -> dedupSeriesIterator.At jt' = dedupSeriesIterator.At it').
Proof.
  destruct it as [a b aok bok lastT penA penB useA].
  destruct jt as [a' b' aok' bok' lastT' penA' penB' useA'].
  unfold mirror; cbn. intros (-> & -> & -> & -> & -> & -> & ->).
  unfold dedupSeriesIterator.Next; cbn.
  destruct (if aok then storage.Seek fuel _ a else _) as [[aok1 a1]| |] eqn:HA;
    cbn; try discriminate.
  destruct (if bok then storage.Seek fuel _ b else _) as [[bok1 b1]| |] eqn:HB;
    cbn; try discriminate.
  destruct aok1, bok1; cbn.
  - destruct (storage.At a1) as [[ta va]| |] eqn:Ha; cbn; try discriminate.
    destruct (storage.At b1) as [[tb vb]| |] eqn:Hb; cbn; try discriminate.
    destruct (Z.leb_spec ta tb) as [Hle|Hlt].
    + intros [= <- <-] Htie. specialize (Htie eq_refl).
      unfold tied in Htie; cbn in Htie. rewrite Ha, Hb in Htie; cbn in Htie.
      injection Htie as Htie. apply Z.eqb_neq in Htie.
      destruct (Z.leb_spec tb ta) as [Hle'|Hlt']; [lia|].
      eexists; split; [reflexivity|].
      unfold dedupSeriesIterator.At; cbn. repeat split.
    + intros [= <- <-] _.
      destruct (Z.leb_spec tb ta) as [Hle'|Hlt']; [|lia].
      eexists; split; [reflexivity|].
      unfold dedupSeriesIterator.At; cbn. repeat split.
  - destruct (storage.At a1) as [[ta va]| |] eqn:Ha; cbn; try discriminate.
    intros [= <- <-] _. eexists; split; [reflexivity|].
    unfold dedupSeriesIterator.At; cbn. repeat split.
  - destruct (storage.At b1) as [[tb vb]| |] eqn:Hb; cbn; try discriminate.
    intros [= <- <-] _. eexists; split; [reflexivity|].
    unfold dedupSeriesIterator.At; cbn. repeat split.
  - intros [= <- <-] _. eexists; split; [reflexivity|].
    repeat split. intros [=].
Qed.

Lemma samples_loop_mirror (n fuel : nat) (it : dedupSeriesIterator.t A B)
  (jt : dedupSeriesIterator.t B A) (l : list sample) :
  mirror it jt ->
  samples_loop n fuel it = Ok l ->
  ties n fuel it = Ok false ->
  samples_loop n fuel jt = Ok l.
Proof.
  revert it jt l. induction n as [|n IH]; intros it jt l Hm; simpl; [discriminate|].
  destruct (dedupSeriesIterator.Next fuel it) as [[ok it']| |] eqn:Hnext;
    cbn; try discriminate.
  destruct ok; cbn.
  - destruct (dedupSeriesIterator.At it') as [s| |] eqn:Hat; cbn; try discriminate.
    destruct (samples_loop n fuel it') as [l'| |] eqn:Hl; cbn; try discriminate.
    intros [= <-].
    destruct (tied it') as [x| |] eqn:Htied; cbn; try discriminate.
    destruct x; [discriminate|]. intros Hties.
    destruct (Next_mirror fuel it it' jt true Hm Hnext (fun _ => Htied))
      as (jt' & Hnext' & Hm' & Hat').
    rewrite Hnext'. cbn. rewrite (Hat' eq_refl), Hat. cbn.
    rewrite (IH it' jt' l' Hm' Hl Hties). reflexivity.
  - intros [= <-] _.
    destruct (Next_mirror fuel it it' jt false Hm Hnext) as (jt' & Hnext' & _).
    { intros [=]. }
    rewrite Hnext'. reflexivity.
Qed.

(** C5, as the code has it. When reading the merge of (A, B) to its end
    meets no tie, the merge of (B, A) emits the same samples. *)
Theorem dedup_sides_exchange (fuel : nat) (a : A) (b : B) (l : list sample) :
  samples fuel (newDedupSeriesIterator a b) = Ok l ->
  ties fuel fuel (newDedupSeriesIterator a b) = Ok false ->
  samples fuel (newDedupSeriesIterator b a) = Ok l.
Proof.
  unfold samples. apply samples_loop_mirror, mirror_new.
Qed.
End dedup_mirror.

(** C5, as stated, fails: the merges of two series that start on the same
    timestamp differ in more than the side that gives the tied sample.  Side
    A wins the tie at 10 and the other side gets the penalty of 5000; the
    sample at 11 is then emitted or skipped according to the side that
    holds it. *)
Lemma dedup_sides_differ_after_tie :
  let a := seriesCursor 1 1000000 [[(10, 1); (11, 2)]] in
  let b := seriesCursor 1 1000000 [[(10, 1); (100000, 3)]] in
  samples 40 (newDedupSeriesIterator a b) = Ok [(10, 1); (11, 2); (100000, 3)]
  /\ samples 40 (newDedupSeriesIterator b a) = Ok [(10, 1); (100000, 3)].
Proof. split; vm_compute; reflexivity. Qed.

(** ** promSeriesSet.At and the cursor of a series that fails *)

(** *** The chunk cursors up to a chunk that fails

    [errc] is a chunk cursor that fails at once and stays as it is, as the
    error cursor of [getFirstIterator] does; it is the cursor of
    chunk [j]. *)

Section failing_chunk.
Context {C : Type} `{chunkenc.Iterator C}.
Context (errc : C) (msg : string) (j : nat).
Hypothesis errc_Next : chunkenc.Next errc = (false, errc).
Hypothesis errc_Err : chunkenc.Err errc = Some msg.


End failing_chunk.


Section promSeriesSet_At.
Context {T : Type} `{SeriesSet T} `{Downsample}.



(** *** The cursor of a series, through its bounds *)




End promSeriesSet_At.

(** * The statements at concrete inputs *)

(** C1 at a concrete input: the first advance over two series that start at
    10000 and 5000.  Side B is selected and side A gets the initial
    penalty. *)
Lemma dedup_Next_selects_witness :
  exists it',
    dedupSeriesIterator.Next 20
      (newDedupSeriesIterator
         (seriesCursor 1 1000000 [[(10000, 1); (20000, 2)]])
         (seriesCursor 1 1000000 [[(5000, 11); (15000, 12)]]))
    = Ok (true, it')
    /\ dedupSeriesIterator.useA it' = false
    /\ dedupSeriesIterator.At it' = Ok (5000, 11)
    /\ dedupSeriesIterator.lastT it' = 5000
    /\ dedupSeriesIterator.penB it' = 0
    /\ dedupSeriesIterator.penA it' = 5000.
Proof.
  edestruct (dedup_Next_selects 20
               (newDedupSeriesIterator
                  (seriesCursor 1 1000000 [[(10000, 1); (20000, 2)]])
                  (seriesCursor 1 1000000 [[(5000, 11); (15000, 12)]]))
               true true) as [Hboth _].
  { vm_compute. reflexivity. }
  { vm_compute. reflexivity. }
  destruct (Hboth eq_refl eq_refl 10000 1 5000 11 eq_refl eq_refl)
    as (it' & Hnext & _ & _ & _ & _ & _ & Hb).
  exists it'. split; [exact Hnext|]. apply Hb. reflexivity.
Defined.

(** C5 at a concrete input: two interleaved series without a common
    timestamp. *)
Lemma dedup_sides_exchange_witness :
  samples 40
    (newDedupSeriesIterator
       (seriesCursor 1 1000000 [[(5000, 11); (15000, 12); (25000, 13)]])
       (seriesCursor 1 1000000 [[(1000, 1); (10000, 2); (20000, 3)]]))
  = Ok [(1000, 1); (10000, 2); (20000, 3)].
Proof.
  apply (dedup_sides_exchange 40
           (seriesCursor 1 1000000 [[(1000, 1); (10000, 2); (20000, 3)]])
           (seriesCursor 1 1000000 [[(5000, 11); (15000, 12); (25000, 13)]])).
  - vm_compute. reflexivity.
  - vm_compute. reflexivity.
Defined.

(** C7 at a concrete input: a request for sums over [twoChunks].  The second
    chunk has no sum payload and its cursor reads the raw payload. *)
Lemma Iterator_single_kind_witness :
  exists its : list (@chunkSeries.chunkIterator bytesDecoder plainDownsample),
    @chunkSeries.Iterator bytesDecoder plainDownsample
      (newChunkSeries upLabels twoChunks 0 100 [storepb.Aggr_SUM])
    = inr (newBoundedSeriesIterator (inl (newChunkSeriesIterator its)) 0 100)
    /\ its !! 1%nat
       = Some (inl (inl (xorIterator.of_samples [(0, 5); (1, 6); (2, 7)]))).
Proof.
  destruct (@Iterator_single_kind bytesDecoder plainDownsample
              (newChunkSeries upLabels twoChunks 0 100 [storepb.Aggr_SUM])
              storepb.Aggr_SUM) as (its & Hit & _ & Hcur).
  - unfold single_kinds. rewrite !elem_of_cons. auto.
  - reflexivity.
  - exists its. split; [exact Hit|].
    destruct (Hcur 1%nat _ eq_refl) as (_ & Hraw & _).
    exact (Hraw _ eq_refl eq_refl).
Defined.



(** C8 at a concrete input: [Seek 15000] on a cursor that has not been
    advanced goes through the samples at 1000 and 10000 and stops on the
    sample at 20000. *)
Lemma dedup_Seek_first_accepted_witness :
  exists it' path last,
    (length path < 20)%nat
    /\ advances 20
         (newDedupSeriesIterator
            (seriesCursor 1 1000000 [[(1000, 1); (10000, 2); (20000, 3)]])
            (seriesCursor 1 1000000 [[(5000, 11); (15000, 12); (25000, 13)]]))
         path last
    /\ Forall (seek_rejects 15000) path
    /\ last = it'
    /\ seek_accepts 15000 it'
    /\ dedupSeriesIterator.At it' = Ok (20000, 3).
Proof.
  assert (Hseek : exists it',
    dedupSeriesIterator.Seek 20 15000
      (newDedupSeriesIterator
         (seriesCursor 1 1000000 [[(1000, 1); (10000, 2); (20000, 3)]])
         (seriesCursor 1 1000000 [[(5000, 11); (15000, 12); (25000, 13)]]))
    = Ok (true, it') /\ dedupSeriesIterator.At it' = Ok (20000, 3)).
  { eexists. split; vm_compute; reflexivity. }
  destruct Hseek as (it' & Hseek & Hat).
  apply (proj1 (dedup_Seek_first_accepted 20 15000 _ it' true)) in Hseek
    as (path & last & Hlen & Hadv & Hrej & Hlast & Hacc).
  exists it', path, last. repeat split; assumption.
Defined.

(** * Further properties of the cursors *)

(** ** chunkSeriesIterator over any chunk cursors *)

Section chunkSeriesIterator_any.
Context {C : Type} `{chunkenc.Iterator C}.

Lemma chunkSeriesIterator_At_in_range (it : chunkSeriesIterator.t C) :
  (chunkSeriesIterator.i it < length (chunkSeriesIterator.chunks it))%nat ->
  exists c, chunkSeriesIterator.chunks it !! chunkSeriesIterator.i it = Some c
    /\ chunkSeriesIterator.At it = Ok (chunkenc.At c)
    /\ chunkSeriesIterator.Err it = Ok (chunkenc.Err c).
Proof.
  intros Hi. destruct (lookup_lt_is_Some_2 _ _ Hi) as [c Hc].
  exists c. unfold chunkSeriesIterator.At, chunkSeriesIterator.Err. now rewrite Hc.
Qed.

(** Both methods keep the index inside the list of chunks. *)
Lemma chunkSeriesIterator_keeps_range (fuel : nat) :
  (forall it, (chunkSeriesIterator.i it < length (chunkSeriesIterator.chunks it))%nat ->
     chunkSeriesIterator.Next fuel it = OutOfFuel
     \/ exists ok it', chunkSeriesIterator.Next fuel it = Ok (ok, it')
          /\ length (chunkSeriesIterator.chunks it') = length (chunkSeriesIterator.chunks it)
          /\ (chunkSeriesIterator.i it <= chunkSeriesIterator.i it'
              < length (chunkSeriesIterator.chunks it'))%nat)
  /\ (forall t0 it, (chunkSeriesIterator.i it < length (chunkSeriesIterator.chunks it))%nat ->
      chunkSeriesIterator.Seek fuel t0 it = OutOfFuel
      \/ exists ok it', chunkSeriesIterator.Seek fuel t0 it = Ok (ok, it')
           /\ length (chunkSeriesIterator.chunks it') = length (chunkSeriesIterator.chunks it)
           /\ (chunkSeriesIterator.i it <= chunkSeriesIterator.i it'
               < length (chunkSeriesIterator.chunks it'))%nat).
Proof.
  induction fuel as [|n [IHnext IHseek]]; [split; intros; left; reflexivity|].
  split.
  - intros it Hi. rewrite chunkSeriesIterator_Next_S.
    destruct (chunkSeriesIterator_At_in_range it Hi) as (c & Hc & Hat & _).
    rewrite Hat, Hc. cbn [mbind res_bind].
    destruct (chunkenc.At c) as [lastT v].
    destruct (chunkenc.Next c) as [ok c'].
    set (it1 := chunkSeriesIterator.mk
                  (<[chunkSeriesIterator.i it:=c']> (chunkSeriesIterator.chunks it))
                  (chunkSeriesIterator.i it)).
    assert (Hlen1 : length (chunkSeriesIterator.chunks it1)
                    = length (chunkSeriesIterator.chunks it)).
    { unfold it1. cbn. apply length_insert. }
    assert (Hi1 : (chunkSeriesIterator.i it1 < length (chunkSeriesIterator.chunks it1))%nat).
    { rewrite Hlen1. exact Hi. }
    cbn zeta. fold it1.
    destruct ok.
    + right. exists true, it1. split; [reflexivity|]. split; [exact Hlen1|]. cbn in *. lia.
    + destruct (chunkSeriesIterator_At_in_range it1 Hi1) as (c1 & _ & _ & Herr1).
      rewrite Herr1. cbn [mbind res_bind].
      case_bool_decide.
      { right. exists false, it1. split; [reflexivity|]. split; [exact Hlen1|]. cbn in *. lia. }
      destruct (Z.geb_spec (Z.of_nat (chunkSeriesIterator.i it1))
                  (Z.of_nat (length (chunkSeriesIterator.chunks it1)) - 1)) as [Hlast|Hmore].
      { right. exists false, it1. split; [reflexivity|]. split; [exact Hlen1|]. cbn in *. lia. }
      destruct (IHseek (add64 lastT 1)
                  (chunkSeriesIterator.mk (chunkSeriesIterator.chunks it1)
                     (S (chunkSeriesIterator.i it1))))
        as [Hout|(ok' & it' & Hseek & Hlen' & Hi')].
      { unfold it1 in *. cbn in *. lia. }
      { left. exact Hout. }
      right. exists ok', it'. split; [exact Hseek|]. cbn in *. split; lia.
  - intros t0 it Hi. rewrite chunkSeriesIterator_Seek_S.
    destruct (chunkSeriesIterator_At_in_range it Hi) as (c & Hc & Hat & _).
    rewrite Hat. cbn [mbind res_bind]. destruct (chunkenc.At c) as [ct v].
    destruct (ct >=? t0).
    { right. exists true, it. split; [reflexivity|]. split; [reflexivity|]. lia. }
    destruct (IHnext it Hi) as [Hout|(ok1 & it1 & Hnext & Hlen1 & Hi1)].
    { left. now rewrite Hout. }
    rewrite Hnext. cbn [mbind res_bind]. destruct ok1; cbn [negb].
    + destruct (IHseek t0 it1) as [Hout|(ok' & it' & Hseek & Hlen' & Hi')]; [lia| |].
      { left. exact Hout. }
      right. exists ok', it'. split; [exact Hseek|]. split; lia.
    + right. exists false, it1. split; [reflexivity|]. split; lia.
Qed.

(** X1. A [chunkSeriesIterator] whose index is inside its list of chunks (as
    [newChunkSeriesIterator] builds it) never reads a chunk out of range:
    [Next] and [Seek] do not panic, they keep the number of chunks, move
    the index forward only and leave it inside the list. *)
Theorem chunkSeriesIterator_never_out_of_range (fuel : nat) (t0 : Z)
  (it : chunkSeriesIterator.t C) :
  (chunkSeriesIterator.i it < length (chunkSeriesIterator.chunks it))%nat ->
  chunkSeriesIterator.Next fuel it <> Panic
  /\ chunkSeriesIterator.Seek fuel t0 it <> Panic
  /\ (forall ok it',
        chunkSeriesIterator.Next fuel it = Ok (ok, it')
        \/ chunkSeriesIterator.Seek fuel t0 it = Ok (ok, it') ->
        length (chunkSeriesIterator.chunks it') = length (chunkSeriesIterator.chunks it)
        /\ (chunkSeriesIterator.i it <= chunkSeriesIterator.i it'
            < length (chunkSeriesIterator.chunks it'))%nat).
Proof.
  intros Hi. destruct (chunkSeriesIterator_keeps_range fuel) as [Hnext Hseek].
  specialize (Hnext it Hi). specialize (Hseek t0 it Hi).
  split; [|split].
  - destruct Hnext as [Hn|(ok & it' & Hn & _)]; rewrite Hn; discriminate.
  - destruct Hseek as [Hs|(ok & it' & Hs & _)]; rewrite Hs; discriminate.
  - intros ok it' [Hres|Hres].
    + destruct Hnext as [Hn|(ok1 & it1 & Hn & Hfacts)]; rewrite Hn in Hres;
        [discriminate|]. injection Hres as <- <-. exact Hfacts.
    + destruct Hseek as [Hs|(ok1 & it1 & Hs & Hfacts)]; rewrite Hs in Hres;
        [discriminate|]. injection Hres as <- <-. exact Hfacts.
Qed.

Lemma chunkSeriesIterator_Seek_at_target (fuel : nat) (t0 : Z)
  (it it' : chunkSeriesIterator.t C) :
  chunkSeriesIterator.Seek fuel t0 it = Ok (true, it') ->
  exists ts v, chunkSeriesIterator.At it' = Ok (ts, v) /\ t0 <= ts.
Proof.
  revert it. induction fuel as [|n IH]; intros it; [discriminate|].
  rewrite chunkSeriesIterator_Seek_S.
  destruct (chunkSeriesIterator.At it) as [[ct v]| |] eqn:Hat; cbn [mbind res_bind];
    try discriminate.
  destruct (Z.geb_spec ct t0) as [Hge|Hlt].
  - intros [= <-]. exists ct, v. split; [exact Hat|lia].
  - destruct (chunkSeriesIterator.Next n it) as [[ok1 it1]| |]; cbn [mbind res_bind];
      try discriminate.
    destruct ok1; cbn [negb]; [apply IH|discriminate].
Qed.

Lemma chunkSeriesIterator_seek_reaches : seek_reaches (chunkSeriesIterator.t C).
Proof. intros fuel t0 s s'. apply chunkSeriesIterator_Seek_at_target. Qed.

(** X2. [Seek] of a [chunkSeriesIterator] keeps the contract of a seek, over
    chunk cursors of any kind: when it succeeds the current sample is at or
    after the target, and when the current sample is at or after the target
    already it succeeds without moving the cursor. *)
Theorem chunkSeriesIterator_Seek_contract (fuel : nat) (t0 : Z)
  (it : chunkSeriesIterator.t C) :
  (forall it', chunkSeriesIterator.Seek fuel t0 it = Ok (true, it') ->
     exists ts v, chunkSeriesIterator.At it' = Ok (ts, v) /\ t0 <= ts)
  /\ (forall ts v, chunkSeriesIterator.At it = Ok (ts, v) -> t0 <= ts ->
      chunkSeriesIterator.Seek (S fuel) t0 it = Ok (true, it)).
Proof.
  split.
  - intros it'. apply chunkSeriesIterator_Seek_at_target.
  - intros ts v Hat Hts. rewrite chunkSeriesIterator_Seek_S, Hat. cbn [mbind res_bind].
    destruct (Z.geb_spec ts t0); [reflexivity|lia].
Qed.
End chunkSeriesIterator_any.

(** ** chunkSeriesIterator over chunks that do not overlap *)

Lemma increasing_from_weaken (lo lo' : Z) (l : list sample) :
  lo' <= lo -> increasing_from lo l -> increasing_from lo' l.
Proof. destruct l as [|s l]; [easy|]. cbn. intros Hle (Hlo & Hhi & Hl). repeat split; try lia. exact Hl. Qed.

Lemma on_sample_remaining it cu l :
  on_sample it cu l -> (2 <= remaining it)%nat.
Proof.
  intros (before & c & after & -> & _). rewrite ordered_chunks_remaining. lia.
Qed.

Lemma on_sample_At it cu l :
  on_sample it cu l -> chunkSeriesIterator.At it = Ok cu.
Proof.
  intros (before & c & after & -> & Hcu & _). unfold chunkSeriesIterator.At. cbn.
  rewrite list_lookup_middle by reflexivity. cbn. unfold xorIterator.At. now rewrite Hcu.
Qed.

(** From a cursor that is on [cu] with the increasing samples [l] still to
    come, [Next] gives the first of [l], and so does [Seek] to a target
    between [cu] and the first of [l]. *)
Lemma chunkSeriesIterator_next_sample (fuel : nat) :
  (forall it cu l, on_sample it cu l -> 0 <= fst cu < MaxInt64 ->
     increasing_from (fst cu) l -> (remaining it <= S fuel)%nat ->
     match l with
     | [] => exists it', chunkSeriesIterator.Next fuel it = Ok (false, it')
     | s :: l' => exists it', chunkSeriesIterator.Next fuel it = Ok (true, it')
                   /\ on_sample it' s l' /\ (remaining it' < remaining it)%nat
     end)
  /\ (forall t0 it cu l, on_sample it cu l -> 0 <= fst cu < MaxInt64 ->
      increasing_from (fst cu) l -> fst cu < t0 ->
      match l with [] => True | s :: _ => t0 <= fst s end ->
      (remaining it <= fuel)%nat ->
      match l with
      | [] => exists it', chunkSeriesIterator.Seek fuel t0 it = Ok (false, it')
      | s :: l' => exists it', chunkSeriesIterator.Seek fuel t0 it = Ok (true, it')
                    /\ on_sample it' s l' /\ (remaining it' < remaining it)%nat
      end).
Proof.
  induction fuel as [|n [IHnext IHseek]].
  - split.
    + intros it cu l Hon _ _ Hrem. apply on_sample_remaining in Hon. lia.
    + intros t0 it cu l Hon _ _ _ _ Hrem. apply on_sample_remaining in Hon. lia.
  - split.
    + intros it cu l Hon Hcu Hinc Hrem.
      pose proof Hon as (before & c & after & -> & Hcur & Hbroken & Herr & Hafter & Hl).
      rewrite ordered_chunks_remaining in Hrem.
      rewrite chunkSeriesIterator_Next_S, (on_sample_At _ _ _ Hon).
      cbn [mbind res_bind chunkSeriesIterator.chunks chunkSeriesIterator.i].
      destruct cu as [lastT v]. rewrite list_lookup_middle by reflexivity.
      change (chunkenc.Next c) with (xorIterator.Next c).
      unfold xorIterator.Next. rewrite Herr, Hbroken.
      assert (Hins : forall c', <[length before:=c']> (before ++ c :: after)
                                = before ++ c' :: after).
      { intros c'. rewrite insert_app_r_alt by lia. now rewrite Nat.sub_diag. }
      destruct (xorIterator.rest c) as [|s r] eqn:Hrest.
      * (* the current chunk is used up *)
        cbn zeta. cbn [chunkSeriesIterator.chunks chunkSeriesIterator.i].
        rewrite Hins. unfold chunkSeriesIterator.Err.
        cbn [chunkSeriesIterator.chunks chunkSeriesIterator.i].
        rewrite list_lookup_middle by reflexivity. cbn [mbind res_bind].
        change (chunkenc.Err c) with (xorIterator.err c). rewrite Herr.
        rewrite bool_decide_false by (intros Hn; now apply Hn).
        rewrite length_app. cbn [length].
        destruct after as [|c2 after].
        { cbn in Hl. subst l.
          match goal with
          | |- context [?a >=? ?b] => destruct (Z.geb_spec a b) as [_|Hlt]
          end; [|cbn in Hlt; lia].
          eexists. reflexivity. }
        match goal with
        | |- context [?a >=? ?b] => destruct (Z.geb_spec a b) as [Hge|_]
        end.
        { cbn in Hge. lia. }
        apply Forall_cons in Hafter as [(Hzero & Hbroken2 & Herr2) Hafter].
        set (it2 := chunkSeriesIterator.mk (before ++ c :: c2 :: after) (S (length before))).
        assert (Hit2 : it2 = chunkSeriesIterator.mk ((before ++ [c]) ++ c2 :: after)
                               (length (before ++ [c]))).
        { unfold it2. rewrite <- app_assoc, length_app. cbn. f_equal. lia. }
        assert (Hon2 : on_sample it2 (xorIterator.cur c2) l).
        { exists (before ++ [c]), c2, after. repeat split; assumption. }
        assert (Hrem2 : remaining it2
                        = (S (S (length (xorIterator.rest c2))) + work after)%nat).
        { rewrite Hit2. apply ordered_chunks_remaining. }
        cbn in Hcu.
        assert (Hseek := IHseek (add64 lastT 1) it2 (xorIterator.cur c2) l Hon2).
        rewrite Hzero in Hseek. rewrite add64_succ in Hseek by exact Hcu.
        cbn [work length] in Hrem.
        specialize (Hseek ltac:(unfold MaxInt64; lia)
                      (increasing_from_weaken _ _ _ (proj1 Hcu) Hinc) ltac:(lia)).
        rewrite add64_succ by exact Hcu. fold it2.
        destruct l as [|s l'].
        -- apply Hseek; [exact I|lia].
        -- destruct Hseek as (it' & Hs & Hon' & Hrem'); [cbn in Hinc; lia|lia|].
           exists it'.
           split; [exact Hs|]. split; [exact Hon'|].
           rewrite ordered_chunks_remaining. cbn [work]. lia.
      * (* the current chunk has a next sample *)
        cbn zeta. cbn [chunkSeriesIterator.chunks chunkSeriesIterator.i].
        rewrite Hins. cbn in Hl. subst l.
        eexists. split; [reflexivity|]. split.
        -- exists before, (xorIterator.mk s r None None), after. repeat split; assumption.
        -- rewrite !ordered_chunks_remaining, Hrest. cbn. lia.
    + intros t0 it cu l Hon Hcu Hinc Hlt Hhead Hrem.
      rewrite chunkSeriesIterator_Seek_S, (on_sample_At _ _ _ Hon).
      cbn [mbind res_bind]. destruct cu as [ct v]. cbn in Hcu, Hlt, Hinc.
      destruct (Z.geb_spec ct t0) as [Hge|_]; [lia|].
      assert (Hnext := IHnext it (ct, v) l Hon Hcu Hinc Hrem).
      destruct l as [|s l'].
      * destruct Hnext as [it' Hn]. rewrite Hn. eexists. reflexivity.
      * destruct Hnext as (it' & Hn & Hon' & Hrem'). rewrite Hn.
        cbn [mbind res_bind negb].
        pose proof (on_sample_remaining _ _ _ Hon') as Htwo.
        destruct n as [|n]; [lia|].
        rewrite chunkSeriesIterator_Seek_S, (on_sample_At _ _ _ Hon').
        cbn [mbind res_bind]. destruct s as [ts vs]. cbn in Hhead.
        destruct (Z.geb_spec ts t0) as [_|Hlt']; [|lia].
        exists it'. repeat split; assumption.
Qed.

Lemma samples_loop_all (n fuel : nat) (it : chunkSeriesIterator.t xorIterator.t)
  (cu : sample) (l : list sample) :
  on_sample it cu l -> 0 <= fst cu < MaxInt64 -> increasing_from (fst cu) l ->
  (remaining it <= S fuel)%nat -> (remaining it < n)%nat ->
  samples_loop n fuel it = Ok l.
Proof.
  revert it cu l. induction n as [|n IH]; intros it cu l Hon Hcu Hinc Hfuel Hn; [lia|].
  cbn [samples_loop].
  change (storage.Next fuel it) with (chunkSeriesIterator.Next fuel it).
  pose proof (proj1 (chunkSeriesIterator_next_sample fuel) it cu l Hon Hcu Hinc Hfuel)
    as Hnext.
  destruct l as [|s l'].
  - destruct Hnext as [it' Hnext]. now rewrite Hnext.
  - destruct Hnext as (it' & Hnext & Hon' & Hrem'). rewrite Hnext.
    cbn [mbind res_bind negb].
    change (storage.At it') with (chunkSeriesIterator.At it').
    rewrite (on_sample_At _ _ _ Hon'). cbn [mbind res_bind].
    cbn in Hinc. destruct Hinc as (Hlo & Hhi & Hinc).
    rewrite (IH it' s l' Hon'); [reflexivity| lia | exact Hinc | lia | lia].
Qed.

(** X3. Over chunks that do not overlap (the timestamps of all their
    samples, read chunk after chunk, increase and lie between 0 and the
    largest timestamp), the cursor emits every sample of every chunk, in
    order, and nothing else; empty chunks are passed over. *)
Theorem chunkSeriesIterator_emits_all (cs : list (list sample)) (fuel : nat) :
  cs <> [] ->
  increasing_from 0 (concat cs) ->
  (work (map xorIterator.of_samples cs) < fuel)%nat ->
  samples fuel (ofChunks cs) = Ok (concat cs).
Proof.
  intros Hne Hinc Hfuel. destruct cs as [|c0 cs]; [contradiction|].
  unfold samples.
  apply (samples_loop_all fuel fuel (ofChunks (c0 :: cs)) (0, 0)).
  - exists [], (xorIterator.of_samples c0), (map xorIterator.of_samples cs).
    repeat split.
    + apply Forall_fmap, Forall_true. intros c. repeat split.
    + cbn. f_equal. rewrite map_map. cbn. now rewrite map_id.
  - cbn. unfold MaxInt64. lia.
  - exact Hinc.
  - change (remaining (ofChunks (c0 :: cs)))
      with (work (map xorIterator.of_samples (c0 :: cs))). lia.
  - change (remaining (ofChunks (c0 :: cs)))
      with (work (map xorIterator.of_samples (c0 :: cs))). lia.
Qed.

(** [Seek] to any target after the current sample stops on the first sample
    at or after the target. *)
Lemma chunkSeriesIterator_Seek_forward (l : list sample) :
  forall fuel t0 it cu, on_sample it cu l -> 0 <= fst cu < MaxInt64 ->
    increasing_from (fst cu) l -> fst cu < t0 -> (remaining it <= fuel)%nat ->
    match skip_before t0 l with
    | [] => exists it', chunkSeriesIterator.Seek fuel t0 it = Ok (false, it')
    | s :: l' => exists it', chunkSeriesIterator.Seek fuel t0 it = Ok (true, it')
                  /\ on_sample it' s l' /\ (remaining it' < remaining it)%nat
    end.
Proof.
  induction l as [|s l IH]; intros fuel t0 it cu Hon Hcu Hinc Hlt Hfuel.
  - apply (proj2 (chunkSeriesIterator_next_sample fuel) t0 it cu []); auto.
  - pose proof (on_sample_remaining _ _ _ Hon) as Htwo.
    destruct fuel as [|n]; [lia|].
    cbn [skip_before]. destruct (Z.ltb_spec (fst s) t0) as [Hs|Hs].
    + rewrite chunkSeriesIterator_Seek_S, (on_sample_At _ _ _ Hon).
      cbn [mbind res_bind]. destruct cu as [ct v]. cbn in Hcu, Hlt, Hinc.
      destruct (Z.geb_spec ct t0) as [Hge|_]; [lia|].
      destruct (proj1 (chunkSeriesIterator_next_sample n) it (ct, v) (s :: l) Hon)
        as (it1 & Hn & Hon1 & Hrem1); [exact Hcu|exact Hinc|lia|].
      rewrite Hn. cbn [mbind res_bind negb].
      destruct Hinc as (Hlo & Hhi & Hinc).
      specialize (IH n t0 it1 s Hon1 ltac:(lia) Hinc Hs ltac:(lia)).
      destruct (skip_before t0 l) as [|s2 l2].
      * exact IH.
      * destruct IH as (it2 & Hs2 & Hon2 & Hrem2). exists it2.
        split; [exact Hs2|]. split; [exact Hon2|lia].
    + apply (proj2 (chunkSeriesIterator_next_sample (S n)) t0 it cu (s :: l)); auto.
Qed.

Lemma skip_before_window (mint maxt : Z) (l : list sample) :
  List.filter (in_window mint maxt) (skip_before mint l)
  = List.filter (in_window mint maxt) l.
Proof.
  induction l as [|s l IH]; [reflexivity|]. cbn [skip_before].
  destruct (Z.ltb_spec (fst s) mint) as [Hlt|Hge]; [|reflexivity].
  cbn [List.filter]. unfold in_window at 2.
  destruct (Z.leb_spec mint (fst s)); [lia|]. exact IH.
Qed.

Lemma skip_before_head (t0 lo : Z) (l : list sample) (s : sample) (l' : list sample) :
  increasing_from lo l -> skip_before t0 l = s :: l' ->
  t0 <= fst s /\ lo < fst s < MaxInt64 /\ increasing_from (fst s) l'.
Proof.
  revert lo. induction l as [|s0 l IH]; intros lo Hinc; [discriminate|].
  cbn [skip_before]. destruct Hinc as (Hlo & Hhi & Hinc).
  destruct (Z.ltb_spec (fst s0) t0) as [Hlt|Hge].
  - intros Hskip. destruct (IH _ Hinc Hskip) as (H1 & H2 & H3).
    split; [exact H1|]. split; [lia|exact H3].
  - intros [= -> ->]. split; [exact Hge|]. split; [lia|exact Hinc].
Qed.

Lemma window_passed (mint maxt lo : Z) (l : list sample) :
  maxt <= lo -> increasing_from lo l -> List.filter (in_window mint maxt) l = [].
Proof.
  revert lo. induction l as [|s l IH]; intros lo Hlo Hinc; [reflexivity|].
  destruct Hinc as (H1 & H2 & Hinc). cbn [List.filter]. unfold in_window at 1.
  destruct (Z.leb_spec (fst s) maxt); [lia|]. rewrite andb_false_r.
  apply (IH (fst s)); [lia|exact Hinc].
Qed.

Lemma window_not_reached (mint maxt : Z) (l : list sample) :
  skip_before mint l = [] -> List.filter (in_window mint maxt) l = [].
Proof. intros Hskip. now rewrite <- skip_before_window, Hskip. Qed.

Lemma window_empty (mint maxt : Z) (l : list sample) :
  maxt < mint -> List.filter (in_window mint maxt) l = [].
Proof.
  intros Hlt. induction l as [|s l IH]; [reflexivity|].
  cbn [List.filter]. unfold in_window at 1.
  destruct (Z.leb_spec mint (fst s)), (Z.leb_spec (fst s) maxt); cbn; try exact IH. lia.
Qed.

Lemma bounded_samples_loop (mint maxt : Z) (n fuel : nat) :
  forall it cu l, on_sample it cu l -> 0 <= fst cu < MaxInt64 ->
    increasing_from (fst cu) l ->
    (remaining it <= S fuel)%nat -> (remaining it < n)%nat ->
    samples_loop n fuel (boundedSeriesIterator.mk it mint maxt)
    = Ok (List.filter (in_window mint maxt) l).
Proof.
  induction n as [|n IH]; intros it cu l Hon Hcu Hinc Hfuel Hn; [lia|].
  cbn [samples_loop].
  change (storage.Next fuel (boundedSeriesIterator.mk it mint maxt))
    with (boundedSeriesIterator.Next fuel (boundedSeriesIterator.mk it mint maxt)).
  unfold boundedSeriesIterator.Next.
  cbn [boundedSeriesIterator.it boundedSeriesIterator.mint boundedSeriesIterator.maxt].
  change (storage.Next fuel it) with (chunkSeriesIterator.Next fuel it).
  pose proof (proj1 (chunkSeriesIterator_next_sample fuel) it cu l Hon Hcu Hinc Hfuel)
    as Hnext.
  destruct l as [|s l].
  { destruct Hnext as [it' Hnext]. now rewrite Hnext. }
  destruct Hnext as (it1 & Hnext & Hon1 & Hrem1). rewrite Hnext.
  cbn [mbind res_bind negb].
  change (storage.At it1) with (chunkSeriesIterator.At it1).
  rewrite (on_sample_At _ _ _ Hon1). destruct s as [ts v] eqn:Hs.
  cbn [mbind res_bind]. destruct Hinc as (Hlo & Hhi & Hinc). cbn [fst] in *.
  destruct (Z.ltb_spec ts mint) as [Hbefore|Hfrom].
  - (* the sample is before the window: seek to its start *)
    unfold boundedSeriesIterator.Seek.
    cbn [boundedSeriesIterator.it boundedSeriesIterator.mint boundedSeriesIterator.maxt].
    destruct (Z.gtb_spec mint maxt) as [Hempty|Hwin].
    { cbn [mbind res_bind negb]. now rewrite window_empty by lia. }
    rewrite Z.ltb_irrefl.
    change (storage.Seek fuel mint it1) with (chunkSeriesIterator.Seek fuel mint it1).
    pose proof (chunkSeriesIterator_Seek_forward l fuel mint it1 (ts, v) Hon1
                  ltac:(cbn; lia) Hinc Hbefore ltac:(lia)) as Hseek.
    cbn [List.filter]. unfold in_window at 1. cbn [fst].
    destruct (Z.leb_spec mint ts) as [|_]; [lia|]. cbn [andb].
    destruct (skip_before mint l) as [|s2 l2] eqn:Hskip.
    { destruct Hseek as [it2 Hseek]. rewrite Hseek. cbn [mbind res_bind negb].
      now rewrite (window_not_reached _ _ _ Hskip). }
    destruct Hseek as (it2 & Hseek & Hon2 & Hrem2). rewrite Hseek.
    cbn [mbind res_bind negb boundedSeriesIterator.it boundedSeriesIterator.maxt].
    change (storage.At it2) with (chunkSeriesIterator.At it2).
    rewrite (on_sample_At _ _ _ Hon2).
    destruct (skip_before_head _ _ _ _ _ Hinc Hskip) as (Hs2 & Hr2 & Hinc2).
    rewrite <- (skip_before_window mint maxt l), Hskip.
    destruct s2 as [t2 v2]. cbn [mbind res_bind fst] in *.
    cbn [List.filter]. unfold in_window at 1. cbn [fst].
    destruct (Z.leb_spec mint t2) as [_|]; [|lia]. cbn [andb].
    destruct (Z.leb_spec t2 maxt) as [Hin|Hout]; cbn [negb].
    + change (storage.At (boundedSeriesIterator.mk it2 mint maxt))
        with (chunkSeriesIterator.At it2).
      rewrite (on_sample_At _ _ _ Hon2). cbn [mbind res_bind].
      rewrite (IH it2 (t2, v2) l2 Hon2); [reflexivity|cbn; lia|exact Hinc2|lia|lia].
    + now rewrite (window_passed mint maxt t2 l2) by (lia || assumption).
  - cbn [List.filter]. unfold in_window at 1. cbn [fst].
    destruct (Z.leb_spec mint ts) as [_|]; [|lia]. cbn [andb].
    destruct (Z.leb_spec ts maxt) as [Hin|Hout]; cbn [mbind res_bind negb].
    + change (storage.At (boundedSeriesIterator.mk it1 mint maxt))
        with (chunkSeriesIterator.At it1).
      rewrite (on_sample_At _ _ _ Hon1). cbn [mbind res_bind].
      rewrite (IH it1 (ts, v) l Hon1); [reflexivity|cbn; lia|exact Hinc|lia|lia].
    + now rewrite (window_passed mint maxt ts l) by (lia || assumption).
Qed.

(** X5. A bounded cursor over chunks that do not overlap emits exactly the
    samples whose timestamps lie in [[mint, maxt]], in order: the samples
    before [mint] are skipped, and the first sample after [maxt] ends the
    run. *)
Theorem bounded_emits_window (cs : list (list sample)) (mint maxt : Z) (fuel : nat) :
  cs <> [] ->
  increasing_from 0 (concat cs) ->
  (work (map xorIterator.of_samples cs) < fuel)%nat ->
  samples fuel (newBoundedSeriesIterator (ofChunks cs) mint maxt)
  = Ok (List.filter (in_window mint maxt) (concat cs)).
Proof.
  intros Hne Hinc Hfuel. destruct cs as [|c0 cs]; [contradiction|].
  unfold samples, newBoundedSeriesIterator.
  apply (bounded_samples_loop mint maxt fuel fuel (ofChunks (c0 :: cs)) (0, 0)).
  - exists [], (xorIterator.of_samples c0), (map xorIterator.of_samples cs).
    repeat split.
    + apply Forall_fmap, Forall_true. intros c. repeat split.
    + cbn. f_equal. rewrite map_map. cbn. now rewrite map_id.
  - cbn. unfold MaxInt64. lia.
  - exact Hinc.
  - change (remaining (ofChunks (c0 :: cs)))
      with (work (map xorIterator.of_samples (c0 :: cs))). lia.
  - change (remaining (ofChunks (c0 :: cs)))
      with (work (map xorIterator.of_samples (c0 :: cs))). lia.
Qed.

(** ** removeExactDuplicates: what is kept *)

Section removeExactDuplicates_kept.
Context (String : storepb.AggrChunk -> string).

Lemma kept_sublist last chks : sublist (kept String last chks) chks.
Proof.
  revert last. induction chks as [|c chks IH]; intros last; simpl.
  - constructor.
  - case_bool_decide.
    + apply sublist_cons, IH.
    + apply sublist_skip, IH.
Qed.

Lemma kept_renderings last chks c :
  c ∈ chks -> exists c', c' ∈ last :: kept String last chks /\ String c' = String c.
Proof.
  revert last. induction chks as [|c0 chks IH]; intros last Hin.
  - now apply elem_of_nil in Hin.
  - simpl. apply elem_of_cons in Hin as [->|Hin].
    + case_bool_decide as Heq.
      * exists last. split; [left|exact Heq].
      * exists c0. split; [right; left|reflexivity].
    + case_bool_decide as Heq.
      * apply IH, Hin.
      * destruct (IH c0 Hin) as (c' & Hc' & Hs). exists c'. split; [now right|exact Hs].
Qed.

Lemma kept_all last chks :
  (forall j x y, (last :: chks) !! j = Some x -> (last :: chks) !! S j = Some y ->
     String x <> String y) ->
  kept String last chks = chks.
Proof.
  revert last. induction chks as [|c chks IH]; intros last Hn; [reflexivity|].
  simpl. rewrite bool_decide_false by (apply (Hn 0%nat); reflexivity).
  f_equal. apply IH. intros j x y. apply (Hn (S j)).
Qed.

(** X7. The result of [removeExactDuplicates] is a sublist of the chunks
    that begins with the first of them; no two neighbours of it have the
    same rendering; and every rendering of the input is still there. *)
Theorem removeExactDuplicates_result (chks : list storepb.AggrChunk) :
  let ret := removeExactDuplicates String chks in
  sublist ret chks
  /\ head ret = head chks
  /\ (forall j x y, ret !! j = Some x -> ret !! S j = Some y -> String x <> String y)
  /\ (forall c, c ∈ chks -> exists c', c' ∈ ret /\ String c' = String c).
Proof.
  destruct chks as [|c chks]; cbn zeta.
  - repeat split; try reflexivity.
    + intros j x y Hx. discriminate Hx.
    + intros c Hc. now apply elem_of_nil in Hc.
  - rewrite removeExactDuplicates_cons. split; [|split; [|split]].
    + apply sublist_skip, kept_sublist.
    + reflexivity.
    + apply kept_no_neighbours.
    + intros c0 Hin. apply elem_of_cons in Hin as [->|Hin].
      * exists c. split; [left|reflexivity].
      * apply kept_renderings, Hin.
Qed.

(** X8. [removeExactDuplicates] removes neighbours only: it gives the list
    back as it is exactly when no two neighbours have the same rendering,
    so that equal chunks that something else separates are both kept. *)
Theorem removeExactDuplicates_unchanged_iff (chks : list storepb.AggrChunk) :
  removeExactDuplicates String chks = chks
  <-> (forall j x y, chks !! j = Some x -> chks !! S j = Some y -> String x <> String y).
Proof.
  destruct chks as [|c chks].
  - split; [|reflexivity]. intros _ j x y Hx. discriminate Hx.
  - rewrite removeExactDuplicates_cons. split.
    + intros Heq. injection Heq as Heq. rewrite <- Heq.
      apply kept_no_neighbours.
    + intros Hn. f_equal. apply kept_all, Hn.
Qed.
End removeExactDuplicates_kept.

(** ** getFirstIterator over any number of payloads *)

Section getFirstIterator_any.
Context `{Decoder}.

(** X9. [getFirstIterator] looks at the first payload that is not nil and
    at nothing after it: the answer is the cursor of that payload, or the
    error of its decoding, whatever follows; without such a payload it is
    the error cursor of [no valid chunk found]. *)
Theorem getFirstIterator_first_payload (n : nat) (p : storepb.Chunk)
  (rest : list (option storepb.Chunk)) :
  getFirstIterator (replicate n None ++ Some p :: rest)
  = match FromData (chunkEncoding (storepb.Type_ p)) (storepb.Data p) with
    | inr err => inr (errSeriesIterator.mk (Some err))
    | inl chk => inl (Iterator_of chk)
    end
  /\ getFirstIterator (replicate n None)
     = inr (errSeriesIterator.mk (Some "no valid chunk found"%string)).
Proof.
  induction n as [|n [IH1 IH2]]; [split; reflexivity|].
  split; [exact IH1|exact IH2].
Qed.
End getFirstIterator_any.

(** ** chunkSeries.Iterator for sum with count, and without chunks *)

Section chunkSeries_Iterator_more.
Context `{Downsample}.

(** X10. For a request of sum and count, in either order, the series cursor
    is a [chunkSeriesIterator] over one cursor per chunk, in the order of
    the chunks: the cursor of the raw payload when the chunk has one
    (whatever its sum and count are), else the average cursor of the
    downsampling package over the cursor of the count and the cursor of the
    sum. *)
Theorem Iterator_sum_count (s : chunkSeries.t) :
  chunkSeries.aggrs s = [storepb.Aggr_SUM; storepb.Aggr_COUNT]
  \/ chunkSeries.aggrs s = [storepb.Aggr_COUNT; storepb.Aggr_SUM] ->
  exists its : list chunkSeries.chunkIterator,
    chunkSeries.Iterator s
    = inr (newBoundedSeriesIterator (inl (newChunkSeriesIterator its))
             (chunkSeries.mint s) (chunkSeries.maxt s))
    /\ length its = length (chunkSeries.chunks s)
    /\ forall (j : nat) (c : storepb.AggrChunk),
         chunkSeries.chunks s !! j = Some c ->
         (forall r, storepb.Raw c = Some r -> its !! j = Some (inl (payload_cursor r)))
         /\ (storepb.Raw c = None ->
             its !! j = Some (inr (NewAverageChunkIterator
                                     (getFirstIterator [storepb.Count c])
                                     (getFirstIterator [storepb.Sum c])))).
Proof.
  intros Haggrs.
  exists (map (fun c => match storepb.Raw c with
                        | Some _ => inl (getFirstIterator [storepb.Raw c])
                        | None => inr (NewAverageChunkIterator
                                         (getFirstIterator [storepb.Count c])
                                         (getFirstIterator [storepb.Sum c]))
                        end) (chunkSeries.chunks s)).
  split; [|split].
  - unfold chunkSeries.Iterator.
    destruct Haggrs as [-> | ->]; rewrite bool_decide_true by auto; reflexivity.
  - apply length_map.
  - intros j c Hc. split.
    + intros r Hr. rewrite list_lookup_fmap, Hc. cbn. now rewrite Hr.
    + intros Hr. rewrite list_lookup_fmap, Hc. cbn. now rewrite Hr.
Qed.

(** X11. A series without chunks is an empty series without an error, for
    every request that goes to a [chunkSeriesIterator]: its cursor ends at
    the first [Next], ends every [Seek], and reports no error. *)
Theorem Iterator_no_chunks (s : chunkSeries.t) (fuel : nat) (t0 : Z) :
  chunkSeries.chunks s = [] ->
  resolvable (chunkSeries.aggrs s) ->
  chunkSeries.aggrs s <> [storepb.Aggr_COUNTER] ->
  let it := chunkSeries.Iterator s in
  storage.Next fuel it = Ok (false, it)
  /\ storage.Seek fuel t0 it = Ok (false, it)
  /\ storage.Err it = Ok None.
Proof.
  intros Hchunks Hres Hcounter.
  assert (Hit : chunkSeries.Iterator s
                = inr (newBoundedSeriesIterator (inl (inl (errSeriesIterator.mk None)))
                         (chunkSeries.mint s) (chunkSeries.maxt s))).
  { unfold chunkSeries.Iterator. rewrite Hchunks.
    destruct Hres as [(aggr & Hin & Haggr)|[Haggr|Haggr]]; rewrite Haggr in *.
    - unfold single_kinds in Hin.
      rewrite !elem_of_cons, elem_of_nil in Hin.
      destruct Hin as [->|[->|[->|[->|[->|[]]]]]]; try reflexivity.
      now contradict Hcounter.
    - rewrite bool_decide_true by auto. reflexivity.
    - rewrite bool_decide_true by auto. reflexivity. }
  cbn zeta. rewrite Hit. split; [reflexivity|]. split; [|reflexivity].
  cbn. unfold boundedSeriesIterator.Seek. cbn.
  destruct (t0 >? chunkSeries.maxt s); reflexivity.
Qed.
End chunkSeries_Iterator_more.

(** ** dedupSeriesSet.peekLset in closed form *)

Lemma peekLset_loop_panics (s : dedupSeriesSet.t) (lset : Labels) (n k : nat) (total : Z) :
  (k <= length lset < k + n)%nat ->
  dedupSeriesSet.peekLset_loop s lset n (Z.of_nat k) total = Panic.
Proof.
  revert k total. induction n as [|n IH]; intros k total Hlen; [lia|].
  cbn [dedupSeriesSet.peekLset_loop].
  destruct (decide (k < length lset)%nat) as [Hk|Hk].
  - rewrite index_reverse by exact Hk.
    destruct (reverse lset !! k) as [l|]; [|reflexivity].
    cbn [mbind res_bind]. replace (Z.of_nat k + 1) with (Z.of_nat (S k)) by lia.
    apply IH. lia.
  - unfold dedupSeriesSet.index.
    destruct (Z.ltb_spec (Z.of_nat (length lset) - Z.of_nat k - 1) 0); [reflexivity|lia].
Qed.

Lemma replica_count_le (R : gset string) (l : Labels) :
  (replica_count R l <= length l)%nat.
Proof. unfold replica_count. apply length_filter. Qed.

(** X12. [peekLset] in closed form.  With [n] replica label names: on a
    label set of fewer than [n] labels it reads before the start of the
    label set and panics; otherwise it counts the labels with a replica
    label name among the last [n] labels and cuts that many labels off the
    end, whichever labels these are. *)
Theorem peekLset_closed_form (s : dedupSeriesSet.t) :
  let lset := dedupSeriesSet.peek s in
  let n := size (dedupSeriesSet.replicaLabels s) in
  dedupSeriesSet.peekLset s
  = if bool_decide (length lset < n)%nat then Panic
    else Ok (take (length lset
                   - replica_count (dedupSeriesSet.replicaLabels s)
                       (take n (reverse lset))) lset).
Proof.
  cbn zeta. unfold dedupSeriesSet.peekLset.
  set (lset := dedupSeriesSet.peek s). set (n := size (dedupSeriesSet.replicaLabels s)).
  case_bool_decide as Hn.
  - rewrite Hn, bool_decide_false by lia. cbn. now rewrite Nat.sub_0_r, firstn_all.
  - case_bool_decide as Hshort.
    + now rewrite (peekLset_loop_panics s lset n 0) by lia.
    + rewrite (peekLset_loop_counts s lset n 0) by lia. cbn [mbind res_bind].
      rewrite drop_0.
      pose proof (replica_count_le (dedupSeriesSet.replicaLabels s) (take n (reverse lset)))
        as Hle.
      rewrite length_take, length_reverse in Hle.
      set (k := replica_count _ _) in *.
      destruct (Z.ltb_spec (Z.of_nat (length lset) - (0 + Z.of_nat k)) 0); [lia|].
      destruct (Z.gtb_spec (Z.of_nat (length lset) - (0 + Z.of_nat k))
                  (Z.of_nat (length lset))); [lia|].
      cbn. do 2 f_equal. lia.
Qed.

(** ** dedupSeriesIterator.Next moves forward *)

Section dedup_Next_in_time.
Context {A B : Type} `{storage.SeriesIterator A} `{storage.SeriesIterator B}.

Lemma add64_target (lastT pen : Z) :
  MinInt64 <= lastT -> 0 <= pen -> lastT + 1 + pen <= MaxInt64 ->
  add64 (add64 lastT 1) pen = lastT + 1 + pen.
Proof.
  intros Hlo Hpen Hhi. unfold add64.
  rewrite (wrap64_range (lastT + 1)) by (unfold int64_range; lia).
  apply wrap64_range. unfold int64_range. lia.
Qed.

(** X14. A successful [Next] of the pairwise cursor moves forward in time.
    When both sides keep the contract of a seek, the penalties are not
    negative and the targets [lastT + 1 + penalty] do not overflow, the
    sample that [Next] selects is after the last timestamp, it is the new
    last timestamp, and the side that it was taken from has no penalty. *)
Theorem dedup_Next_forward (fuel : nat) (it it' : dedupSeriesIterator.t A B) :
  seek_reaches A -> seek_reaches B ->
  MinInt64 <= dedupSeriesIterator.lastT it ->
  0 <= dedupSeriesIterator.penA it -> 0 <= dedupSeriesIterator.penB it ->
  dedupSeriesIterator.lastT it + 1 + dedupSeriesIterator.penA it <= MaxInt64 ->
  dedupSeriesIterator.lastT it + 1 + dedupSeriesIterator.penB it <= MaxInt64 ->
  dedupSeriesIterator.Next fuel it = Ok (true, it') ->
  exists ts v, dedupSeriesIterator.At it' = Ok (ts, v)
    /\ dedupSeriesIterator.lastT it' = ts
    /\ dedupSeriesIterator.lastT it < ts
    /\ (if dedupSeriesIterator.useA it' then dedupSeriesIterator.penA it'
        else dedupSeriesIterator.penB it') = 0.
Proof.
  intros HA HB Hlast HpenA HpenB HhiA HhiB.
  unfold dedupSeriesIterator.Next.
  rewrite !add64_target by assumption.
  assert (Ha : forall aok1 a1,
             (if dedupSeriesIterator.aok it
              then storage.Seek fuel (dedupSeriesIterator.lastT it + 1
                                      + dedupSeriesIterator.penA it)
                     (dedupSeriesIterator.a it)
              else Ok (false, dedupSeriesIterator.a it)) = Ok (aok1, a1) ->
             aok1 = true ->
             exists ts v, storage.At a1 = Ok (ts, v) /\ dedupSeriesIterator.lastT it < ts).
  { intros aok1 a1 Hseek ->. destruct (dedupSeriesIterator.aok it); [|discriminate].
    apply HA in Hseek as (ts & v & Hat & Hts). exists ts, v. split; [exact Hat|lia]. }
  assert (Hb : forall bok1 b1,
             (if dedupSeriesIterator.bok it
              then storage.Seek fuel (dedupSeriesIterator.lastT it + 1
                                      + dedupSeriesIterator.penB it)
                     (dedupSeriesIterator.b it)
              else Ok (false, dedupSeriesIterator.b it)) = Ok (bok1, b1) ->
             bok1 = true ->
             exists ts v, storage.At b1 = Ok (ts, v) /\ dedupSeriesIterator.lastT it < ts).
  { intros bok1 b1 Hseek ->. destruct (dedupSeriesIterator.bok it); [|discriminate].
    apply HB in Hseek as (ts & v & Hat & Hts). exists ts, v. split; [exact Hat|lia]. }
  destruct (if dedupSeriesIterator.aok it then _ else _) as [[aok1 a1]| |] eqn:Hsa;
    cbn [mbind res_bind]; try discriminate.
  destruct (if dedupSeriesIterator.bok it then _ else _) as [[bok1 b1]| |] eqn:Hsb;
    cbn [mbind res_bind]; try discriminate.
  specialize (Ha _ _ eq_refl). specialize (Hb _ _ eq_refl).
  destruct aok1, bok1; cbn [negb].
  - destruct Ha as (ta & va & Hata & Hta); [reflexivity|].
    destruct Hb as (tb & vb & Hatb & Htb); [reflexivity|].
    rewrite Hata, Hatb. cbn [mbind res_bind].
    destruct (ta <=? tb); intros [= <-]; unfold dedupSeriesIterator.At; cbn.
    + exists ta, va. repeat split; assumption.
    + exists tb, vb. repeat split; assumption.
  - destruct Ha as (ta & va & Hata & Hta); [reflexivity|].
    rewrite Hata. cbn [mbind res_bind]. intros [= <-].
    unfold dedupSeriesIterator.At; cbn. exists ta, va. repeat split; assumption.
  - destruct Hb as (tb & vb & Hatb & Htb); [reflexivity|].
    rewrite Hatb. cbn [mbind res_bind]. intros [= <-].
    unfold dedupSeriesIterator.At; cbn. exists tb, vb. repeat split; assumption.
  - discriminate.
Qed.
End dedup_Next_in_time.

(** ** translateMatchers *)

Lemma translateMatcher_translates (m : option labels.Matcher) (r : storepb.LabelMatcher) :
  translateMatcher m = Ok (r, None) <-> translates m r.
Proof.
  unfold translates. split.
  - destruct m as [[[] name value]|]; cbn; intros [= <-]; reflexivity.
  - intros ->. destruct r as [[] name value]; reflexivity.
Qed.

Lemma translateMatchers_loop_ok (ms : list (option labels.Matcher)) :
  forall ret rs, translateMatchers_loop ret ms = Ok (rs, None)
    <-> exists rs', rs = ret ++ rs' /\ Forall2 translates ms rs'.
Proof.
  induction ms as [|m ms IH]; intros ret rs; cbn [translateMatchers_loop].
  - split.
    + intros [= <-]. exists []. split; [now rewrite app_nil_r|constructor].
    + intros (rs' & -> & Hall). inversion Hall. now rewrite app_nil_r.
  - split.
    + destruct (translateMatcher m) as [[r err]| |] eqn:Hm; cbn [mbind res_bind];
        try discriminate.
      case_bool_decide as Herr; [intros [= _ ->]; contradiction|].
      subst err.
      intros Hloop. apply IH in Hloop as (rs' & -> & Hall).
      exists (r :: rs'). split; [now rewrite <- app_assoc|].
      constructor; [|exact Hall]. now apply translateMatcher_translates.
    + intros (rs' & -> & Hall). inversion Hall as [|? r ? rs'' Hm Hall']; subst.
      apply translateMatcher_translates in Hm. rewrite Hm. cbn [mbind res_bind].
      rewrite bool_decide_false by (intros Hn; now apply Hn).
      apply IH. exists rs''. split; [now rewrite <- app_assoc|exact Hall'].
Qed.

(** X16. [translateMatchers] succeeds exactly on the lists of pointers
    that are not nil to matchers of the four named types, and its result
    then has one store matcher for each matcher, in order, with the same
    name, the same value and the type that stands for the matcher's. *)
Theorem translateMatchers_success (ms : list (option labels.Matcher))
  (rs : list storepb.LabelMatcher) :
  translateMatchers ms = Ok (rs, None) <-> Forall2 translates ms rs.
Proof.
  unfold translateMatchers. rewrite translateMatchers_loop_ok. split.
  - intros (rs' & -> & Hall). exact Hall.
  - intros Hall. exists rs. split; [reflexivity|exact Hall].
Qed.

Lemma translateMatchers_loop_named (pre : list (option labels.Matcher)) :
  Forall named_type pre ->
  forall ret rest, exists ret',
    translateMatchers_loop ret (pre ++ rest) = translateMatchers_loop ret' rest.
Proof.
  induction 1 as [|m pre (m0 & -> & Hm) _ IH]; intros ret rest.
  - exists ret. reflexivity.
  - cbn [app translateMatchers_loop]. unfold translateMatcher.
    destruct (labels.Type_ m0) eqn:Ht; cbn [mbind res_bind];
      try (rewrite bool_decide_false by (intros Hn; now apply Hn); apply IH).
    now destruct (Hm code).
Qed.

(** X17. [translateMatchers] stops at the first matcher that it cannot
    translate, after matchers of the named types: at a matcher of another
    type it answers with no matchers and with the error that prints the
    number of the type, and at a nil pointer it panics.  What follows is not
    looked at. *)
Theorem translateMatchers_first_failure (pre rest : list (option labels.Matcher))
  (code : Z) (name value : string) :
  Forall named_type pre ->
  translateMatchers
    (pre ++ Some (labels.mkMatcher (labels.MatchType_unknown code) name value) :: rest)
  = Ok ([], Some ("unrecognized matcher type " ++ pretty code)%string)
  /\ translateMatchers (pre ++ None :: rest) = Panic.
Proof.
  intros Hpre. unfold translateMatchers. split.
  - destruct (translateMatchers_loop_named pre Hpre []
                (Some (labels.mkMatcher (labels.MatchType_unknown code) name value) :: rest))
      as [ret' ->].
    reflexivity.
  - destruct (translateMatchers_loop_named pre Hpre [] (None :: rest)) as [ret' ->].
    reflexivity.
Qed.

(** ** storeSeriesSet *)

Lemma storeSeriesSet_all_from (series : list storeSeriesSet.Series) (n k : nat) :
  (k <= length series)%nat -> (length series - k < n)%nat ->
  SeriesSet_all n (storeSeriesSet.mk series (Z.of_nat k - 1))
  = Ok (map (fun x => (storeSeriesSet.Labels x, storeSeriesSet.Chunks x)) (drop k series)).
Proof.
  revert k. induction n as [|n IH]; intros k Hk Hn; [lia|].
  cbn [SeriesSet_all SeriesSet_Next storeSeriesSet_set].
  unfold storeSeriesSet.Next. cbn [storeSeriesSet.i storeSeriesSet.series].
  destruct (Z.geb_spec (Z.of_nat k - 1) (Z.of_nat (length series) - 1)) as [Hend|Hmore].
  - cbn [negb]. rewrite drop_ge by lia. reflexivity.
  - cbn [negb].
    replace (Z.of_nat k - 1 + 1) with (Z.of_nat (S k) - 1) by lia.
    rewrite IH by lia.
    change (SeriesSet_At (storeSeriesSet.mk series (Z.of_nat (S k) - 1)))
      with (storeSeriesSet.At (storeSeriesSet.mk series (Z.of_nat (S k) - 1))).
    unfold storeSeriesSet.At. cbn [storeSeriesSet.i storeSeriesSet.series].
    destruct (Z.ltb_spec (Z.of_nat (S k) - 1) 0) as [|_]; [lia|].
    replace (Z.to_nat (Z.of_nat (S k) - 1)) with k by lia.
    destruct (series !! k) as [x|] eqn:Hx.
    2:{ apply lookup_ge_None in Hx. lia. }
    cbn [mbind res_bind].
    now rewrite (drop_S _ _ _ Hx).
Qed.

(** X18. A [storeSeriesSet] gives every series of its list once, in the
    order of the list, and then ends; before the first [Next] its index is
    -1 and [At] panics, and after the end [Next] keeps answering false. *)
Theorem storeSeriesSet_lists_series (series : list storeSeriesSet.Series) (n : nat) :
  (length series < n)%nat ->
  SeriesSet_all n (newStoreSeriesSet series)
  = Ok (map (fun x => (storeSeriesSet.Labels x, storeSeriesSet.Chunks x)) series)
  /\ storeSeriesSet.At (newStoreSeriesSet series) = Panic
  /\ (forall s s', storeSeriesSet.Next s = (false, s') ->
        storeSeriesSet.Next s' = (false, s')).
Proof.
  intros Hn. split; [|split].
  - apply (storeSeriesSet_all_from series n 0); lia.
  - reflexivity.
  - intros s s'. unfold storeSeriesSet.Next.
    destruct (storeSeriesSet.i s >=? _) eqn:Hend; intros [= <-]. now rewrite Hend.
Qed.

(** ** expandSeries2 *)

Lemma IsNaN_hackyStaleMarker2 : IsNaN hackyStaleMarker2 = false.
Proof. reflexivity. Qed.

Lemma without_NaN_not_NaN (s : sample) : IsNaN (snd (without_NaN s)) = false.
Proof.
  unfold without_NaN. cbn [snd]. destruct (IsNaN (snd s)) eqn:Hs;
    [apply IsNaN_hackyStaleMarker2|exact Hs].
Qed.

Section expandSeries2_any.
Context {C : Type} `{chunkenc.Iterator C}.

Lemma expandSeries2_loop_no_NaN (n : nat) :
  forall (it : C) (ret l : list sample),
    Forall (fun s => IsNaN (snd s) = false) ret ->
    expandSeries2_loop n it ret = Ok l ->
    Forall (fun s => IsNaN (snd s) = false) l.
Proof.
  induction n as [|n IH]; intros it ret l Hret; cbn [expandSeries2_loop]; [discriminate|].
  destruct (chunkenc.Next it) as [ok it'].
  destruct ok; cbn [negb]; [|intros [= <-]; exact Hret].
  destruct (chunkenc.At it') as [t0 v] eqn:Hat.
  apply IH. apply Forall_app. split; [exact Hret|].
  constructor; [|constructor]. exact (without_NaN_not_NaN (t0, v)).
Qed.

(** X19. Whatever the chunk cursor is, no sample that [expandSeries2] gives
    has the value NaN. *)
Theorem expandSeries2_no_NaN (fuel : nat) (it : C) (l : list sample) :
  expandSeries2 fuel it = Ok l -> Forall (fun s => IsNaN (snd s) = false) l.
Proof. apply expandSeries2_loop_no_NaN. constructor. Qed.
End expandSeries2_any.

Lemma expandSeries2_loop_samples (l : list sample) :
  forall (n : nat) (cu : sample) (ret : list sample), (length l < n)%nat ->
    expandSeries2_loop n (xorIterator.mk cu l None None) ret
    = Ok (ret ++ map without_NaN l).
Proof.
  induction l as [|s l IH]; intros n cu ret Hn; (destruct n as [|n]; [cbn in Hn; lia|]).
  - cbn. now rewrite app_nil_r.
  - cbn [expandSeries2_loop]. cbn. destruct s as [t0 v].
    change (match chunkenc.At (xorIterator.mk (t0, v) l None None) with
            | (t1, v0) => _ end)
      with (expandSeries2_loop n (xorIterator.mk (t0, v) l None None)
              (ret ++ [without_NaN (t0, v)])).
    rewrite IH by (cbn in Hn; lia). now rewrite <- app_assoc.
Qed.

(** X20. Over the cursor of a chunk, [expandSeries2] gives the samples of
    the chunk in order, with the same timestamps and the same values, but
    for the values that are NaN, which it replaces by -99999999. *)
Theorem expandSeries2_samples (l : list sample) (fuel : nat) :
  (length l < fuel)%nat ->
  expandSeries2 fuel (xorIterator.of_samples l) = Ok (map without_NaN l).
Proof. intros Hn. apply (expandSeries2_loop_samples l fuel (0, 0) []), Hn. Qed.

(** ** promSeriesSet.Next *)

Lemma StronglySorted_sublist {A : Type} (R : relation A) (l1 l2 : list A) :
  sublist l1 l2 -> StronglySorted R l2 -> StronglySorted R l1.
Proof.
  induction 1 as [|x l1 l2 Hsub IH|x l1 l2 Hsub IH]; intros Hs.
  - constructor.
  - apply StronglySorted_inv in Hs as [Hs Hall]. constructor; [now apply IH|].
    rewrite Forall_forall in *. intros y Hy. apply Hall.
    exact (elem_of_sublist _ _ _ Hy Hsub).
  - apply StronglySorted_inv in Hs as [Hs _]. now apply IH.
Qed.

Lemma removeExactDuplicates_sublist (String : storepb.AggrChunk -> string)
  (chks : list storepb.AggrChunk) :
  sublist (removeExactDuplicates String chks) chks.
Proof.
  destruct chks as [|c chks]; [constructor|].
  rewrite removeExactDuplicates_cons. apply sublist_skip, kept_sublist.
Qed.

Lemma removeExactDuplicates_no_neighbours (String : storepb.AggrChunk -> string)
  (chks : list storepb.AggrChunk) :
  forall j x y, removeExactDuplicates String chks !! j = Some x ->
    removeExactDuplicates String chks !! S j = Some y -> String x <> String y.
Proof.
  destruct chks as [|c chks]; [intros j x y Hx; discriminate Hx|].
  rewrite removeExactDuplicates_cons. apply kept_no_neighbours.
Qed.

Section promSeriesSet_Next.
Context (CompareLabels : list storepb.Label -> list storepb.Label -> Z).
Context (sort_Slice : (storepb.AggrChunk -> storepb.AggrChunk -> bool) ->
                      list storepb.AggrChunk -> list storepb.AggrChunk).
Context (String : storepb.AggrChunk -> string).

(** The gathering loop over a [storeSeriesSet] that is on the series
    [k]. *)
Lemma Next_loop_store (series : list storeSeriesSet.Series) (n : nat) :
  forall (k : nat) (lset : list storepb.Label) (chks : list storepb.AggrChunk),
    (k < length series)%nat -> (length series <= n + k)%nat ->
    let run := same_series CompareLabels lset (drop (S k) series) in
    promSeriesSet.Next_loop CompareLabels n (storeSeriesSet.mk series (Z.of_nat k)) lset chks
    = Ok (storeSeriesSet.mk series
            (Z.of_nat (Nat.min (k + 1 + length run) (length series - 1))),
          bool_decide (k + 1 + length run < length series)%nat,
          chks ++ concat (map storeSeriesSet.Chunks run)).
Proof.
  induction n as [|n IH]; intros k lset chks Hk Hn; [lia|].
  cbn zeta. cbn [promSeriesSet.Next_loop SeriesSet_Next storeSeriesSet_set].
  unfold storeSeriesSet.Next. cbn [storeSeriesSet.i storeSeriesSet.series].
  destruct (Z.geb_spec (Z.of_nat k) (Z.of_nat (length series) - 1)) as [Hend|Hmore].
  - cbn [negb]. rewrite drop_ge by lia. cbn [same_series length map concat].
    rewrite app_nil_r, bool_decide_false by lia.
    replace (Nat.min (k + 1 + 0) (length series - 1)) with k by lia. reflexivity.
  - cbn [negb].
    change (SeriesSet_At (storeSeriesSet.mk series (Z.of_nat k + 1)))
      with (storeSeriesSet.At (storeSeriesSet.mk series (Z.of_nat k + 1))).
    unfold storeSeriesSet.At. cbn [storeSeriesSet.i storeSeriesSet.series].
    destruct (Z.ltb_spec (Z.of_nat k + 1) 0) as [|_]; [lia|].
    replace (Z.to_nat (Z.of_nat k + 1)) with (S k) by lia.
    destruct (series !! S k) as [x|] eqn:Hx.
    2:{ apply lookup_ge_None in Hx. lia. }
    cbn [mbind res_bind]. rewrite (drop_S _ _ _ Hx). cbn [same_series].
    destruct (CompareLabels lset (storeSeriesSet.Labels x) =? 0); cbn [negb].
    + replace (Z.of_nat k + 1) with (Z.of_nat (S k)) by lia.
      rewrite IH by lia. cbn zeta. cbn [length map concat].
      rewrite <- app_assoc.
      replace (S k + 1 + length (same_series CompareLabels lset (drop (S (S k)) series)))%nat
        with (k + 1 + S (length (same_series CompareLabels lset (drop (S (S k)) series))))%nat
        by lia.
      reflexivity.
    + cbn [length map concat]. rewrite app_nil_r, bool_decide_true by lia.
      replace (Nat.min (k + 1 + 0) (length series - 1)) with (S k) by lia.
      replace (Z.of_nat k + 1) with (Z.of_nat (S k)) by lia. reflexivity.
Qed.

(** One [Next] of a [promSeriesSet] that is on the partial series [k]
    of a [storeSeriesSet]: it takes the labels of that partial series, and
    gathers its chunks and the chunks of the partial series after it that
    compare equal to these labels, up to the first one that does not; the
    chunks are sorted by their start and neighbours with the same
    rendering are removed.  The input is left on the first partial series
    that was not gathered, and [done] says whether there is one. *)
Lemma promSeriesSet_Next_gathers (fuel : nat) (series : list storeSeriesSet.Series)
  (k : nat) (x : storeSeriesSet.Series) (s : promSeriesSet.t storeSeriesSet.t) :
  series !! k = Some x ->
  promSeriesSet.set s = storeSeriesSet.mk series (Z.of_nat k) ->
  promSeriesSet.initiated s = true ->
  promSeriesSet.done s = true ->
  (length series <= fuel + k)%nat ->
  let run := same_series CompareLabels (storeSeriesSet.Labels x) (drop (S k) series) in
  promSeriesSet.Next CompareLabels sort_Slice String fuel s
  = Ok (true,
        promSeriesSet.mk
          (storeSeriesSet.mk series
             (Z.of_nat (Nat.min (k + 1 + length run) (length series - 1))))
          (bool_decide (k + 1 + length run < length series)%nat)
          (promSeriesSet.mint s) (promSeriesSet.maxt s) (promSeriesSet.aggrs s) true
          (storeSeriesSet.Labels x)
          (removeExactDuplicates String
             (sort_Slice less_MinTime
                (storeSeriesSet.Chunks x ++ concat (map storeSeriesSet.Chunks run))))).
Proof.
  intros Hx Hset Hinit Hdone Hfuel. cbn zeta.
  pose proof (lookup_lt_Some _ _ _ Hx) as Hk.
  unfold promSeriesSet.Next. rewrite Hinit. cbn [negb]. rewrite Hdone. cbn [negb].
  rewrite Hset.
  change (SeriesSet_At (storeSeriesSet.mk series (Z.of_nat k)))
    with (storeSeriesSet.At (storeSeriesSet.mk series (Z.of_nat k))).
  unfold storeSeriesSet.At. cbn [storeSeriesSet.i storeSeriesSet.series].
  destruct (Z.ltb_spec (Z.of_nat k) 0) as [|_]; [lia|].
  rewrite Nat2Z.id, Hx. cbn [mbind res_bind].
  rewrite Next_loop_store by assumption. reflexivity.
Qed.

(** The first [Next] of a [promSeriesSet] over a [storeSeriesSet]
    that has not been read: without partial series it answers false, and
    otherwise it gathers the series that begins with the first partial
    series.  In both cases the set is initiated afterwards. *)
Lemma promSeriesSet_Next_first (fuel : nat) (series : list storeSeriesSet.Series)
  (s : promSeriesSet.t storeSeriesSet.t) :
  promSeriesSet.set s = newStoreSeriesSet series ->
  promSeriesSet.initiated s = false ->
  (length series <= fuel)%nat ->
  promSeriesSet.Next CompareLabels sort_Slice String fuel s
  = match series with
    | [] =>
      Ok (false,
          promSeriesSet.mk (newStoreSeriesSet []) false
            (promSeriesSet.mint s) (promSeriesSet.maxt s) (promSeriesSet.aggrs s) true
            (promSeriesSet.currLset s) (promSeriesSet.currChunks s))
    | x :: rest =>
      let run := same_series CompareLabels (storeSeriesSet.Labels x) rest in
      Ok (true,
          promSeriesSet.mk
            (storeSeriesSet.mk series (Z.of_nat (Nat.min (1 + length run) (length rest))))
            (bool_decide (length run < length rest)%nat)
            (promSeriesSet.mint s) (promSeriesSet.maxt s) (promSeriesSet.aggrs s) true
            (storeSeriesSet.Labels x)
            (removeExactDuplicates String
               (sort_Slice less_MinTime
                  (storeSeriesSet.Chunks x ++ concat (map storeSeriesSet.Chunks run)))))
    end.
Proof.
  intros Hset Hinit Hfuel. unfold promSeriesSet.Next. rewrite Hinit, Hset. cbn [negb].
  cbn [SeriesSet_Next storeSeriesSet_set]. unfold newStoreSeriesSet, storeSeriesSet.Next.
  cbn [storeSeriesSet.i storeSeriesSet.series].
  destruct series as [|x rest].
  - reflexivity.
  - destruct (Z.geb_spec (-1) (Z.of_nat (length (x :: rest)) - 1)) as [Hend|_].
    { cbn [length] in Hend. lia. }
    cbn [promSeriesSet.done promSeriesSet.set promSeriesSet.mint promSeriesSet.maxt
         promSeriesSet.aggrs negb].
    change (SeriesSet_At (storeSeriesSet.mk (x :: rest) (-1 + 1)))
      with (storeSeriesSet.At (storeSeriesSet.mk (x :: rest) 0)).
    unfold storeSeriesSet.At. cbn [storeSeriesSet.i storeSeriesSet.series].
    change (0 <? 0) with false. cbn iota.
    change ((x :: rest) !! Z.to_nat 0) with (Some x). cbn [mbind res_bind].
    change (-1 + 1) with (Z.of_nat 0).
    rewrite Next_loop_store by (cbn [length] in *; lia). cbn zeta.
    cbn [mbind res_bind].
    cbn [drop length]. rewrite drop_0.
    replace (S (length rest) - 1)%nat with (length rest) by lia.
    replace (0 + 1 + length (same_series CompareLabels (storeSeriesSet.Labels x) rest))%nat
      with (1 + length (same_series CompareLabels (storeSeriesSet.Labels x) rest))%nat
      by lia.
    replace (bool_decide (1 + length (same_series CompareLabels (storeSeriesSet.Labels x) rest)
                          < S (length rest))%nat)
      with (bool_decide (length (same_series CompareLabels (storeSeriesSet.Labels x) rest)
                         < length rest)%nat)
      by (apply bool_decide_ext; lia).
    reflexivity.
Qed.

Lemma same_series_length (lset : list storepb.Label) (l : list storeSeriesSet.Series) :
  (length (same_series CompareLabels lset l) <= length l)%nat.
Proof.
  induction l as [|y l IHl]; cbn; [lia|].
  destruct (CompareLabels lset (storeSeriesSet.Labels y) =? 0); cbn; lia.
Qed.

Lemma gather_from_same_series (lset : list storepb.Label) (l : list storeSeriesSet.Series) :
  forall chks,
    gather_from CompareLabels lset chks l
    = (lset, chks ++ concat (map storeSeriesSet.Chunks (same_series CompareLabels lset l)))
      :: gather CompareLabels (drop (length (same_series CompareLabels lset l)) l).
Proof.
  induction l as [|x l IH]; intros chks; cbn [gather_from same_series].
  - cbn. now rewrite app_nil_r.
  - destruct (CompareLabels lset (storeSeriesSet.Labels x) =? 0).
    + rewrite IH. cbn [length map concat drop]. now rewrite <- app_assoc.
    + cbn. now rewrite app_nil_r.
Qed.

Lemma promSeriesSet_lists_from (series : list storeSeriesSet.Series) (fuel m : nat) :
  (length series <= fuel)%nat ->
  forall (k : nat) (s : promSeriesSet.t storeSeriesSet.t),
    (length series - k <= m)%nat ->
    promSeriesSet.set s = storeSeriesSet.mk series (Z.of_nat k) ->
    promSeriesSet.initiated s = true ->
    promSeriesSet.done s = true ->
    (k < length series)%nat ->
    @lists _ _ (promSeriesSet_set CompareLabels sort_Slice String) fuel s
      (map (finished sort_Slice String (promSeriesSet.mint s) (promSeriesSet.maxt s) (promSeriesSet.aggrs s))
         (gather CompareLabels (drop k series))).
Proof.
  intros Hfuel. induction m as [|m IH]; intros k s Hm Hset Hinit Hdone Hk; [lia|].
  destruct (lookup_lt_is_Some_2 _ _ Hk) as [x Hx].
  pose proof (promSeriesSet_Next_gathers fuel series k x s Hx Hset Hinit Hdone
                ltac:(lia)) as Hnext.
  cbn zeta in Hnext.
  rewrite (drop_S _ _ _ Hx). cbn [gather]. rewrite gather_from_same_series.
  set (run := same_series CompareLabels (storeSeriesSet.Labels x) (drop (S k) series)) in *.
  cbn [map]. rewrite drop_drop.
  assert (Hrun : (S k + length run <= length series)%nat).
  { pose proof (same_series_length (storeSeriesSet.Labels x) (drop (S k) series)) as Hl.
    rewrite length_drop in Hl. fold run in Hl. lia. }
  eapply lists_next.
  - exact Hnext.
  - reflexivity.
  - destruct (decide (k + 1 + length run < length series)%nat) as [Hmore|Hlast].
    + rewrite bool_decide_true by exact Hmore.
      replace (Nat.min (k + 1 + length run) (length series - 1))
        with (S k + length run)%nat by lia.
      match goal with
      | |- lists _ ?s' _ => apply (IH (S k + length run)%nat s')
      end; cbn; try reflexivity; lia.
    + rewrite bool_decide_false by exact Hlast.
      rewrite drop_ge by lia. cbn [gather map].
      eapply lists_end. reflexivity.
Qed.

(** X21. A [promSeriesSet] over a [storeSeriesSet] that has not been read
    gives the series that the partial series stand for, in order: the
    partial series that follow each other and compare equal to the labels of
    the first of them are one series, with the labels of that first one and
    with the chunks of all of them, sorted by their start and without
    neighbours of the same rendering; then it ends. *)
Theorem promSeriesSet_lists_series (series : list storeSeriesSet.Series) (fuel : nat)
  (s : promSeriesSet.t storeSeriesSet.t) :
  promSeriesSet.set s = newStoreSeriesSet series ->
  promSeriesSet.initiated s = false ->
  (length series <= fuel)%nat ->
  @lists _ _ (promSeriesSet_set CompareLabels sort_Slice String) fuel s
    (map (finished sort_Slice String (promSeriesSet.mint s) (promSeriesSet.maxt s) (promSeriesSet.aggrs s))
       (gather CompareLabels series)).
Proof.
  intros Hset Hinit Hfuel.
  pose proof (promSeriesSet_Next_first fuel series s Hset Hinit Hfuel) as Hnext.
  destruct series as [|x rest].
  - eapply lists_end. exact Hnext.
  - cbn zeta in Hnext. cbn [gather]. rewrite gather_from_same_series.
    set (run := same_series CompareLabels (storeSeriesSet.Labels x) rest) in *.
    cbn [map].
    assert (Hrun : (length run <= length rest)%nat).
    { apply same_series_length. }
    eapply lists_next.
    + exact Hnext.
    + reflexivity.
    + destruct (decide (length run < length rest)%nat) as [Hmore|Hlast].
      * rewrite bool_decide_true by exact Hmore.
        replace (Nat.min (1 + length run) (length rest)) with (S (length run)) by lia.
        match goal with
        | |- lists _ ?s' _ =>
          apply (promSeriesSet_lists_from (x :: rest) fuel (length rest) Hfuel
                   (S (length run)) s')
        end; cbn; try reflexivity; lia.
      * rewrite bool_decide_false by exact Hlast.
        rewrite drop_ge by lia. cbn [gather map].
        eapply lists_end. reflexivity.
Qed.

Section any_input.
Context {T : Type} `{SeriesSet T}.

(** X22. Whatever the input set is: when [Next] succeeds and [sort.Slice]
    sorts, the chunks of the current series are in the order of their
    start times and no two neighbours have the same rendering; the set is
    initiated, and its time range and its request are what they were. *)
Theorem promSeriesSet_Next_sorted (fuel : nat) (s s' : promSeriesSet.t T) :
  sorts sort_Slice ->
  promSeriesSet.Next CompareLabels sort_Slice String fuel s = Ok (true, s') ->
  StronglySorted (fun a b => storepb.MinTime a <= storepb.MinTime b)
    (promSeriesSet.currChunks s')
  /\ (forall j x y, promSeriesSet.currChunks s' !! j = Some x ->
        promSeriesSet.currChunks s' !! S j = Some y -> String x <> String y)
  /\ promSeriesSet.initiated s' = true
  /\ promSeriesSet.mint s' = promSeriesSet.mint s
  /\ promSeriesSet.maxt s' = promSeriesSet.maxt s
  /\ promSeriesSet.aggrs s' = promSeriesSet.aggrs s.
Proof.
  intros Hsorts. unfold promSeriesSet.Next.
  set (s1 := if negb (promSeriesSet.initiated s) then _ else s).
  assert (Hs1 : promSeriesSet.mint s1 = promSeriesSet.mint s
                /\ promSeriesSet.maxt s1 = promSeriesSet.maxt s
                /\ promSeriesSet.aggrs s1 = promSeriesSet.aggrs s).
  { unfold s1. destruct (promSeriesSet.initiated s); cbn [negb]; [auto|].
    destruct (SeriesSet_Next (promSeriesSet.set s)). auto. }
  destruct Hs1 as (Hmint & Hmaxt & Haggrs).
  destruct (promSeriesSet.done s1); cbn [negb]; [|discriminate].
  destruct (SeriesSet_At (promSeriesSet.set s1)) as [[lset chks]| |];
    cbn [mbind res_bind]; try discriminate.
  destruct (promSeriesSet.Next_loop _ _ _ _ _) as [[[set2 done2] chks2]| |];
    cbn [mbind res_bind]; try discriminate.
  intros [= <-]. cbn [promSeriesSet.currChunks promSeriesSet.initiated promSeriesSet.mint
                      promSeriesSet.maxt promSeriesSet.aggrs].
  split; [|split; [|auto]].
  - eapply StronglySorted_sublist; [apply removeExactDuplicates_sublist|].
    apply (Hsorts chks2).
  - apply removeExactDuplicates_no_neighbours.
Qed.
End any_input.
End promSeriesSet_Next.

(** ** dedupSeriesSet *)

Lemma peekLset_long (s : dedupSeriesSet.t) :
  (size (dedupSeriesSet.replicaLabels s) <= length (dedupSeriesSet.peek s))%nat ->
  exists l, dedupSeriesSet.peekLset s = Ok l.
Proof.
  intros Hlong. unfold dedupSeriesSet.peekLset.
  case_bool_decide as Hn; [eexists; reflexivity|].
  rewrite (peekLset_loop_counts s _ _ 0) by lia. cbn [mbind res_bind].
  rewrite drop_0.
  pose proof (replica_count_le (dedupSeriesSet.replicaLabels s)
                (take (size (dedupSeriesSet.replicaLabels s))
                   (reverse (dedupSeriesSet.peek s)))) as Hle.
  rewrite length_take, length_reverse in Hle.
  set (k := replica_count _ _) in *.
  destruct (Z.ltb_spec (Z.of_nat (length (dedupSeriesSet.peek s)) - (0 + Z.of_nat k)) 0);
    [lia|].
  destruct (Z.gtb_spec (Z.of_nat (length (dedupSeriesSet.peek s)) - (0 + Z.of_nat k))
              (Z.of_nat (length (dedupSeriesSet.peek s)))); [lia|].
  eexists. reflexivity.
Qed.

Section dedupSeriesSet_reading.
Context {T X : Type} `{storage_set.SeriesSet T X} `{storage_set.Series X}.
Context (R : gset string) (fuel : nat).

Lemma members_At (s : dedupSeriesSet.state.t T X) :
  members (dedupSeriesSet.At s) = dedupSeriesSet.state.replicas s
  /\ storage_set.Labels (dedupSeriesSet.At s) = dedupSeriesSet.state.lset s.
Proof.
  unfold dedupSeriesSet.At.
  destruct (dedupSeriesSet.state.replicas s) as [|x [|y l]]; split; reflexivity.
Qed.

(** [next] gathers the series at the head of the input whose label sets,
    without the replica labels, are the current one. *)
Lemma next_gathers (rest : list X) :
  forall (n : nat) (s : dedupSeriesSet.state.t T X),
    lists fuel (dedupSeriesSet.state.set s) rest ->
    Forall (fun x => size R <= length (storage_set.Labels x))%nat rest ->
    dedupSeriesSet.state.replicaLabels s = R ->
    dedupSeriesSet.state.replicas s <> [] ->
    (length rest < n)%nat ->
    exists run rest' s',
      dedupSeriesSet.next n fuel s = Ok (true, s')
      /\ rest = run ++ rest'
      /\ Forall (fun x => stripped R x = Ok (dedupSeriesSet.state.lset s)) run
      /\ dedupSeriesSet.state.replicas s'
         = dedupSeriesSet.state.replicas s ++ map Some run
      /\ dedupSeriesSet.state.lset s' = dedupSeriesSet.state.lset s
      /\ dedupSeriesSet.state.replicaLabels s' = R
      /\ match rest' with
         | [] => dedupSeriesSet.state.ok s' = false
         | y :: rest'' =>
           dedupSeriesSet.state.ok s' = true
           /\ dedupSeriesSet.state.peek s' = Some y
           /\ lists fuel (dedupSeriesSet.state.set s') rest''
           /\ stripped R y <> Ok (dedupSeriesSet.state.lset s)
         end.
Proof.
  induction rest as [|y rest IH]; intros n s Hlists Hlong HR Hrepl Hn;
    (destruct n as [|n]; [cbn in Hn; lia|]); cbn [dedupSeriesSet.next].
  - inversion Hlists as [s0 set1 Hnext|]; subst. rewrite Hnext. cbn [mbind res_bind negb].
    exists [], [], (dedupSeriesSet.state.mk set1 (dedupSeriesSet.state.replicaLabels s)
                      (dedupSeriesSet.state.replicas s) (dedupSeriesSet.state.lset s)
                      (dedupSeriesSet.state.peek s) false).
    split.
    { destruct (dedupSeriesSet.state.replicas s); [contradiction|]. reflexivity. }
    cbn. rewrite app_nil_r. repeat split; constructor.
  - inversion Hlists as [|s0 set1 y0 rest0 Hnext Hat Hrest]; subst.
    rewrite Hnext. cbn [mbind res_bind negb]. rewrite Hat. cbn [mbind res_bind].
    apply Forall_cons in Hlong as [Hy Hlong].
    unfold dedupSeriesSet.peekLset_of at 1. cbn [dedupSeriesSet.state.peek
      dedupSeriesSet.state.replicaLabels dedupSeriesSet.state.lset].
    destruct (peekLset_long (dedupSeriesSet.mk (dedupSeriesSet.state.replicaLabels s)
                               (storage_set.Labels y))) as [ly Hly]; [exact Hy|].
    rewrite Hly. cbn [mbind res_bind].
    case_bool_decide as Heq; cbn [negb].
    + set (s2 := dedupSeriesSet.state.mk set1 (dedupSeriesSet.state.replicaLabels s)
                   (dedupSeriesSet.state.replicas s ++ [Some y])
                   (dedupSeriesSet.state.lset s) (Some y) true).
      destruct (IH n s2) as (run & rest' & s' & Hn' & Hsplit & Hrun & Hrepl' & Hl' & HR' & Hpeek).
      { exact Hrest. }
      { exact Hlong. }
      { reflexivity. }
      { cbn. intros Happ. now apply app_eq_nil in Happ as [_ [=]]. }
      { cbn in Hn. lia. }
      exists (y :: run), rest', s'. cbn in Hrepl', Hl', Hrun, Hpeek.
      split; [exact Hn'|]. split; [now rewrite Hsplit|].
      split; [constructor; [unfold stripped; now rewrite Hly, Heq|exact Hrun]|].
      split; [rewrite Hrepl', <- app_assoc; reflexivity|].
      split; [exact Hl'|]. split; [exact HR'|exact Hpeek].
    + eexists [], (y :: rest), _. split; [reflexivity|]. cbn.
      rewrite app_nil_r. repeat split; try constructor; try assumption.
      unfold stripped. rewrite Hly. intros [= ->]. now apply Heq.
Qed.

(** The reading of a set that holds the series [y] as its next one. *)
Lemma series_all_groups (n : nat) :
  forall (s : dedupSeriesSet.state.t T X) (y : X) (rest : list X),
    dedupSeriesSet.state.ok s = true ->
    dedupSeriesSet.state.peek s = Some y ->
    dedupSeriesSet.state.replicaLabels s = R ->
    lists fuel (dedupSeriesSet.state.set s) rest ->
    Forall (fun x => size R <= length (storage_set.Labels x))%nat (y :: rest) ->
    (length rest < fuel)%nat -> (S (length rest) < n)%nat ->
    exists g gs,
      series_all n fuel s = Ok (map Some (g :: gs))
      /\ concat (map members (g :: gs)) = map Some (y :: rest)
      /\ Forall (fun g => members g <> []
                   /\ forall x, Some x ∈ members g ->
                        stripped R x = Ok (storage_set.Labels g)) (g :: gs)
      /\ (forall j g1 g2, (g :: gs) !! j = Some g1 -> (g :: gs) !! S j = Some g2 ->
            storage_set.Labels g1 <> storage_set.Labels g2)
      /\ stripped R y = Ok (storage_set.Labels g).
Proof.
  induction n as [|n IH]; intros s y rest Hok Hpeek HR Hlists Hlong Hfuel Hn; [lia|].
  cbn [series_all].
  change (storage_set.Next fuel s) with (dedupSeriesSet.Next fuel s).
  unfold dedupSeriesSet.Next. rewrite Hok. cbn [negb].
  unfold dedupSeriesSet.peekLset_of at 1. rewrite Hpeek, HR.
  pose proof Hlong as Hlong0. apply Forall_cons in Hlong as [Hy Hlong].
  destruct (peekLset_long (dedupSeriesSet.mk R (storage_set.Labels y))) as [l Hl];
    [exact Hy|].
  rewrite Hl. cbn [mbind res_bind].
  set (s1 := dedupSeriesSet.state.mk (dedupSeriesSet.state.set s) R [Some y] l (Some y) true).
  destruct (next_gathers rest fuel s1) as
    (run & rest' & s' & Hnext & Hsplit & Hrun & Hrepl & Hlset & HR' & Hpeek');
    [exact Hlists|exact Hlong|reflexivity|discriminate|exact Hfuel|].
  cbn in Hrepl, Hlset, Hrun, Hpeek'. rewrite Hnext. cbn [mbind res_bind negb].
  change (storage_set.At s') with (Ok (Some (dedupSeriesSet.At s'))).
  cbn [mbind res_bind].
  destruct (members_At s') as [Hmem Hlab]. rewrite Hrepl in Hmem. rewrite Hlset in Hlab.
  assert (Hgood : members (dedupSeriesSet.At s') <> []
                  /\ forall x, Some x ∈ members (dedupSeriesSet.At s') ->
                       stripped R x = Ok (storage_set.Labels (dedupSeriesSet.At s'))).
  { split; [rewrite Hmem; discriminate|].
    intros x Hx. rewrite Hmem in Hx. rewrite Hlab.
    cbn [app] in Hx. apply elem_of_cons in Hx as [[= ->]|Hx]; [exact Hl|].
    apply (list_elem_of_fmap (B := option X) Some) in Hx as (x0 & [= <-] & Hx0).
    rewrite Forall_forall in Hrun. now apply Hrun. }
  destruct rest' as [|y' rest''].
  - (* the input has ended *)
    destruct n as [|n]; [lia|]. cbn [series_all].
    change (storage_set.Next fuel s') with (dedupSeriesSet.Next fuel s').
    unfold dedupSeriesSet.Next. rewrite Hpeek'. cbn [negb mbind res_bind].
    exists (dedupSeriesSet.At s'), []. split; [reflexivity|].
    rewrite app_nil_r in Hsplit. subst run.
    split; [cbn; now rewrite app_nil_r, Hmem|].
    split; [constructor; [exact Hgood|constructor]|].
    split; [intros [|j] g1 g2 Hg1 Hg2; discriminate Hg2|].
    now rewrite Hlab.
  - destruct Hpeek' as (Hok' & Hpk' & Hlists' & Hdiff).
    assert (Hlen : length rest = (length run + S (length rest''))%nat).
    { rewrite Hsplit, length_app. reflexivity. }
    destruct (IH s' y' rest'') as (g' & gs' & Hall & Hconcat & Hgoods & Hadj & Hhead).
    { exact Hok'. }
    { exact Hpk'. }
    { exact HR'. }
    { exact Hlists'. }
    { rewrite Hsplit in Hlong. apply Forall_app in Hlong as [_ Hlong]. exact Hlong. }
    { lia. }
    { lia. }
    rewrite Hall. cbn [mbind res_bind].
    exists (dedupSeriesSet.At s'), (g' :: gs'). split; [reflexivity|].
    split.
    { cbn [map concat] in *. rewrite Hconcat, Hmem, Hsplit.
      cbn. now rewrite map_app. }
    split; [constructor; [exact Hgood|exact Hgoods]|].
    split.
    { intros [|j] g1 g2 Hg1 Hg2.
      - cbn in Hg1, Hg2. injection Hg1 as <-. injection Hg2 as <-.
        rewrite Hlab. intros Heq. apply Hdiff. now rewrite Hhead, Heq.
      - apply (Hadj j); assumption. }
    now rewrite Hlab.
Qed.

(** X23. A [dedupSeriesSet] over an input that gives the series [xs], all
    with label sets that are not shorter than the set of replica label
    names: reading it to its end gives series that stand for the series of
    [xs], each once and in order; each of them stands for one series at
    least, and all the series behind it have its label set once [peekLset]
    has cut the replica labels off; and two series that follow each other
    have different label sets. *)
Theorem dedupSeriesSet_groups (set0 : T) (xs : list X) (n : nat) :
  lists fuel set0 xs ->
  Forall (fun x => size R <= length (storage_set.Labels x))%nat xs ->
  (length xs <= fuel)%nat -> (S (length xs) <= n)%nat ->
  exists s0 gs,
    newDedupSeriesSet fuel set0 R = Ok s0
    /\ series_all n fuel s0 = Ok (map Some gs)
    /\ concat (map members gs) = map Some xs
    /\ Forall (fun g => members g <> []
                 /\ forall x, Some x ∈ members g ->
                      stripped R x = Ok (storage_set.Labels g)) gs
    /\ (forall j g1 g2, gs !! j = Some g1 -> gs !! S j = Some g2 ->
          storage_set.Labels g1 <> storage_set.Labels g2).
Proof.
  intros Hlists Hlong Hfuel Hn. unfold newDedupSeriesSet.
  inversion Hlists as [s set1 Hnext|s set1 y rest Hnext Hat Hrest]; subst.
  - rewrite Hnext. cbn [mbind res_bind].
    eexists. exists []. split; [reflexivity|].
    destruct n as [|n]; [cbn in Hn; lia|].
    split; [reflexivity|]. split; [reflexivity|]. split; [constructor|].
    intros j g1 g2 Hg1. discriminate Hg1.
  - rewrite Hnext. cbn [mbind res_bind]. rewrite Hat. cbn [mbind res_bind].
    eexists.
    destruct (series_all_groups n
                (dedupSeriesSet.state.mk set1 R [] [] (Some y) true) y rest)
      as (g & gs & Hall & Hconcat & Hgood & Hadj & _);
      try reflexivity; try assumption; cbn [length] in *; try lia.
    exists (g :: gs). split; [reflexivity|]. repeat split; assumption.
Qed.
End dedupSeriesSet_reading.

(** X24. A [dedupSeriesSet] over a [promSeriesSet] whose input reports an
    error after a [Next] that succeeded: [At] of the [promSeriesSet] is the
    nil series then, the new set keeps it as its [peek], and its first
    [Next] panics on the labels of the nil series. *)
Theorem dedupSeriesSet_over_failing_input {T : Type} `{SeriesSet T}
  (CompareLabels : list storepb.Label -> list storepb.Label -> Z)
  (sort_Slice : (storepb.AggrChunk -> storepb.AggrChunk -> bool) ->
                list storepb.AggrChunk -> list storepb.AggrChunk)
  (String : storepb.AggrChunk -> string)
  (s s1 : promSeriesSet.t T) (R : gset string) (fuel fuel' : nat) :
  promSeriesSet.Next CompareLabels sort_Slice String fuel s = Ok (true, s1) ->
  SeriesSet_Err (promSeriesSet.set s1) <> None ->
  exists s0,
    @newDedupSeriesSet _ _ (promSeriesSet_set CompareLabels sort_Slice String) fuel s R
    = Ok s0
    /\ dedupSeriesSet.state.ok s0 = true
    /\ dedupSeriesSet.state.peek s0 = None
    /\ @dedupSeriesSet.Next _ _ (promSeriesSet_set CompareLabels sort_Slice String) _
         fuel' s0 = Panic.
Proof.
  intros Hnext Herr. unfold newDedupSeriesSet.
  cbn [storage_set.Next storage_set.At promSeriesSet_set]. rewrite Hnext.
  cbn [mbind res_bind].
  assert (Hat : promSeriesSet.At s1 = None).
  { unfold promSeriesSet.At. rewrite (bool_decide_true _ Herr), orb_true_r.
    reflexivity. }
  rewrite Hat. eexists. split; [reflexivity|]. repeat split.
Qed.

(** ** The pairwise cursor over a bounded side *)

Section dedup_one_side.
Context {B : Type} `{storage.SeriesIterator B}.
Context (mint maxt : Z) (fuel : nat).

Lemma dedup_one_side_loop (n : nat) :
  forall (it : chunkSeriesIterator.t xorIterator.t) (cu : sample) (l : list sample)
         (b1 : B) (penB : Z),
    on_sample it cu l -> 0 <= fst cu < MaxInt64 -> mint <= fst cu ->
    increasing_from (fst cu) l ->
    (remaining it <= fuel)%nat -> (remaining it < n)%nat ->
    samples_loop n fuel
      (dedupSeriesIterator.mk (boundedSeriesIterator.mk it mint maxt) b1
         true false (fst cu) 0 penB true)
    = Ok (if fst cu <? maxt then through maxt l else []).
Proof.
  induction n as [|n IH]; intros it cu l b1 penB Hon Hcu Hmint Hinc Hfuel Hn; [lia|].
  cbn [samples_loop].
  change (storage.Next fuel (dedupSeriesIterator.mk ?a ?b ?c ?d ?e ?f ?g ?h))
    with (dedupSeriesIterator.Next fuel (dedupSeriesIterator.mk a b c d e f g h)).
  unfold dedupSeriesIterator.Next.
  cbn [dedupSeriesIterator.aok dedupSeriesIterator.bok dedupSeriesIterator.a
       dedupSeriesIterator.b dedupSeriesIterator.lastT dedupSeriesIterator.penA
       dedupSeriesIterator.penB].
  rewrite add64_target by (unfold MinInt64, MaxInt64 in *; lia).
  rewrite Z.add_0_r.
  change (storage.Seek fuel (fst cu + 1) (boundedSeriesIterator.mk it mint maxt))
    with (boundedSeriesIterator.Seek fuel (fst cu + 1)
            (boundedSeriesIterator.mk it mint maxt)).
  unfold boundedSeriesIterator.Seek.
  cbn [boundedSeriesIterator.it boundedSeriesIterator.mint boundedSeriesIterator.maxt].
  destruct (Z.gtb_spec (fst cu + 1) maxt) as [Hpast|Hin].
  { cbn [mbind res_bind negb]. destruct (Z.ltb_spec (fst cu) maxt); [lia|reflexivity]. }
  destruct (Z.ltb_spec (fst cu) maxt) as [_|]; [|lia].
  destruct (Z.ltb_spec (fst cu + 1) mint) as [|_]; [lia|].
  change (storage.Seek fuel (fst cu + 1) it)
    with (chunkSeriesIterator.Seek fuel (fst cu + 1) it).
  pose proof (proj2 (chunkSeriesIterator_next_sample fuel) (fst cu + 1) it cu l Hon Hcu Hinc
                ltac:(lia)) as Hseek.
  destruct l as [|s l].
  - destruct Hseek as [it' Hseek]; [exact I|exact Hfuel|].
    rewrite Hseek. reflexivity.
  - destruct Hinc as (Hlo & Hhi & Hinc).
    destruct Hseek as (it' & Hseek & Hon' & Hrem'); [lia|exact Hfuel|].
    rewrite Hseek. cbn [mbind res_bind negb].
    change (storage.At (boundedSeriesIterator.mk it' mint maxt))
      with (chunkSeriesIterator.At it').
    rewrite (on_sample_At _ _ _ Hon'). destruct s as [ts v] eqn:Hs.
    cbn [mbind res_bind negb fst] in *.
    change (storage.At (dedupSeriesIterator.mk ?a ?b ?c ?d ?e ?f ?g true))
      with (storage.At a).
    change (storage.At (boundedSeriesIterator.mk it' mint maxt))
      with (chunkSeriesIterator.At it').
    rewrite (on_sample_At _ _ _ Hon'). cbn [mbind res_bind].
    pose proof (IH it' (ts, v) l b1 penB Hon') as Hrest. cbn [fst] in Hrest.
    rewrite Hrest; try lia; try assumption. reflexivity.
Qed.

(** X15. The pairwise cursor over a bounded cursor and a side that is at
    its end.  With [mint] above zero it gives the samples of the bounded
    side from [mint] on, and it stops after the first one that is at or
    after [maxt]: a sample after [maxt] is given when no sample is at
    [maxt], since the pairwise cursor advances its sides with [Seek], and
    [Seek] of the bounded cursor does not look at [maxt] once it has found a
    sample. *)
Theorem dedup_one_side_passes_maxt (cs : list (list sample)) (b b1 : B) :
  cs <> [] ->
  increasing_from 0 (concat cs) ->
  0 < mint -> MinInt64 < maxt ->
  storage.Seek fuel (MinInt64 + 1) b = Ok (false, b1) ->
  (work (map xorIterator.of_samples cs) < fuel)%nat ->
  samples fuel (newDedupSeriesIterator (seriesCursor mint maxt cs) b)
  = Ok (through maxt (skip_before mint (concat cs))).
Proof.
  intros Hne Hinc Hmint Hmaxt Hb Hfuel. destruct cs as [|c0 cs]; [contradiction|].
  assert (Hon : on_sample (ofChunks (c0 :: cs)) (0, 0) (concat (c0 :: cs))).
  { exists [], (xorIterator.of_samples c0), (map xorIterator.of_samples cs).
    repeat split.
    - apply Forall_fmap, Forall_true. intros c. repeat split.
    - cbn. f_equal. rewrite map_map. cbn. now rewrite map_id. }
  assert (Hrem : remaining (ofChunks (c0 :: cs))
                 = work (map xorIterator.of_samples (c0 :: cs))) by reflexivity.
  assert (Hf : exists n, fuel = S n) by (destruct fuel; [lia|eauto]).
  destruct Hf as [n Hf].
  unfold samples, newDedupSeriesIterator, seriesCursor, newBoundedSeriesIterator.
  rewrite Hf at 1. cbn [samples_loop].
  change (storage.Next fuel (dedupSeriesIterator.mk ?a ?b ?c ?d ?e ?f ?g ?h))
    with (dedupSeriesIterator.Next fuel (dedupSeriesIterator.mk a b c d e f g h)).
  unfold dedupSeriesIterator.Next.
  cbn [dedupSeriesIterator.aok dedupSeriesIterator.bok dedupSeriesIterator.a
       dedupSeriesIterator.b dedupSeriesIterator.lastT dedupSeriesIterator.penA
       dedupSeriesIterator.penB].
  rewrite add64_target by (unfold MinInt64, MaxInt64; lia).
  rewrite Z.add_0_r, Hb.
  change (storage.Seek fuel (MinInt64 + 1)
            (boundedSeriesIterator.mk (ofChunks (c0 :: cs)) mint maxt))
    with (boundedSeriesIterator.Seek fuel (MinInt64 + 1)
            (boundedSeriesIterator.mk (ofChunks (c0 :: cs)) mint maxt)).
  unfold boundedSeriesIterator.Seek.
  cbn [boundedSeriesIterator.it boundedSeriesIterator.mint boundedSeriesIterator.maxt].
  destruct (Z.gtb_spec (MinInt64 + 1) maxt) as [|_]; [lia|].
  destruct (Z.ltb_spec (MinInt64 + 1) mint) as [_|];
    [|unfold MinInt64 in *; lia].
  change (storage.Seek fuel mint (ofChunks (c0 :: cs)))
    with (chunkSeriesIterator.Seek fuel mint (ofChunks (c0 :: cs))).
  pose proof (chunkSeriesIterator_Seek_forward (concat (c0 :: cs)) fuel mint
                (ofChunks (c0 :: cs)) (0, 0) Hon
                ltac:(cbn; unfold MaxInt64; lia) Hinc Hmint ltac:(lia)) as Hseek.
  destruct (skip_before mint (concat (c0 :: cs))) as [|s l] eqn:Hskip.
  - destruct Hseek as [it' Hseek]. rewrite Hseek. reflexivity.
  - destruct Hseek as (it' & Hseek & Hon' & Hrem'). rewrite Hseek.
    cbn [mbind res_bind negb].
    change (storage.At (boundedSeriesIterator.mk it' mint maxt))
      with (chunkSeriesIterator.At it').
    rewrite (on_sample_At _ _ _ Hon'). destruct s as [ts v] eqn:Hs.
    cbn [mbind res_bind negb].
    change (storage.At (dedupSeriesIterator.mk ?a ?b ?c ?d ?e ?f ?g true))
      with (storage.At a).
    change (storage.At (boundedSeriesIterator.mk it' mint maxt))
      with (chunkSeriesIterator.At it').
    rewrite (on_sample_At _ _ _ Hon'). cbn [mbind res_bind].
    destruct (skip_before_head _ _ _ _ _ Hinc Hskip) as (Hts & Hrange & Hinc').
    cbn [fst] in *.
    pose proof (dedup_one_side_loop n it' (ts, v) l b1 0 Hon') as Hrest.
    cbn [fst] in Hrest. rewrite Hrest; try lia; try assumption. reflexivity.
Qed.
End dedup_one_side.

(** * The further properties at concrete inputs *)

Lemma StronglySorted_impl {A : Type} (R1 R2 : relation A) (l : list A) :
  (forall a b, R1 a b -> R2 a b) -> StronglySorted R1 l -> StronglySorted R2 l.
Proof.
  intros Himpl. induction 1 as [|a l Hs IH Hall]; constructor; [exact IH|].
  eapply Forall_impl; [exact Hall|]. intros b. apply Himpl.
Qed.

Lemma mergeSlice_sorts : sorts mergeSlice.
Proof.
  intros l. unfold mergeSlice. split; [apply merge_sort_Permutation|].
  apply (StronglySorted_impl (fun a b => Is_true (negb (less_MinTime b a)))).
  - intros a b Hab. unfold less_MinTime in Hab.
    destruct (Z.ltb_spec (storepb.MinTime b) (storepb.MinTime a)); [contradiction|lia].
  - apply StronglySorted_merge_sort.
    + intros a b c Hab Hbc. unfold less_MinTime in *.
      destruct (Z.ltb_spec (storepb.MinTime b) (storepb.MinTime a)); [contradiction|].
      destruct (Z.ltb_spec (storepb.MinTime c) (storepb.MinTime b)); [contradiction|].
      destruct (Z.ltb_spec (storepb.MinTime c) (storepb.MinTime a)); [lia|exact I].
    + intros a b. unfold less_MinTime.
      destruct (Z.ltb_spec (storepb.MinTime b) (storepb.MinTime a)),
        (Z.ltb_spec (storepb.MinTime a) (storepb.MinTime b)); cbn; auto. lia.
Qed.

(** The index of a cursor over two chunks stays inside them. *)
Lemma chunkSeriesIterator_never_out_of_range_witness :
  let it := ofChunks [[(10, 1); (20, 2)]; [(15, 3); (30, 4)]] in
  chunkSeriesIterator.Next 5 it <> Panic
  /\ chunkSeriesIterator.Seek 5 12 it <> Panic
  /\ (forall ok it',
        chunkSeriesIterator.Next 5 it = Ok (ok, it')
        \/ chunkSeriesIterator.Seek 5 12 it = Ok (ok, it') ->
        length (chunkSeriesIterator.chunks it') = length (chunkSeriesIterator.chunks it)
        /\ (chunkSeriesIterator.i it <= chunkSeriesIterator.i it'
            < length (chunkSeriesIterator.chunks it'))%nat).
Proof.
  apply (chunkSeriesIterator_never_out_of_range 5 12
           (ofChunks [[(10, 1); (20, 2)]; [(15, 3); (30, 4)]])).
  cbn. lia.
Defined.

(** Three chunks that do not overlap, the second of them empty. *)
Lemma chunkSeriesIterator_emits_all_witness :
  samples 20 (ofChunks [[(10, 1); (20, 2)]; []; [(30, 3)]])
  = Ok [(10, 1); (20, 2); (30, 3)].
Proof.
  apply (chunkSeriesIterator_emits_all [[(10, 1); (20, 2)]; []; [(30, 3)]] 20).
  - discriminate.
  - cbn. unfold MaxInt64. lia.
  - cbn. lia.
Defined.

(** Two chunks that overlap. *)
Lemma chunkSeriesIterator_increasing_witness :
  exists l, samples 20 (ofChunks [[(10, 1); (30, 2)]; [(20, 3); (40, 4)]]) = Ok l
    /\ increasing_from 0 l.
Proof.
  apply (chunkSeriesIterator_increasing [[(10, 1); (30, 2)]; [(20, 3); (40, 4)]] 20).
  - discriminate.
  - repeat constructor; cbn; unfold MaxInt64; lia.
  - cbn. lia.
Defined.

(** The window [[150, 250]] over samples at 100, 200 and 300. *)
Lemma bounded_emits_window_witness :
  samples 20 (newBoundedSeriesIterator (ofChunks [[(100, 5); (200, 6)]; [(300, 7)]]) 150 250)
  = Ok [(200, 6)].
Proof.
  apply (bounded_emits_window [[(100, 5); (200, 6)]; [(300, 7)]] 150 250 20).
  - discriminate.
  - cbn. unfold MaxInt64. lia.
  - cbn. lia.
Defined.

(** The first [Next] of the same bounded cursor passes the sample at 100. *)
Lemma bounded_Next_within_witness :
  exists b' ts v,
    boundedSeriesIterator.Next 10
      (newBoundedSeriesIterator (ofChunks [[(100, 5); (200, 6)]; [(300, 7)]]) 150 250)
    = Ok (true, b')
    /\ boundedSeriesIterator.At b' = Ok (ts, v)
    /\ 150 <= ts <= 250.
Proof.
  assert (Hnext : exists b',
    boundedSeriesIterator.Next 10
      (newBoundedSeriesIterator (ofChunks [[(100, 5); (200, 6)]; [(300, 7)]]) 150 250)
    = Ok (true, b')).
  { eexists. vm_compute. reflexivity. }
  destruct Hnext as [b' Hnext].
  destruct (bounded_Next_within 10 _ b' chunkSeriesIterator_seek_reaches Hnext)
    as (ts & v & Hat & Hts).
  exists b', ts, v. split; [exact Hnext|]. split; [exact Hat|exact Hts].
Defined.

(** A request for sum and count over [twoChunks]: the first chunk has no
    raw payload, the second has one. *)
Lemma Iterator_sum_count_witness :
  exists its : list (@chunkSeries.chunkIterator bytesDecoder plainDownsample),
    @chunkSeries.Iterator bytesDecoder plainDownsample
      (newChunkSeries upLabels twoChunks 0 100 [storepb.Aggr_COUNT; storepb.Aggr_SUM])
    = inr (newBoundedSeriesIterator (inl (newChunkSeriesIterator its)) 0 100)
    /\ its !! 0%nat
       = Some (inr (@NewAverageChunkIterator bytesDecoder plainDownsample
                      (inr (errSeriesIterator.mk (Some "no valid chunk found"%string)))
                      (inr (errSeriesIterator.mk (Some "unknown chunk encoding"%string)))))
    /\ its !! 1%nat
       = Some (inl (inl (xorIterator.of_samples [(0, 5); (1, 6); (2, 7)]))).
Proof.
  destruct (@Iterator_sum_count bytesDecoder plainDownsample
              (newChunkSeries upLabels twoChunks 0 100
                 [storepb.Aggr_COUNT; storepb.Aggr_SUM]))
    as (its & Hit & _ & Hcur).
  - right. reflexivity.
  - exists its. split; [exact Hit|]. split.
    + destruct (Hcur 0%nat _ eq_refl) as [_ Havg]. exact (Havg eq_refl).
    + destruct (Hcur 1%nat _ eq_refl) as [Hraw _]. exact (Hraw _ eq_refl).
Defined.

(** A request for sums over a series without chunks. *)
Lemma Iterator_no_chunks_witness :
  let it := @chunkSeries.Iterator bytesDecoder plainDownsample
              (newChunkSeries upLabels [] 0 100 [storepb.Aggr_SUM]) in
  storage.Next 5 it = Ok (false, it)
  /\ storage.Seek 5 50 it = Ok (false, it)
  /\ storage.Err it = Ok None.
Proof.
  apply (@Iterator_no_chunks bytesDecoder plainDownsample
           (newChunkSeries upLabels [] 0 100 [storepb.Aggr_SUM]) 5 50).
  - reflexivity.
  - left. exists storepb.Aggr_SUM. split; [|reflexivity].
    unfold single_kinds. rewrite !elem_of_cons. auto.
  - discriminate.
Defined.

(** The label set of [upLabels] with the replica label [replica]. *)
Lemma peekLset_strips_trailing_replicas_witness :
  dedupSeriesSet.peekLset (dedupSeriesSet.mk {["replica"%string]} upLabels)
  = Ok [storepb.mkLabel "__name__" "up"].
Proof.
  apply (peekLset_strips_trailing_replicas
           (dedupSeriesSet.mk {["replica"%string]} upLabels)
           [storepb.mkLabel "__name__" "up"] [storepb.mkLabel "replica" "a"]).
  - reflexivity.
  - intros l Hl. apply list_elem_of_singleton in Hl. subst l.
    cbn. intros Hin. apply elem_of_singleton in Hin. discriminate Hin.
  - intros l Hl. apply list_elem_of_singleton in Hl. subst l.
    cbn. apply elem_of_singleton. reflexivity.
  - apply NoDup_singleton.
  - cbn. rewrite size_singleton. lia.
Defined.

(** The first advance over two series that start at 10000 and 5000. *)
Lemma dedup_Next_forward_witness :
  exists it' ts v,
    dedupSeriesIterator.Next 20
      (newDedupSeriesIterator
         (seriesCursor 1 1000000 [[(10000, 1); (20000, 2)]])
         (seriesCursor 1 1000000 [[(5000, 11); (15000, 12)]]))
    = Ok (true, it')
    /\ dedupSeriesIterator.At it' = Ok (ts, v)
    /\ dedupSeriesIterator.lastT it' = ts
    /\ MinInt64 < ts.
Proof.
  assert (Hnext : exists it',
    dedupSeriesIterator.Next 20
      (newDedupSeriesIterator
         (seriesCursor 1 1000000 [[(10000, 1); (20000, 2)]])
         (seriesCursor 1 1000000 [[(5000, 11); (15000, 12)]]))
    = Ok (true, it')).
  { eexists. vm_compute. reflexivity. }
  destruct Hnext as [it' Hnext].
  destruct (dedup_Next_forward 20
              (newDedupSeriesIterator
                 (seriesCursor 1 1000000 [[(10000, 1); (20000, 2)]])
                 (seriesCursor 1 1000000 [[(5000, 11); (15000, 12)]]))
              it'
              (bounded_Seek_reaches chunkSeriesIterator_seek_reaches)
              (bounded_Seek_reaches chunkSeriesIterator_seek_reaches))
    as (ts & v & Hat & Hlast & Hts & _).
  - cbn. lia.
  - cbn. lia.
  - cbn. lia.
  - vm_compute. discriminate.
  - vm_compute. discriminate.
  - exact Hnext.
  - exists it', ts, v. repeat split; assumption.
Defined.

(** Samples at 100, 200, 300 and 400 behind the bounds [[150, 250]], next to
    a side that has nothing: the sample at 300 is given. *)
Lemma dedup_one_side_passes_maxt_witness :
  samples 20
    (newDedupSeriesIterator
       (seriesCursor 150 250 [[(100, 5); (200, 6); (300, 7); (400, 8)]])
       (errSeriesIterator.mk None))
  = Ok [(200, 6); (300, 7)].
Proof.
  apply (dedup_one_side_passes_maxt 150 250 20
           [[(100, 5); (200, 6); (300, 7); (400, 8)]]
           (errSeriesIterator.mk None) (errSeriesIterator.mk None)).
  - discriminate.
  - cbn. unfold MaxInt64. lia.
  - lia.
  - unfold MinInt64. lia.
  - reflexivity.
  - cbn. lia.
Defined.

(** A matcher of the type number 9 after an equality matcher. *)
Lemma translateMatchers_first_failure_witness :
  translateMatchers
    [Some (labels.mkMatcher labels.MatchEqual "job" "a");
     Some (labels.mkMatcher (labels.MatchType_unknown 9) "job" "b"); None]
  = Ok ([], Some "unrecognized matcher type 9"%string)
  /\ translateMatchers
       [Some (labels.mkMatcher labels.MatchEqual "job" "a"); None;
        Some (labels.mkMatcher labels.MatchEqual "job" "b")]
     = Panic.
Proof.
  destruct (translateMatchers_first_failure
              [Some (labels.mkMatcher labels.MatchEqual "job" "a")] [None]
              9 "job" "b") as [Herr _].
  { constructor; [|constructor]. eexists. split; [reflexivity|]. intros code. discriminate. }
  destruct (translateMatchers_first_failure
              [Some (labels.mkMatcher labels.MatchEqual "job" "a")]
              [Some (labels.mkMatcher labels.MatchEqual "job" "b")]
              0 "" "") as [_ Hpanic].
  { constructor; [|constructor]. eexists. split; [reflexivity|]. intros code. discriminate. }
  split; [exact Herr|exact Hpanic].
Defined.

(** The four partial series. *)
Lemma storeSeriesSet_lists_series_witness :
  SeriesSet_all 5 (newStoreSeriesSet partialSeries)
  = Ok [(upLabels, [rawChunk 10]); (upLabels, [rawChunk 5; rawChunk 10]);
        (upLabelsB, [rawChunk 7]); (downLabels, [rawChunk 7])].
Proof.
  apply (storeSeriesSet_lists_series partialSeries 5). cbn. lia.
Defined.

(** A chunk with a sample whose value is a NaN. *)
Lemma expandSeries2_no_NaN_witness :
  Forall (fun s => IsNaN (snd s) = false) [(1, 5); (2, hackyStaleMarker2)].
Proof.
  apply (expandSeries2_no_NaN 5 (xorIterator.of_samples [(1, 5); (2, 0x7FF8000000000001)])).
  vm_compute. reflexivity.
Defined.

Lemma expandSeries2_samples_witness :
  expandSeries2 5 (xorIterator.of_samples [(1, 5); (2, 0x7FF8000000000001)])
  = Ok [(1, 5); (2, hackyStaleMarker2)].
Proof.
  apply (expandSeries2_samples [(1, 5); (2, 0x7FF8000000000001)] 5). cbn. lia.
Defined.

(** The four partial series are three series: the first two partial series
    have the same labels, and their chunks are sorted and without the
    second chunk that starts at 10. *)
Lemma promSeriesSet_lists_series_witness :
  @lists _ _ (promSeriesSet_set plainCompare mergeSlice startString) 10 partialSet
    (map (finished mergeSlice startString 0 100 [storepb.Aggr_COUNT])
       (gather plainCompare partialSeries))
  /\ map (finished mergeSlice startString 0 100 [storepb.Aggr_COUNT])
       (gather plainCompare partialSeries)
     = [newChunkSeries upLabels [rawChunk 5; rawChunk 10] 0 100 [storepb.Aggr_COUNT];
        newChunkSeries upLabelsB [rawChunk 7] 0 100 [storepb.Aggr_COUNT];
        newChunkSeries downLabels [rawChunk 7] 0 100 [storepb.Aggr_COUNT]].
Proof.
  split.
  - apply (promSeriesSet_lists_series plainCompare mergeSlice startString
             partialSeries 10 partialSet).
    + reflexivity.
    + reflexivity.
    + cbn. lia.
  - vm_compute. reflexivity.
Defined.

(** The first series of the four partial series. *)
Lemma promSeriesSet_Next_sorted_witness :
  exists s',
    promSeriesSet.Next plainCompare mergeSlice startString 10 partialSet = Ok (true, s')
    /\ StronglySorted (fun a b => storepb.MinTime a <= storepb.MinTime b)
         (promSeriesSet.currChunks s')
    /\ promSeriesSet.initiated s' = true.
Proof.
  assert (Hnext : exists s',
    promSeriesSet.Next plainCompare mergeSlice startString 10 partialSet = Ok (true, s')).
  { eexists. vm_compute. reflexivity. }
  destruct Hnext as [s' Hnext].
  destruct (promSeriesSet_Next_sorted plainCompare mergeSlice startString 10 partialSet s'
              mergeSlice_sorts Hnext) as (Hsorted & _ & Hinit & _).
  exists s'. split; [exact Hnext|]. split; [exact Hsorted|exact Hinit].
Defined.

(** The three series of the four partial series, with the replica label
    [replica]: the first two are one series. *)
Lemma dedupSeriesSet_groups_witness :
  exists s0 gs,
    @newDedupSeriesSet _ _ (promSeriesSet_set plainCompare mergeSlice startString)
      10 partialSet {["replica"%string]} = Ok s0
    /\ @series_all _ _
         (@dedupSeriesSet_set _ _ (promSeriesSet_set plainCompare mergeSlice startString)
            chunkSeries_series) 10 10 s0
       = Ok (map Some gs)
    /\ concat (map members gs)
       = map Some
           [newChunkSeries upLabels [rawChunk 5; rawChunk 10] 0 100 [storepb.Aggr_COUNT];
            newChunkSeries upLabelsB [rawChunk 7] 0 100 [storepb.Aggr_COUNT];
            newChunkSeries downLabels [rawChunk 7] 0 100 [storepb.Aggr_COUNT]]
    /\ (forall j g1 g2, gs !! j = Some g1 -> gs !! S j = Some g2 ->
          storage_set.Labels g1 <> storage_set.Labels g2).
Proof.
  destruct (@dedupSeriesSet_groups _ _
              (promSeriesSet_set plainCompare mergeSlice startString) chunkSeries_series
              {["replica"%string]} 10 partialSet
              [newChunkSeries upLabels [rawChunk 5; rawChunk 10] 0 100 [storepb.Aggr_COUNT];
               newChunkSeries upLabelsB [rawChunk 7] 0 100 [storepb.Aggr_COUNT];
               newChunkSeries downLabels [rawChunk 7] 0 100 [storepb.Aggr_COUNT]]
              10)
    as (s0 & gs & Hnew & Hall & Hconcat & _ & Hadj).
  - eapply lists_next; [vm_compute; reflexivity|vm_compute; reflexivity|].
    eapply lists_next; [vm_compute; reflexivity|vm_compute; reflexivity|].
    eapply lists_next; [vm_compute; reflexivity|vm_compute; reflexivity|].
    eapply lists_end. vm_compute. reflexivity.
  - repeat constructor; cbn; rewrite size_singleton; lia.
  - cbn. lia.
  - cbn. lia.
  - exists s0, gs. repeat split; assumption.
Defined.

(** The four partial series behind a store series set that reports an
    error. *)
Lemma dedupSeriesSet_over_failing_input_witness :
  exists s0,
    @newDedupSeriesSet _ _
      (@promSeriesSet_set _ brokenStoreSet plainCompare mergeSlice startString)
      10 partialSet {["replica"%string]} = Ok s0
    /\ dedupSeriesSet.state.ok s0 = true
    /\ dedupSeriesSet.state.peek s0 = None
    /\ @dedupSeriesSet.Next _ _
         (@promSeriesSet_set _ brokenStoreSet plainCompare mergeSlice startString)
         chunkSeries_series 10 s0 = Panic.
Proof.
  assert (Hnext : exists s1,
    @promSeriesSet.Next _ brokenStoreSet plainCompare mergeSlice startString 10 partialSet
    = Ok (true, s1)).
  { eexists. vm_compute. reflexivity. }
  destruct Hnext as [s1 Hnext].
  apply (@dedupSeriesSet_over_failing_input _ brokenStoreSet plainCompare mergeSlice
           startString partialSet s1 {["replica"%string]} 10 10 Hnext).
  cbn. discriminate.
Defined.

(** ** An error of a chunk ends the iteration *)

Section chunkSeriesIterator_error.
Context {C : Type} `{chunkenc.Iterator C}.

(** X25. When the cursor of the current chunk fails with an error,
    whichever chunk of the list it is, [Next] of the
    [chunkSeriesIterator] answers false without a move to the chunks that
    follow, and [Err] reports the error of that chunk. *)
Theorem chunkSeriesIterator_stops_at_error (fuel : nat) (it : chunkSeriesIterator.t C)
  (c c' : C) (msg : string) :
  chunkSeriesIterator.chunks it !! chunkSeriesIterator.i it = Some c ->
  chunkenc.Next c = (false, c') ->
  chunkenc.Err c' = Some msg ->
  let it' := chunkSeriesIterator.mk
               (<[chunkSeriesIterator.i it := c']> (chunkSeriesIterator.chunks it))
               (chunkSeriesIterator.i it) in
  chunkSeriesIterator.Next (S fuel) it = Ok (false, it')
  /\ chunkSeriesIterator.Err it' = Ok (Some msg)
  /\ chunkSeriesIterator.At it' = Ok (chunkenc.At c').
Proof.
  intros Hc Hnext Herr. cbn zeta.
  pose proof (lookup_lt_Some _ _ _ Hc) as Hi.
  assert (Hc' : <[chunkSeriesIterator.i it := c']> (chunkSeriesIterator.chunks it)
                !! chunkSeriesIterator.i it = Some c').
  { apply list_lookup_insert_eq. exact Hi. }
  split; [|split].
  - rewrite chunkSeriesIterator_Next_S. unfold chunkSeriesIterator.At at 1.
    rewrite Hc. cbn [mbind res_bind]. destruct (chunkenc.At c) as [lastT v].
    rewrite Hnext. unfold chunkSeriesIterator.Err.
    cbn [chunkSeriesIterator.chunks chunkSeriesIterator.i]. rewrite Hc'.
    cbn [mbind res_bind]. rewrite Herr, bool_decide_true by discriminate. reflexivity.
  - unfold chunkSeriesIterator.Err.
    cbn [chunkSeriesIterator.chunks chunkSeriesIterator.i]. now rewrite Hc', Herr.
  - unfold chunkSeriesIterator.At.
    cbn [chunkSeriesIterator.chunks chunkSeriesIterator.i]. now rewrite Hc'.
Qed.
End chunkSeriesIterator_error.

(** The second of three chunks does not decode after its only sample. *)
Lemma chunkSeriesIterator_stops_at_error_witness :
  let broken := xorIterator.mk (20, 2) [] (Some "bad chunk"%string) None in
  let failed := xorIterator.mk (20, 2) [] (Some "bad chunk"%string)
                  (Some "bad chunk"%string) in
  chunkSeriesIterator.Next 5
    (chunkSeriesIterator.mk
       [xorIterator.of_samples [(10, 1)]; broken; xorIterator.of_samples [(30, 3)]] 1)
  = Ok (false,
        chunkSeriesIterator.mk
          [xorIterator.of_samples [(10, 1)]; failed; xorIterator.of_samples [(30, 3)]] 1)
  /\ chunkSeriesIterator.Err
       (chunkSeriesIterator.mk
          [xorIterator.of_samples [(10, 1)]; failed; xorIterator.of_samples [(30, 3)]] 1)
     = Ok (Some "bad chunk"%string)
  /\ chunkSeriesIterator.At
       (chunkSeriesIterator.mk
          [xorIterator.of_samples [(10, 1)]; failed; xorIterator.of_samples [(30, 3)]] 1)
     = Ok (20, 2).
Proof.
  exact (chunkSeriesIterator_stops_at_error 4
           (chunkSeriesIterator.mk
              [xorIterator.of_samples [(10, 1)];
               xorIterator.mk (20, 2) [] (Some "bad chunk"%string) None;
               xorIterator.of_samples [(30, 3)]] 1)
           (xorIterator.mk (20, 2) [] (Some "bad chunk"%string) None)
           (xorIterator.mk (20, 2) [] (Some "bad chunk"%string) (Some "bad chunk"%string))
           "bad chunk" eq_refl eq_refl eq_refl).
Defined.
